(** * livingrental-alert: preflight planner and deployment executor

    A shallow embedding of [server/vps/preflight.ts] and
    [server/vps/deploy.ts], and the properties of the placement planner,
    the port-table parser, the proxy templates, the deployment routine and
    the health prober that the specification states about them. *)

From Stdlib Require Import ZArith NArith String Ascii List Lia DecimalString DecimalPos.
From stdpp Require Import gmap list.

Set Default Proof Using "Type".

Local Open Scope Z_scope.

(** ** JavaScript strings

    A JavaScript string is a sequence of UTF-16 code units.  Remote command
    output is arbitrary text, so a string is a list of code units, each a
    natural number; [lit] embeds an ASCII literal of the source. *)

Module JS.

Abbreviation jstring := (list N) (only parsing).

Definition lit (s : string) : list N :=
  map N_of_ascii (list_ascii_of_string s).

(** The double quote, which the templates of the source contain. *)
Definition dquote : list N := [34%N].

(** [String.prototype.includes]: is [needle] a contiguous part of [s]? *)
Fixpoint starts_with (needle s : list N) : bool :=
  match needle, s with
  | [], _ => true
  | _ :: _, [] => false
  | a :: needle', b :: s' => (a =? b)%N && starts_with needle' s'
  end.

Fixpoint includes (s needle : list N) : bool :=
  starts_with needle s ||
  match s with
  | [] => false
  | _ :: s' => includes s' needle
  end.

(** The number of positions of [s] at which [needle] occurs. *)
Fixpoint occurrences (needle s : list N) : nat :=
  ((if starts_with needle s then 1 else 0) +
   match s with
   | [] => 0
   | _ :: s' => occurrences needle s'
   end)%nat.

(** What "contains" means, independently of the search above. *)
Definition contains (s needle : list N) : Prop :=
  ∃ pre post, s = pre ++ needle ++ post.

(** [WhiteSpace] and [LineTerminator] of ECMAScript: what [trim] strips and
    what the regular expression class [\s] matches. *)
Definition is_space (c : N) : bool :=
  ((c =? 9) || (c =? 10) || (c =? 11) || (c =? 12) || (c =? 13) ||
   (c =? 32) || (c =? 160) || (c =? 5760) ||
   ((8192 <=? c) && (c <=? 8202)) ||
   (c =? 8232) || (c =? 8233) || (c =? 8239) || (c =? 8287) ||
   (c =? 12288) || (c =? 65279))%N.

(** The class [\d]. *)
Definition is_digit (c : N) : bool := ((48 <=? c) && (c <=? 57))%N.

Fixpoint trimStart (s : list N) : list N :=
  match s with
  | c :: s' => if is_space c then trimStart s' else s
  | [] => []
  end.

Definition trimEnd (s : list N) : list N := rev (trimStart (rev s)).

Definition trim (s : list N) : list N := trimEnd (trimStart s).

(** [s.split(sep)] for a one-unit separator: the pieces between the
    separators, empty pieces included; the empty string gives one empty
    piece. *)
Fixpoint split (sep : N) (s : list N) : list (list N) :=
  match s with
  | [] => [[]]
  | c :: s' =>
      if (c =? sep)%N then [] :: split sep s'
      else match split sep s' with
           | piece :: pieces => (c :: piece) :: pieces
           | [] => [[c]]
           end
  end.

(** [s.split(/\s+/)]: the pieces between maximal runs of white space; a
    leading or trailing run leaves an empty piece at that end. *)
Fixpoint split_spaces (s : list N) : list (list N) :=
  match s with
  | [] => [[]]
  | c :: s' =>
      if is_space c then
        match s' with
        | c' :: _ => if is_space c' then split_spaces s' else [] :: split_spaces s'
        | [] => [] :: split_spaces s'
        end
      else match split_spaces s' with
           | piece :: pieces => (c :: piece) :: pieces
           | [] => [[c]]
           end
  end.

(** A Number is a double.  The numbers this program reads and computes
    are whole and not negative.  Every integer up to 2^53 is a double;
    above it only the integers of 53 significant bits are; a value too
    large for a double is [Infinity].  Such a Number is modelled by an
    integer: a finite one by its value, and [Infinity] by 2^1024, the least
    integer above every finite double.  The program only compares a number
    it has parsed with other numbers ([usedPorts.includes]), and two such
    Numbers are equal exactly when their integers are. *)
Definition Infinity : Z := 2 ^ 1024.

(** The Number value for a natural number [v]: [v] itself up to 2^53;
    above, the nearest [q * 2^e] with [q] of 53 bits, a tie going to the
    even [q]; and [Infinity] when that is 2^1024 or more. *)
Definition Number_value (v : Z) : Z :=
  if v <=? 2 ^ 53 then v
  else
    let e := Z.log2 v - 52 in
    let q := v / 2 ^ e in
    let r := v mod 2 ^ e in
    let half := 2 ^ (e - 1) in
    let q' := if (half <? r) || ((r =? half) && Z.odd q) then q + 1 else q in
    if q' * 2 ^ e <? 2 ^ 1024 then q' * 2 ^ e else Infinity.

(** The integer a string of decimal digits spells. *)
Definition digits_value (ds : list N) : Z :=
  fold_left (fun acc c => 10 * acc + (Z.of_N c - 48)) ds 0.

(** [parseInt(ds, 10)] on a string of decimal digits: the Number value for
    the integer they spell, so that integer itself up to 2^53, a rounded
    one above, and [Infinity] when they spell 2^1024 - 2^970 or more. *)
Definition parseInt (ds : list N) : Z := Number_value (digits_value ds).

(** [Number.prototype.toString] on an integer: its decimal digits, with a
    minus sign when negative (JavaScript switches to exponent notation from
    10^21 on, far above any port). *)
Definition toString (n : Z) : list N :=
  lit (NilEmpty.string_of_int (Z.to_int n)).

(** A string is falsy exactly when it is empty. *)
Definition truthy (s : list N) : bool :=
  match s with [] => false | _ :: _ => true end.

End JS.

Import JS.

(** ** The placement planner ([preflight.ts]) *)

(** One row of the port table, as [parseListeningPorts] builds it. *)
Record PortEntry := {
  port : Z;
  protocol : jstring;
  process : jstring;
  state : jstring
}.

(** [portsToUse]: one port per managed service. *)
Module Ports.
Record t := mk {
  postgres : Z;
  n8n : Z;
  ntfy : Z;
  fetcher : Z
}.
End Ports.

(** [Array.prototype.includes] on numbers. *)
Definition Array_includes (arr : list Z) (x : Z) : bool :=
  existsb (Z.eqb x) arr.

(** The loop [for (let p = from; p < to; p++) if (!usedPorts.includes(p))
    return p;], with the number of iterations still to run as fuel. *)
Fixpoint probe (usedPorts : list Z) (p : Z) (fuel : nat) : option Z :=
  match fuel with
  | O => None
  | S fuel' =>
      if negb (Array_includes usedPorts p) then Some p
      else probe usedPorts (p + 1) fuel'
  end.

Definition findSafePort (preferred : Z) (usedPorts : list Z) : Z :=
  if negb (Array_includes usedPorts preferred) then preferred
  else
    match probe usedPorts (preferred + 1)
                (Z.to_nat ((preferred + 100) - (preferred + 1))) with
    | Some p => p
    | None => preferred + 1000
    end.

(** The regular expression [/:(\d+)$/] applied to [localAddr]: the leftmost
    colon that is followed by digits only, and at least one, up to the end
    of the string; the result is the captured group. *)
Fixpoint match_port (localAddr : jstring) : option jstring :=
  match localAddr with
  | [] => None
  | c :: rest =>
      if (c =? 58)%N && truthy rest && forallb is_digit rest then Some rest
      else match_port rest
  end.

(** [a || b] on array elements, where a missing element is [undefined]. *)
Definition or_else (a b : option jstring) : option jstring :=
  match a with
  | Some s => if truthy s then a else b
  | None => b
  end.

(** [a || "text"]. *)
Definition or_text (a : option jstring) (text : jstring) : jstring :=
  match a with
  | Some s => if truthy s then s else text
  | None => text
  end.

(** The body of the loop of [parseListeningPorts] on one line: [ports] is
    the array built so far. *)
Definition parse_line (ports : list PortEntry) (line : jstring) : list PortEntry :=
  let parts := split_spaces (trim line) in
  if (4 <=? length parts)%nat then
    let localAddr := or_else (parts !! 3%nat) (parts !! 4%nat) in
    match localAddr with
    | Some addr =>
        if truthy addr then
          match match_port addr with
          | Some digits =>
              ports ++ [ {| port := parseInt digits;
                            protocol := or_text (parts !! 0%nat) (lit "tcp");
                            process := or_text (parts !! (length parts - 1)%nat) (lit "unknown");
                            state := lit "LISTEN" |} ]
          | None => ports
          end
        else ports
    | None => ports
    end
  else ports.

Definition parseListeningPorts (raw : jstring) : list PortEntry :=
  let lines := drop 1 (split 10 (trim raw)) in
  fold_left parse_line lines [].

(** *** The proxy templates *)

Definition generateNginxConfig (ports : Ports.t) : jstring :=
  lit "# LivingRental Alert - Nginx reverse proxy configuration
# Add this to /etc/nginx/sites-available/rentalmonitor.conf
# Then: sudo ln -s /etc/nginx/sites-available/rentalmonitor.conf /etc/nginx/sites-enabled/
# And: sudo nginx -t && sudo systemctl reload nginx

# Main rental alert app - rentalert.sellsiren.com
server {
    listen 80;
    server_name rentalert.sellsiren.com;

    # n8n workflow automation
    location /n8n/ {
        proxy_pass http://127.0.0.1:" ++
  toString (Ports.n8n ports) ++
  lit "/;
        proxy_http_version 1.1;
        proxy_set_header Upgrade $http_upgrade;
        proxy_set_header Connection " ++
  dquote ++
  lit "upgrade" ++
  dquote ++
  lit ";
        proxy_set_header Host $host;
        proxy_set_header X-Real-IP $remote_addr;
        proxy_set_header X-Forwarded-For $proxy_add_x_forwarded_for;
        proxy_set_header X-Forwarded-Proto $scheme;
    }

    # ntfy push notifications
    location /ntfy/ {
        proxy_pass http://127.0.0.1:" ++
  toString (Ports.ntfy ports) ++
  lit "/;
        proxy_http_version 1.1;
        proxy_set_header Upgrade $http_upgrade;
        proxy_set_header Connection " ++
  dquote ++
  lit "upgrade" ++
  dquote ++
  lit ";
        proxy_set_header Host $host;
        proxy_set_header X-Real-IP $remote_addr;
    }

    # Fetcher microservice (protect with secret header)
    location /fetcher/ {
        proxy_pass http://127.0.0.1:" ++
  toString (Ports.fetcher ports) ++
  lit "/;
        proxy_set_header Host $host;
        proxy_set_header X-Real-IP $remote_addr;
    }
}

# Alternative: Subdomain configuration (requires DNS A records for each subdomain)
# n8n.sellsiren.com, ntfy.sellsiren.com, fetcher.sellsiren.com

# server {
#     listen 80;
#     server_name n8n.sellsiren.com;
#     location / {
#         proxy_pass http://127.0.0.1:" ++
  toString (Ports.n8n ports) ++
  lit ";
#         proxy_http_version 1.1;
#         proxy_set_header Upgrade $http_upgrade;
#         proxy_set_header Connection " ++
  dquote ++
  lit "upgrade" ++
  dquote ++
  lit ";
#         proxy_set_header Host $host;
#     }
# }

# server {
#     listen 80;
#     server_name ntfy.sellsiren.com;
#     location / {
#         proxy_pass http://127.0.0.1:" ++
  toString (Ports.ntfy ports) ++
  lit ";
#         proxy_http_version 1.1;
#         proxy_set_header Upgrade $http_upgrade;
#         proxy_set_header Connection " ++
  dquote ++
  lit "upgrade" ++
  dquote ++
  lit ";
#         proxy_set_header Host $host;
#     }
# }
".

Definition generateCaddyConfig (ports : Ports.t) : jstring :=
  lit "# LivingRental Alert - Caddy reverse proxy configuration
# Add this to your Caddyfile

rentalert.sellsiren.com {
    # n8n workflow automation
    handle_path /n8n/* {
        reverse_proxy 127.0.0.1:" ++
  toString (Ports.n8n ports) ++
  lit "
    }

    # ntfy push notifications
    handle_path /ntfy/* {
        reverse_proxy 127.0.0.1:" ++
  toString (Ports.ntfy ports) ++
  lit "
    }

    # Fetcher microservice
    handle_path /fetcher/* {
        reverse_proxy 127.0.0.1:" ++
  toString (Ports.fetcher ports) ++
  lit "
    }
}

# Alternative: Subdomain configuration (requires DNS A records)
# n8n.sellsiren.com {
#     reverse_proxy 127.0.0.1:" ++
  toString (Ports.n8n ports) ++
  lit "
# }
# ntfy.sellsiren.com {
#     reverse_proxy 127.0.0.1:" ++
  toString (Ports.ntfy ports) ++
  lit "
# }
".


(** *** The plan *)

Inductive ProxyType := nginx | caddy | traefik | none.

(** What [runPreflightScan] has gathered when it computes the plan: the
    parsed port table, whether docker is installed, the proxy it detected
    and which managed services already have a container. *)
Record HostFacts := {
  ports : list PortEntry;
  dockerInstalled : bool;
  proxyType : ProxyType;
  existing_n8n : bool;
  existing_postgres : bool
}.

Record SafePlan := {
  portsToUse : Ports.t;
  reuseExistingProxy : bool;
  proxyConfigSnippet : option jstring;
  warnings : list jstring;
  readyToDeploy : bool
}.

(** [if (cond) warnings.push(text)]. *)
Definition push_if (cond : bool) (text : jstring) (warnings : list jstring) : list jstring :=
  if cond then warnings ++ [text] else warnings.

(** The planning part of [runPreflightScan]. *)
Definition safePlan (facts : HostFacts) : SafePlan :=
  let usedPorts := map port (ports facts) in
  let safePorts :=
    {| Ports.postgres := findSafePort 5432 usedPorts;
       Ports.n8n := findSafePort 5678 usedPorts;
       Ports.ntfy := findSafePort 8080 usedPorts;
       Ports.fetcher := findSafePort 3001 usedPorts |} in
  let port80Used := Array_includes usedPorts 80 in
  let port443Used := Array_includes usedPorts 443 in
  let warnings :=
    push_if (existing_postgres facts) (lit "Postgres already exists - consider reusing")
    (push_if (existing_n8n facts) (lit "n8n already exists - will use different container name")
    (push_if port443Used (lit "Port 443 is in use - will bind to localhost only")
    (push_if port80Used (lit "Port 80 is in use - will bind to localhost only") []))) in
  let proxyConfigSnippet :=
    match proxyType facts with
    | nginx => Some (generateNginxConfig safePorts)
    | caddy => Some (generateCaddyConfig safePorts)
    | _ => None
    end in
  {| portsToUse := safePorts;
     reuseExistingProxy := match proxyType facts with none => false | _ => true end;
     proxyConfigSnippet := proxyConfigSnippet;
     warnings := warnings;
     readyToDeploy := dockerInstalled facts |}.

(** The four assigned ports, in the order of the record. *)
Definition assigned (P : Ports.t) : list Z :=
  [Ports.postgres P; Ports.n8n P; Ports.ntfy P; Ports.fetcher P].

(** The ports [findSafePort] can return for a preferred port: the preferred
    port, the 99 probed after it, and the fallback. *)
Definition candidate (preferred q : Z) : Prop :=
  preferred <= q < preferred + 100 ∨ q = preferred + 1000.

(** ** The deployment executor and the health prober ([deploy.ts]) *)

Record SSHConfig := {
  host : jstring;
  username : jstring;
  privateKey : jstring
}.

Record Status := {
  running : bool;
  healthy : bool;
  url : option jstring
}.

Module Services.
Record t := mk {
  postgres : Status;
  n8n : Status;
  ntfy : Status;
  fetcher : Status
}.
End Services.

Record DeployResult := {
  success : bool;
  message : jstring;
  logs : list jstring;
  services : Services.t
}.

(** *** The remote session

    A promise of the source either resolves to a value or rejects with an
    error, of which the code reads the message. *)
Inductive Reply (A : Type) : Type :=
| Ok (a : A)
| Throw (message : jstring).
Arguments Ok {A} a.
Arguments Throw {A} message.

(** What a call does on the session, in the order it does it. *)
Inductive Event :=
| Connect (config : SSHConfig) (r : Reply unit)
| Exec (command : jstring) (r : Reply jstring)
| Upload (remotePath content : jstring) (r : Reply unit)
| Sleep (ms : Z)
| ClientEnd.

(** The state the routines act on: the regular files of the remote host,
    what was done on sessions so far, and the [logs] array of the running
    call.  Of the commands the routines run ([mkdir -p], [test -f],
    [docker compose], [curl], [docker exec]) none writes a regular file
    under the deployment directory, so only [uploadFile] changes [files]. *)
Record State := {
  files : gmap (list N) (list N);
  history : list Event;
  log_array : list jstring
}.

(** Everything the code does not determine: whether the host accepts the
    connection, what each command prints or whether the channel fails,
    whether an upload fails and what a failed upload leaves at its path,
    the random tokens of [nanoid] and the clock. *)
Record Env := {
  connect_reply : State -> SSHConfig -> Reply unit;
  exec_reply : State -> jstring -> Reply jstring;
  upload_reply : State -> jstring -> jstring -> Reply unit;
  upload_torn : State -> jstring -> jstring -> option jstring;
  nanoid : State -> nat -> Z -> jstring;
  toISOString : State -> jstring
}.

(** The texts of the bundle that do not bear on the control flow of
    [deployToVPS]: the compose manifest, the three files of the fetcher
    service and the reference document (which embeds the date). *)
Record Bundle := {
  generateDockerCompose : Ports.t -> jstring;
  generateFetcherDockerfile : jstring;
  generateFetcherPackageJson : jstring;
  generateFetcherService : jstring;
  generateReadme : State -> Ports.t -> jstring
}.

(** *** Asynchronous code as a state and error monad *)

Definition M (A : Type) : Type := State -> Reply A * State.

Definition ret {A} (a : A) : M A := fun st => (Ok a, st).

Definition throw {A} (message : jstring) : M A := fun st => (Throw message, st).

Definition bind {A B} (m : M A) (k : A -> M B) : M B :=
  fun st =>
    match m st with
    | (Ok a, st') => k a st'
    | (Throw message, st') => (Throw message, st')
    end.

(** [try { body } catch (error) { handler(error.message) }]. *)
Definition try_catch {A} (body : M A) (handler : jstring -> M A) : M A :=
  fun st =>
    match body st with
    | (Ok a, st') => (Ok a, st')
    | (Throw message, st') => handler message st'
    end.

Declare Scope deploy_scope.
Delimit Scope deploy_scope with deploy.
Notation "x <- m ;; k" := (bind m (fun x => k))
  (at level 100, m at next level, right associativity) : deploy_scope.
Notation "m ;; k" := (bind m (fun _ => k))
  (at level 100, right associativity) : deploy_scope.
Local Open Scope deploy_scope.

Definition record (e : Event) (st : State) : State :=
  {| files := files st; history := history st ++ [e]; log_array := log_array st |}.

Definition connectSSH (E : Env) (config : SSHConfig) : M unit :=
  fun st =>
    let r := connect_reply E st config in
    (r, record (Connect config r) st).

Definition execCommand (E : Env) (command : jstring) : M jstring :=
  fun st =>
    let r := exec_reply E st command in
    (r, record (Exec command r) st).

Definition uploadFile (E : Env) (content remotePath : jstring) : M unit :=
  fun st =>
    let r := upload_reply E st remotePath content in
    let files' :=
      match r with
      | Ok _ => <[remotePath := content]> (files st)
      | Throw _ =>
          match upload_torn E st remotePath content with
          | Some torn => <[remotePath := torn]> (files st)
          | None => delete remotePath (files st)
          end
      end in
    (r, {| files := files';
           history := history st ++ [Upload remotePath content r];
           log_array := log_array st |}).

(** [client.end()]. *)
Definition client_end : M unit :=
  fun st => (Ok tt, record ClientEnd st).

(** [await new Promise((resolve) => setTimeout(resolve, ms))]. *)
Definition sleep (ms : Z) : M unit :=
  fun st => (Ok tt, record (Sleep ms) st).

(** [const logs: string[] = []], [logs.push(text)] and reading [logs]. *)
Definition new_logs : M unit :=
  fun st => (Ok tt, {| files := files st; history := history st; log_array := [] |}).

Definition logs_push (text : jstring) : M unit :=
  fun st => (Ok tt, {| files := files st; history := history st;
                       log_array := log_array st ++ [text] |}).

Definition read_logs : M (list jstring) :=
  fun st => (Ok (log_array st), st).

(** *** The generated environment files *)

Definition generateEnvExample : jstring :=
  lit "# LivingRental Alert - Environment Configuration
# Copy this to .env and fill in real values

# Postgres
POSTGRES_PASSWORD=your_secure_postgres_password

# n8n Configuration
N8N_USER=admin
N8N_PASSWORD=your_secure_n8n_password
N8N_ENCRYPTION_KEY=your_32_char_encryption_key_here
N8N_HOST=n8n.yourdomain.com
WEBHOOK_URL=https://n8n.yourdomain.com

# Fetcher Service
FETCHER_SECRET=your_fetcher_api_secret_here
".

(** [generateEnvFile]: four fresh tokens and the date. *)
Definition generateEnvFile (E : Env) : M jstring :=
  fun st =>
    let postgresPassword := nanoid E st 0%nat 32 in
    let n8nPassword := nanoid E st 1%nat 24 in
    let encryptionKey := nanoid E st 2%nat 32 in
    let fetcherSecret := nanoid E st 3%nat 32 in
    (Ok (lit "# LivingRental Alert - Environment Configuration
# Generated: " ++
  toISOString E st ++
  lit "

# Postgres
POSTGRES_PASSWORD=" ++
  postgresPassword ++
  lit "

# n8n Configuration
N8N_USER=admin
N8N_PASSWORD=" ++
  n8nPassword ++
  lit "
N8N_ENCRYPTION_KEY=" ++
  encryptionKey ++
  lit "
N8N_HOST=localhost
WEBHOOK_URL=http://localhost:5678

# Fetcher Service
FETCHER_SECRET=" ++
  fetcherSecret ++
  lit "
"), st).

(** *** The paths and commands of the source *)

Definition env_path : jstring := lit "/opt/rentalmonitor/.env".

Definition test_env_command : jstring :=
  lit "test -f /opt/rentalmonitor/.env && echo 'exists' || echo 'missing'".

Definition fetcher_health_command (ports : Ports.t) : jstring :=
  lit "curl -s http://127.0.0.1:" ++ toString (Ports.fetcher ports) ++
  lit "/health 2>/dev/null || echo 'failed'".

Definition ntfy_health_command (ports : Ports.t) : jstring :=
  lit "curl -s http://127.0.0.1:" ++ toString (Ports.ntfy ports) ++
  lit "/v1/health 2>/dev/null || echo 'failed'".

Definition n8n_health_command (ports : Ports.t) : jstring :=
  lit "curl -s http://127.0.0.1:" ++ toString (Ports.n8n ports) ++
  lit "/healthz 2>/dev/null || echo 'failed'".

Definition postgres_check_command : jstring :=
  lit "docker exec rentalmonitor_postgres pg_isready -U rentalmonitor 2>/dev/null || echo 'failed'".

Definition local_url (p : Z) : jstring := lit "http://127.0.0.1:" ++ toString p.

(** *** [deployToVPS] *)

(** The body of the [try] block. *)
Definition deploy_steps (E : Env) (B : Bundle) (ports : Ports.t) : M DeployResult :=
  logs_push (lit "Connected to VPS") ;;
  (* Create directory structure *)
  logs_push (lit "Creating directory structure...") ;;
  execCommand E (lit "mkdir -p /opt/rentalmonitor/{fetcher,logs}") ;;
  (* Upload Docker Compose file *)
  logs_push (lit "Uploading docker-compose.yml...") ;;
  uploadFile E (generateDockerCompose B ports) (lit "/opt/rentalmonitor/docker-compose.yml") ;;
  (* Upload .env.example *)
  logs_push (lit "Uploading .env.example...") ;;
  uploadFile E generateEnvExample (lit "/opt/rentalmonitor/.env.example") ;;
  (* Check if .env exists, if not create with generated secrets *)
  envExists <- execCommand E test_env_command ;;
  (if decide (trim envExists = lit "missing") then
     logs_push (lit "Creating .env with generated secrets...") ;;
     content <- generateEnvFile E ;;
     uploadFile E content env_path
   else
     logs_push (lit ".env already exists, keeping existing configuration")) ;;
  (* Upload fetcher service files *)
  logs_push (lit "Uploading fetcher service...") ;;
  uploadFile E (generateFetcherDockerfile B) (lit "/opt/rentalmonitor/fetcher/Dockerfile") ;;
  uploadFile E (generateFetcherPackageJson B) (lit "/opt/rentalmonitor/fetcher/package.json") ;;
  uploadFile E (generateFetcherService B) (lit "/opt/rentalmonitor/fetcher/index.js") ;;
  (* Create README *)
  logs_push (lit "Creating README...") ;;
  readme <- (fun st => (Ok (generateReadme B st ports), st)) ;;
  uploadFile E readme (lit "/opt/rentalmonitor/README.md") ;;
  (* Start the stack *)
  logs_push (lit "Starting Docker Compose stack...") ;;
  composeOutput <- execCommand E (lit "cd /opt/rentalmonitor && docker compose up -d --build 2>&1") ;;
  logs_push composeOutput ;;
  (* Wait for services to start *)
  logs_push (lit "Waiting for services to start...") ;;
  sleep 10000 ;;
  (* Check service health *)
  logs_push (lit "Checking service health...") ;;
  psOutput <- execCommand E (lit "cd /opt/rentalmonitor && docker compose ps --format json 2>/dev/null || docker compose ps") ;;
  logs_push psOutput ;;
  (* Test fetcher health endpoint *)
  fetcherHealth <- execCommand E (fetcher_health_command ports) ;;
  let fetcherRunning := includes fetcherHealth (lit "ok") in
  (* Test ntfy health *)
  ntfyHealth <- execCommand E (ntfy_health_command ports) ;;
  let ntfyRunning := includes ntfyHealth (lit "healthy") || negb (includes ntfyHealth (lit "failed")) in
  (* Check n8n *)
  n8nHealth <- execCommand E (n8n_health_command ports) ;;
  let n8nRunning := negb (includes n8nHealth (lit "failed")) in
  (* Check postgres *)
  postgresCheck <- execCommand E postgres_check_command ;;
  let postgresRunning := includes postgresCheck (lit "accepting connections") in
  client_end ;;
  logs <- read_logs ;;
  ret {| success := true;
         message := lit "Deployment completed successfully";
         logs := logs;
         services :=
           {| Services.postgres := {| running := postgresRunning; healthy := postgresRunning; url := None |};
              Services.n8n := {| running := n8nRunning; healthy := n8nRunning;
                                 url := Some (local_url (Ports.n8n ports)) |};
              Services.ntfy := {| running := ntfyRunning; healthy := ntfyRunning;
                                  url := Some (local_url (Ports.ntfy ports)) |};
              Services.fetcher := {| running := fetcherRunning; healthy := fetcherRunning;
                                     url := Some (local_url (Ports.fetcher ports)) |} |} |}.

Definition down : Status := {| running := false; healthy := false; url := None |}.

Definition all_down : Services.t :=
  {| Services.postgres := down; Services.n8n := down;
     Services.ntfy := down; Services.fetcher := down |}.

(** The [catch] block. *)
Definition deploy_failed (message : jstring) : M DeployResult :=
  client_end ;;
  logs_push (lit "Error: " ++ message) ;;
  logs <- read_logs ;;
  ret {| success := false;
         message := message;
         logs := logs;
         services := all_down |}.

Definition deployToVPS (E : Env) (B : Bundle) (config : SSHConfig) (ports : Ports.t)
  : M DeployResult :=
  new_logs ;;
  connectSSH E config ;;
  try_catch (deploy_steps E B ports) deploy_failed.

(** *** [checkVPSServices] *)

Definition checkVPSServices (E : Env) (config : SSHConfig) (ports : Ports.t)
  : M Services.t :=
  connectSSH E config ;;
  try_catch
    ((* Test fetcher health endpoint *)
     fetcherHealth <- execCommand E (fetcher_health_command ports) ;;
     let fetcherRunning := includes fetcherHealth (lit "ok") in
     (* Test ntfy health *)
     ntfyHealth <- execCommand E (ntfy_health_command ports) ;;
     let ntfyRunning := includes ntfyHealth (lit "healthy") || negb (includes ntfyHealth (lit "failed")) in
     (* Check n8n *)
     n8nHealth <- execCommand E (n8n_health_command ports) ;;
     let n8nRunning := negb (includes n8nHealth (lit "failed")) in
     (* Check postgres *)
     postgresCheck <- execCommand E postgres_check_command ;;
     let postgresRunning := includes postgresCheck (lit "accepting connections") in
     client_end ;;
     ret {| Services.postgres := {| running := postgresRunning; healthy := postgresRunning; url := None |};
            Services.n8n := {| running := n8nRunning; healthy := n8nRunning;
                               url := Some (local_url (Ports.n8n ports)) |};
            Services.ntfy := {| running := ntfyRunning; healthy := ntfyRunning;
                                url := Some (local_url (Ports.ntfy ports)) |};
            Services.fetcher := {| running := fetcherRunning; healthy := fetcherRunning;
                                   url := Some (local_url (Ports.fetcher ports)) |} |})
    (fun message => client_end ;; throw message).

(** *** Reading the history of a call *)

(** The error message of an operation that failed. *)
Definition failure (e : Event) : option jstring :=
  match e with
  | Connect _ (Throw message) => Some message
  | Exec _ (Throw message) => Some message
  | Upload _ _ (Throw message) => Some message
  | _ => None
  end.

Definition succeeded (e : Event) : Prop := failure e = None.

(** An upload to [path], whether it succeeded or not. *)
Definition writes_to (path : jstring) (e : Event) : Prop :=
  match e with
  | Upload remotePath _ _ => remotePath = path
  | _ => False
  end.

(** The remote shell answers the test of [deployToVPS] for the secrets file
    truthfully: it prints [missing] only when the file is absent. *)
Definition truthful_test (E : Env) : Prop :=
  ∀ st out,
    exec_reply E st test_env_command = Ok out →
    trim out = lit "missing" →
    files st !! env_path = None.


(** * Properties *)

(** ** The placement planner *)

Section Planner.

Implicit Types (usedPorts : list Z) (preferred p q r : Z).

Lemma Array_includes_true usedPorts p :
  Array_includes usedPorts p = true ↔ p ∈ usedPorts.
Proof.
  unfold Array_includes. rewrite existsb_exists. split.
  - intros (y & Hy & Heq). apply Z.eqb_eq in Heq. subst y.
    by apply list_elem_of_In.
  - intros Hp. exists p. split; [by apply list_elem_of_In | apply Z.eqb_refl].
Qed.

Lemma Array_includes_false usedPorts p :
  Array_includes usedPorts p = false ↔ p ∉ usedPorts.
Proof.
  rewrite <- Array_includes_true. destruct (Array_includes usedPorts p); naive_solver.
Qed.

(** The loop returns the first free port of the range it walks. *)
Lemma probe_Some usedPorts fuel : ∀ p q,
  probe usedPorts p fuel = Some q →
  p <= q < p + Z.of_nat fuel ∧ (q ∉ usedPorts) ∧ ∀ r, p <= r < q → r ∈ usedPorts.
Proof.
  induction fuel as [|fuel IH]; intros p q; simpl; [done|].
  destruct (Array_includes usedPorts p) eqn:Hp; simpl.
  - intros Hq. apply IH in Hq as (Hrange & Hfree & Hbusy).
    split; [lia|]. split; [done|].
    intros r Hr. destruct (decide (r = p)) as [->|Hne].
    + by apply Array_includes_true.
    + apply Hbusy. lia.
  - intros [= <-]. split; [lia|]. split; [by apply Array_includes_false|].
    intros r Hr. lia.
Qed.

(** The loop falls through only when the whole range is busy. *)
Lemma probe_None usedPorts fuel : ∀ p,
  probe usedPorts p fuel = None →
  ∀ r, p <= r < p + Z.of_nat fuel → r ∈ usedPorts.
Proof.
  induction fuel as [|fuel IH]; intros p; simpl; [intros _ r Hr; lia|].
  destruct (Array_includes usedPorts p) eqn:Hp; simpl; [|done].
  intros Hnone r Hr. destruct (decide (r = p)) as [->|Hne].
  - by apply Array_includes_true.
  - apply (IH (p + 1)); [done | lia].
Qed.

(** The three ways [findSafePort] answers. *)
Lemma findSafePort_cases preferred usedPorts :
  let q := findSafePort preferred usedPorts in
  (preferred <= q < preferred + 100 ∧ (q ∉ usedPorts) ∧
     ∀ r, preferred <= r < q → r ∈ usedPorts) ∨
  (q = preferred + 1000 ∧ ∀ r, preferred <= r < preferred + 100 → r ∈ usedPorts).
Proof.
  unfold findSafePort.
  destruct (Array_includes usedPorts preferred) eqn:Hp; simpl.
  - apply Array_includes_true in Hp.
    destruct (probe _ _ _) as [q|] eqn:Hprobe.
    + apply probe_Some in Hprobe as (Hrange & Hfree & Hbusy). left.
      split; [lia|]. split; [done|]. intros r Hr.
      destruct (decide (r = preferred)) as [->|Hne]; [done | apply Hbusy; lia].
    + right. split; [done|]. intros r Hr.
      destruct (decide (r = preferred)) as [->|Hne]; [done|].
      eapply probe_None; [exact Hprobe | lia].
  - apply Array_includes_false in Hp. left.
    split; [lia|]. split; [done|]. intros r Hr. lia.
Qed.

Lemma findSafePort_candidate preferred usedPorts :
  candidate preferred (findSafePort preferred usedPorts).
Proof.
  unfold candidate.
  destruct (findSafePort_cases preferred usedPorts) as [(H & _)|(H & _)]; [by left | by right].
Qed.

(** The default port table of [runPreflightScan]. *)
Definition preferred_ports : list Z := [5432; 5678; 8080; 3001].

Lemma safePlan_ports_NoDup facts : NoDup (assigned (portsToUse (safePlan facts))).
Proof.
  unfold assigned, safePlan; simpl.
  set (usedPorts := map port (ports facts)).
  pose proof (findSafePort_candidate 5432 usedPorts) as H1.
  pose proof (findSafePort_candidate 5678 usedPorts) as H2.
  pose proof (findSafePort_candidate 8080 usedPorts) as H3.
  pose proof (findSafePort_candidate 3001 usedPorts) as H4.
  unfold candidate in *.
  repeat (apply NoDup_cons; split); [| | | |apply NoDup_nil_2];
    rewrite ?elem_of_cons, ?elem_of_nil; lia.
Qed.

(** The ports 5432 .. 5531, all busy, and the fallback port 6432 busy too. *)
Definition listening (p : Z) : PortEntry :=
  {| port := p; protocol := lit "tcp"; process := lit "unknown"; state := lit "LISTEN" |}.

Definition range (from : Z) (count : nat) : list Z :=
  map (fun i => from + Z.of_nat i) (seq 0 count).

Lemma elem_of_range from count r :
  from <= r < from + Z.of_nat count → r ∈ range from count.
Proof.
  intros Hr. unfold range. apply list_elem_of_fmap.
  exists (Z.to_nat (r - from)). split; [lia|]. apply elem_of_seq. lia.
Qed.

Definition facts_of (usedPorts : list Z) : HostFacts :=
  {| ports := map listening usedPorts; dockerInstalled := true; proxyType := nginx;
     existing_n8n := false; existing_postgres := false |}.

Lemma facts_of_ports usedPorts : map port (ports (facts_of usedPorts)) = usedPorts.
Proof. simpl. rewrite map_map. simpl. apply map_id. Qed.

(** C1, as stated, fails: with 5432 .. 5531 and 6432 listening, the database
    is assigned 6432, a port of [facts.ports]. *)
Lemma plan_ports_free_counterexample :
  ¬ (∀ facts,
       let P := portsToUse (safePlan facts) in
       NoDup (assigned P) ∧ ∀ q, q ∈ assigned P → q ∉ map port (ports facts)).
Proof.
  intros H. destruct (H (facts_of (range 5432 100 ++ [6432]))) as [_ Hfree].
  apply (Hfree 6432).
  - apply (bool_decide_unpack _). by vm_compute.
  - apply (bool_decide_unpack _). by vm_compute.
Qed.

(** C1, amended: for every scan, the four assigned ports are pairwise
    distinct, and each of them is absent from [facts.ports] unless the
    preferred port and the 99 ports after it are all listening, in which
    case it is the preferred port plus 1000, listening or not. *)
Theorem plan_ports_distinct_and_free_or_fallback facts :
  let P := portsToUse (safePlan facts) in
  let usedPorts := map port (ports facts) in
  NoDup (assigned P) ∧
  Forall2 (fun preferred q =>
             q ∉ usedPorts ∨
             (q = preferred + 1000 ∧
              ∀ r, preferred <= r < preferred + 100 → r ∈ usedPorts))
          preferred_ports (assigned P).
Proof.
  intros P usedPorts. split; [apply safePlan_ports_NoDup|].
  unfold preferred_ports, assigned, P, safePlan; simpl. fold usedPorts.
  repeat apply Forall2_cons_2; try apply Forall2_nil_2;
    match goal with
    | |- context [findSafePort ?p _] =>
        destruct (findSafePort_cases p usedPorts) as [(_ & Hfree & _)|Hfall];
        [by left | by right]
    end.
Qed.

(** C2: [findSafePort] returns the preferred port when it is free; otherwise
    the first free port among the 99 after it; and the preferred port plus
    1000 when all 100 are busy.  With 5432 .. 5531 busy the plan gives the
    database 6432, which is none of the 100 ports probed. *)
Theorem findSafePort_spec preferred usedPorts :
  (preferred ∉ usedPorts → findSafePort preferred usedPorts = preferred) ∧
  (∀ q, preferred ∈ usedPorts → preferred < q < preferred + 100 → q ∉ usedPorts →
        (∀ r, preferred < r < q → r ∈ usedPorts) →
        findSafePort preferred usedPorts = q) ∧
  ((∀ r, preferred <= r < preferred + 100 → r ∈ usedPorts) →
   findSafePort preferred usedPorts = preferred + 1000) ∧
  (∀ facts,
     (∀ r, 5432 <= r <= 5531 → r ∈ map port (ports facts)) →
     Ports.postgres (portsToUse (safePlan facts)) = 6432 ∧
     ¬ (5432 <= Ports.postgres (portsToUse (safePlan facts)) <= 5531)).
Proof.
  assert (Hfall : ∀ p used, (∀ r, p <= r < p + 100 → r ∈ used) →
                            findSafePort p used = p + 1000).
  { intros p used Hbusy.
    destruct (findSafePort_cases p used) as [(Hrange & Hfree & _)|(H & _)]; [|done].
    exfalso. apply Hfree, Hbusy. lia. }
  split; [|split; [|split]].
  - intros Hfree. unfold findSafePort.
    apply Array_includes_false in Hfree. by rewrite Hfree.
  - intros q Hp Hq Hfree Hbusy.
    destruct (findSafePort_cases preferred usedPorts) as [(Hrange & Hfree' & Hbusy')|(_ & Hall)].
    + set (q' := findSafePort preferred usedPorts) in *.
      destruct (Z.lt_trichotomy q' q) as [Hlt|[Heq|Hgt]]; [|done|].
      * destruct (decide (q' = preferred)) as [Heq|Hne]; [congruence|].
        exfalso. apply Hfree', Hbusy. lia.
      * exfalso. apply Hfree, Hbusy'. lia.
    + exfalso. apply Hfree, Hall. lia.
  - apply Hfall.
  - intros facts Hbusy. simpl.
    rewrite (Hfall 5432) by (intros r Hr; apply Hbusy; lia). lia.
Qed.

(** C2 at concrete port tables: nothing listening; 5432 and 5433 listening;
    5432 .. 5531 listening. *)
Lemma findSafePort_spec_witness :
  findSafePort 5432 [] = 5432 ∧
  findSafePort 5432 [5433; 5432] = 5434 ∧
  findSafePort 5432 (range 5432 100) = 6432 ∧
  Ports.postgres (portsToUse (safePlan (facts_of (range 5432 100)))) = 6432.
Proof.
  split; [|split; [|split]].
  - destruct (findSafePort_spec 5432 []) as (Hfree & _).
    apply Hfree. intros H. by apply elem_of_nil in H.
  - destruct (findSafePort_spec 5432 [5433; 5432]) as (_ & Hnext & _).
    apply Hnext.
    + apply (bool_decide_unpack _). by vm_compute.
    + lia.
    + apply (bool_decide_unpack _). by vm_compute.
    + intros r Hr. replace r with 5433 by lia. apply list_elem_of_here.
  - destruct (findSafePort_spec 5432 (range 5432 100)) as (_ & _ & Hfall & _).
    apply Hfall. intros r Hr. apply elem_of_range. lia.
  - destruct (findSafePort_spec 5432 []) as (_ & _ & _ & Hdb).
    apply Hdb. intros r Hr. rewrite facts_of_ports. apply elem_of_range. lia.
Defined.

(** C9: the candidate sets of the four services are pairwise disjoint, every
    assigned port lies in the candidate set of its service, and so the four
    assigned ports are pairwise distinct for every port table, the fallback
    case included. *)
Theorem candidate_sets_disjoint_ports_distinct :
  (∀ p1 p2 q, p1 ∈ preferred_ports → p2 ∈ preferred_ports → p1 ≠ p2 →
              candidate p1 q → ¬ candidate p2 q) ∧
  (∀ facts,
     Forall2 candidate preferred_ports (assigned (portsToUse (safePlan facts)))) ∧
  (∀ facts, NoDup (assigned (portsToUse (safePlan facts)))).
Proof.
  split; [|split].
  - unfold preferred_ports, candidate. intros p1 p2 q H1 H2 Hne Hc1 Hc2.
    rewrite !elem_of_cons, elem_of_nil in H1, H2. lia.
  - intros facts. unfold preferred_ports, assigned, safePlan; simpl.
    repeat apply Forall2_cons_2; try apply Forall2_nil_2; apply findSafePort_candidate.
  - apply safePlan_ports_NoDup.
Qed.

(** C9 where every service falls back at once: all of 3001 .. 8179 busy. *)
Lemma candidate_sets_disjoint_ports_distinct_witness :
  assigned (portsToUse (safePlan (facts_of (range 3001 (Z.to_nat 5179))))) = [6432; 6678; 9080; 4001] ∧
  NoDup (assigned (portsToUse (safePlan (facts_of (range 3001 (Z.to_nat 5179)))))).
Proof.
  split.
  - by vm_compute.
  - apply candidate_sets_disjoint_ports_distinct.
Defined.

End Planner.

(** ** Searching strings *)

Section Strings.

Implicit Types (s needle pre post d : list N) (c : N).

Lemma starts_with_prefix needle : ∀ s,
  starts_with needle s = true ↔ ∃ post, s = needle ++ post.
Proof.
  induction needle as [|a needle IH]; intros s; simpl.
  - split; [intros _; by exists s | done].
  - destruct s as [|b s]; [split; [done | by intros [post ?]]|].
    rewrite andb_true_iff, N.eqb_eq, IH. split.
    + intros [-> [post ->]]. by exists post.
    + intros [post [= -> ->]]. split; [done | by exists post].
Qed.

(** [includes] decides [contains]. *)
Lemma includes_contains s needle : includes s needle = true ↔ contains s needle.
Proof.
  unfold contains. induction s as [|b s IH]; simpl.
  - rewrite orb_false_r, starts_with_prefix. split.
    + intros [post Hs]. by exists [], post.
    + intros (pre & post & Hs). symmetry in Hs.
      apply app_eq_nil in Hs as [-> Hs]. apply app_eq_nil in Hs as [-> ->].
      by exists [].
  - rewrite orb_true_iff, IH, (starts_with_prefix needle (b :: s)). split.
    + intros [[post Hs]|(pre & post & Hs)].
      * by exists [], post.
      * exists (b :: pre), post. by rewrite Hs.
    + intros ([|b' pre] & post & Hs).
      * left. by exists post.
      * right. injection Hs as -> Hs. by exists pre, post.
Qed.

Lemma includes_not_contains s needle : includes s needle = false ↔ ¬ contains s needle.
Proof.
  rewrite <- includes_contains. destruct (includes s needle); naive_solver.
Qed.

Lemma includes_occurrences s needle :
  includes s needle = negb (occurrences needle s =? 0)%nat.
Proof.
  induction s as [|b s IH]; simpl.
  - by destruct (starts_with needle []).
  - rewrite IH. destruct (starts_with needle (b :: s)); simpl; [done|].
    by destruct (occurrences needle s).
Qed.

(** A code unit that [needle] does not have ends every attempt to match
    [needle] across it. *)
Lemma starts_with_foreign needle : ∀ s c post,
  c ∉ needle → starts_with needle (s ++ c :: post) = starts_with needle s.
Proof.
  induction needle as [|a needle IH]; intros s c post Hc; [done|].
  apply not_elem_of_cons in Hc as [Hne Hc].
  destruct s as [|b s]; simpl.
  - apply andb_false_iff. left. apply N.eqb_neq. congruence.
  - by rewrite IH.
Qed.

Lemma occurrences_foreign needle s c post :
  needle ≠ [] → c ∉ needle →
  occurrences needle (s ++ c :: post) = (occurrences needle s + occurrences needle post)%nat.
Proof.
  intros Hne Hc. induction s as [|b s IH].
  - pose proof (starts_with_foreign needle [] c post Hc) as Hstart.
    destruct needle as [|a needle]; [done|].
    cbn [app] in Hstart. cbn [app occurrences]. rewrite Hstart. simpl. lia.
  - change ((b :: s) ++ c :: post) with (b :: (s ++ c :: post)).
    cbn [occurrences]. rewrite IH.
    change (b :: (s ++ c :: post)) with ((b :: s) ++ c :: post).
    rewrite starts_with_foreign by done. lia.
Qed.

(** A piece made of foreign code units, and not empty, splits the count. *)
Lemma occurrences_hole needle s d post :
  needle ≠ [] → d ≠ [] → Forall (λ c, c ∉ needle) d →
  occurrences needle (s ++ d ++ post) = (occurrences needle s + occurrences needle post)%nat.
Proof.
  intros Hne Hd Hforeign. destruct d as [|c d]; [done|]. clear Hd.
  apply Forall_cons in Hforeign as [Hc Hforeign].
  change (s ++ (c :: d) ++ post) with (s ++ c :: (d ++ post)).
  rewrite occurrences_foreign by done. f_equal.
  induction Hforeign as [|c' d Hc' _ IH]; [done|].
  rewrite <- IH. apply (occurrences_foreign needle [] c' (d ++ post) Hne) in Hc'.
  cbn [app] in Hc'. cbn [app]. rewrite Hc'. destruct needle; [done|]. simpl. lia.
Qed.

Lemma contains_skip pre s needle : contains s needle → contains (pre ++ s) needle.
Proof.
  intros (before & post & ->). exists (pre ++ before), post. by rewrite app_assoc.
Qed.

(** A piece found with the end of the text before it and the start of the
    text after it. *)
Lemma contains_hole s d post k1 k2 :
  k1 `suffix_of` s → k2 `prefix_of` post →
  contains (s ++ d ++ post) (k1 ++ d ++ k2).
Proof.
  intros [before ->] [rest ->]. exists before, rest.
  by rewrite <- !app_assoc.
Qed.

(** The decimal rendering of an integer: digits and the minus sign. *)
Definition plain (needle : list N) : bool :=
  forallb (λ c, negb (is_digit c) && negb (c =? 45)%N) needle.

Lemma string_of_uint_digits u :
  Forall (λ c, is_digit c = true) (lit (NilEmpty.string_of_uint u)).
Proof.
  induction u; simpl; try apply Forall_nil_2; by apply Forall_cons_2.
Qed.

Lemma toString_chars n : Forall (λ c, is_digit c = true ∨ c = 45%N) (toString n).
Proof.
  unfold toString. destruct (Z.to_int n) as [u|u]; simpl.
  - eapply Forall_impl; [apply string_of_uint_digits | naive_solver].
  - apply Forall_cons_2; [by right|].
    eapply Forall_impl; [apply string_of_uint_digits | naive_solver].
Qed.

Lemma toString_nonempty n : toString n ≠ [].
Proof.
  unfold toString.
  assert (Huint : ∀ u, u ≠ Decimal.Nil → lit (NilEmpty.string_of_uint u) ≠ []).
  { intros [] Hu; done. }
  destruct n as [|p|p]; simpl; [done| |done].
  apply Huint, Unsigned.to_uint_nonnil.
Qed.

Lemma toString_foreign needle n :
  plain needle = true → Forall (λ c, c ∉ needle) (toString n).
Proof.
  unfold plain. rewrite forallb_forall. intros Hplain.
  eapply Forall_impl; [apply toString_chars|].
  intros c Hc Hin. apply list_elem_of_In, Hplain in Hin.
  apply andb_true_iff in Hin as [Hd Hm].
  destruct Hc as [Hc| ->]; [by rewrite Hc in Hd | done].
Qed.

End Strings.

(** ** The nginx template *)

Section Proxy.

(** Counts [needle] in a template: the count of the whole is the sum of
    the counts of its literal pieces, as neither a rendered port nor a
    double quote shares a code unit with [needle]. *)
Local Ltac count_pieces :=
  unfold generateNginxConfig;
  repeat (rewrite occurrences_hole;
          [ | done
            | first [apply toString_nonempty | done]
            | first [by apply toString_foreign
                    | apply (bool_decide_unpack _); by vm_compute] ]);
  by vm_compute.

Lemma nginx_proxy_pass ports :
  occurrences (lit "proxy_pass") (generateNginxConfig ports) = 5%nat.
Proof. count_pieces. Qed.

Lemma nginx_reverse_proxy ports :
  occurrences (lit "reverse_proxy") (generateNginxConfig ports) = 0%nat.
Proof. count_pieces. Qed.

(** A directive of the commented-out subdomain alternative. *)
Definition commented_proxy_pass : list N := lit "#         proxy_pass ".

(** A directive of a [location] block: at the start of a line, indented. *)
Definition active_proxy_pass : list N := [10%N] ++ lit "        proxy_pass ".

Lemma nginx_commented ports :
  occurrences commented_proxy_pass (generateNginxConfig ports) = 2%nat.
Proof. count_pieces. Qed.

Lemma nginx_active ports :
  occurrences active_proxy_pass (generateNginxConfig ports) = 3%nat.
Proof. count_pieces. Qed.

(** The directive of the [location] block of a service, with its port. *)
Definition proxied (name : string) (p : Z) : list N :=
  (lit "location /" ++ lit name ++ lit "/ {" ++ [10%N] ++
   lit "        proxy_pass http://127.0.0.1:") ++ toString p ++ lit "/;".

Local Ltac find_block :=
  unfold generateNginxConfig, proxied;
  repeat first
    [ solve [ apply contains_hole;
              [ apply (bool_decide_unpack _); by vm_compute
              | apply prefix_app_r, (bool_decide_unpack _); by vm_compute ] ]
    | apply contains_skip ].

Lemma nginx_blocks ports :
  contains (generateNginxConfig ports) (proxied "n8n" (Ports.n8n ports)) ∧
  contains (generateNginxConfig ports) (proxied "ntfy" (Ports.ntfy ports)) ∧
  contains (generateNginxConfig ports) (proxied "fetcher" (Ports.fetcher ports)).
Proof. split; [|split]; find_block. Qed.

(** C8, as stated, fails: at the default ports the snippet has five
    occurrences of [proxy_pass], not three. *)
Lemma nginx_three_proxy_pass_counterexample :
  ¬ (∀ ports,
       includes (generateNginxConfig ports) (lit "reverse_proxy") = false ∧
       occurrences (lit "proxy_pass") (generateNginxConfig ports) = 3%nat).
Proof.
  intros H. destruct (H (Ports.mk 5432 5678 8080 3001)) as [_ Hcount].
  vm_compute in Hcount. discriminate Hcount.
Qed.

(** C8, amended: for every port assignment the nginx snippet does not
    contain [reverse_proxy], and contains [proxy_pass] exactly five times:
    three times as the directive of a [location] block, and twice in the
    commented-out subdomain alternative.  Each proxied service (n8n, ntfy,
    fetcher) has its [location] block, whose directive carries the port of
    the service.  The plan of a scan that detected nginx carries this
    snippet. *)
Theorem nginx_snippet_proxy_pass ports :
  let snippet := generateNginxConfig ports in
  includes snippet (lit "reverse_proxy") = false ∧
  occurrences (lit "proxy_pass") snippet = 5%nat ∧
  occurrences active_proxy_pass snippet = 3%nat ∧
  occurrences commented_proxy_pass snippet = 2%nat ∧
  (contains snippet (proxied "n8n" (Ports.n8n ports)) ∧
   contains snippet (proxied "ntfy" (Ports.ntfy ports)) ∧
   contains snippet (proxied "fetcher" (Ports.fetcher ports))) ∧
  (∀ facts, proxyType facts = nginx → portsToUse (safePlan facts) = ports →
            proxyConfigSnippet (safePlan facts) = Some snippet).
Proof.
  intros snippet. subst snippet. split; [|split; [|split; [|split; [|split]]]].
  - by rewrite includes_occurrences, nginx_reverse_proxy.
  - apply nginx_proxy_pass.
  - apply nginx_active.
  - apply nginx_commented.
  - apply nginx_blocks.
  - intros facts Hnginx <-. unfold safePlan. by rewrite Hnginx.
Qed.

(** C8 on the plan of a host with nginx and no busy port. *)
Lemma nginx_snippet_proxy_pass_witness :
  ∃ snippet,
    proxyConfigSnippet (safePlan (facts_of [])) = Some snippet ∧
    includes snippet (lit "reverse_proxy") = false ∧
    occurrences (lit "proxy_pass") snippet = 5%nat.
Proof.
  destruct (nginx_snippet_proxy_pass (portsToUse (safePlan (facts_of []))))
    as (Hno & Hfive & _ & _ & _ & Hplan).
  eexists. split; [apply Hplan; reflexivity|]. by split.
Defined.

End Proxy.

(** ** The port-table parser *)

Section Parser.

Implicit Types (raw line digits : list N) (acc : list PortEntry).

(** The white-space separated fields of a line. *)
Definition fields (line : list N) : list (list N) := split_spaces (trim line).

(** What one line adds to the array. *)
Definition line_entries (line : list N) : list PortEntry := parse_line [] line.

(** The address shape the parser looks for: anything, a colon, digits. *)
Definition ends_in_port (addr digits : list N) : Prop :=
  ∃ before, addr = before ++ 58%N :: digits ∧
            digits ≠ [] ∧ Forall (λ c, is_digit c = true) digits.

(** The expression finds the port at the end of such an address. *)
Lemma match_port_suffix before digits :
  digits ≠ [] → Forall (λ c, is_digit c = true) digits →
  match_port (before ++ 58%N :: digits) = Some digits.
Proof.
  intros Hne Hdigits.
  assert (Hall : forallb is_digit digits = true).
  { apply forallb_forall. intros c Hc.
    rewrite Forall_forall in Hdigits. by apply Hdigits, list_elem_of_In. }
  induction before as [|c before IH]; simpl.
  - rewrite Hall. by destruct digits.
  - rewrite forallb_app. simpl. by rewrite !andb_false_r.
Qed.

(** The array only grows, by what the line adds. *)
Lemma parse_line_acc acc line : parse_line acc line = acc ++ line_entries line.
Proof.
  unfold line_entries, parse_line.
  repeat case_match; by rewrite ?app_nil_r.
Qed.

Lemma parse_loop acc (lines : list (list N)) :
  fold_left parse_line lines acc = acc ++ flat_map line_entries lines.
Proof.
  revert acc. induction lines as [|line lines IH]; intros acc; simpl.
  - by rewrite app_nil_r.
  - by rewrite IH, parse_line_acc, app_assoc.
Qed.

Lemma line_entries_short line :
  (length (fields line) < 4)%nat → line_entries line = [].
Proof.
  intros Hshort. unfold line_entries, parse_line. fold (fields line).
  by destruct (Nat.leb_spec 4 (length (fields line))); [lia|].
Qed.

Lemma line_entries_well_formed line addr digits :
  (4 <= length (fields line))%nat →
  fields line !! 3%nat = Some addr →
  ends_in_port addr digits →
  line_entries line =
    [ {| port := parseInt digits;
         protocol := or_text (fields line !! 0%nat) (lit "tcp");
         process := or_text (fields line !! (length (fields line) - 1)%nat) (lit "unknown");
         state := lit "LISTEN" |} ].
Proof.
  intros Hlen Haddr (before & -> & Hne & Hdigits).
  unfold line_entries, parse_line. fold (fields line).
  destruct (Nat.leb_spec 4 (length (fields line))); [|lia].
  rewrite Haddr. cbn [or_else].
  assert (Htruthy : truthy (before ++ 58%N :: digits) = true) by by destruct before.
  rewrite Htruthy, Htruthy. by rewrite match_port_suffix.
Qed.

(** What the parser does keep.  For every input text it returns (it is a
    total function); the first line of the trimmed text adds nothing; every
    further line adds its own entries, whatever the other lines are; a line
    with fewer than four fields adds none; and a line with at least four
    fields whose fourth field ends in a colon and digits adds one entry,
    with the port [parseInt] reads there, which is in the result. *)
Lemma parseListeningPorts_lines raw :
  parseListeningPorts raw = flat_map line_entries (drop 1 (split 10 (trim raw))) ∧
  (∀ line, (length (fields line) < 4)%nat → line_entries line = []) ∧
  (∀ line addr digits,
     line ∈ drop 1 (split 10 (trim raw)) →
     (4 <= length (fields line))%nat →
     fields line !! 3%nat = Some addr →
     ends_in_port addr digits →
     ∃ entry, line_entries line = [entry] ∧
              port entry = parseInt digits ∧
              state entry = lit "LISTEN" ∧
              entry ∈ parseListeningPorts raw).
Proof.
  assert (Hloop : parseListeningPorts raw =
                  flat_map line_entries (drop 1 (split 10 (trim raw)))).
  { unfold parseListeningPorts. by rewrite parse_loop. }
  split; [done|]. split; [apply line_entries_short|].
  intros line addr digits Hin Hlen Haddr Hport.
  eexists. split; [by eapply line_entries_well_formed|].
  split; [done|]. split; [done|].
  rewrite Hloop. apply list_elem_of_In, in_flat_map.
  exists line. split; [by apply list_elem_of_In|].
  erewrite line_entries_well_formed by done. by left.
Qed.

(** A port table of [ss -tlnp] with a line of two fields in the middle. *)
Definition sample_table : list N :=
  lit "State  Recv-Q Send-Q Local Address:Port Peer Address:Port Process
LISTEN 0      128    0.0.0.0:22         0.0.0.0:*         users:((sshd,pid=1,fd=3))
bad line
LISTEN 0      244    127.0.0.1:5432     0.0.0.0:*         users:((postgres,pid=2,fd=5))
".

(** On [sample_table] the short line adds nothing and the line after it is
    still parsed. *)
Lemma parseListeningPorts_lines_sample :
  line_entries (lit "bad line") = [] ∧
  map port (parseListeningPorts sample_table) = [22; 5432] ∧
  ∃ entry, port entry = 5432 ∧ entry ∈ parseListeningPorts sample_table.
Proof.
  destruct (parseListeningPorts_lines sample_table) as (_ & Hshort & Hwell).
  split; [apply Hshort; vm_compute; lia|].
  split; [by vm_compute|].
  destruct (Hwell
    (lit "LISTEN 0      244    127.0.0.1:5432     0.0.0.0:*         users:((postgres,pid=2,fd=5))")
    (lit "127.0.0.1:5432") (lit "5432")) as (entry & _ & Hport & _ & Hin).
  - apply (bool_decide_unpack _). by vm_compute.
  - vm_compute. lia.
  - by vm_compute.
  - exists (lit "127.0.0.1"). split; [by vm_compute|]. split; [done|].
    apply (bool_decide_unpack _). by vm_compute.
  - exists entry. split; [|done]. rewrite Hport. by vm_compute.
Qed.



End Parser.

(** ** Runs of the deployment routines *)

Section Runs.

Context (E : Env).

(** The texts of the source stay as written while runs are followed. *)
Local Opaque lit.

Implicit Types (st : State) (e : Event) (text command : list N).

(** The operations a call added to the history. *)
Definition new_events (st st' : State) : list Event :=
  drop (length (history st)) (history st').

Lemma new_events_app st st' new :
  history st' = history st ++ new → new_events st st' = new.
Proof. unfold new_events. intros ->. apply drop_app_length. Qed.

(** *** Following a run that returned *)

Lemma bind_Ok {A B} (m : M A) (k : A → M B) st b st' :
  bind m k st = (Ok b, st') →
  ∃ a st1, m st = (Ok a, st1) ∧ k a st1 = (Ok b, st').
Proof.
  unfold bind. destruct (m st) as [[a|msg] st1]; [|done]. intros Hk. by exists a, st1.
Qed.

Lemma execCommand_Ok command st out st' :
  execCommand E command st = (Ok out, st') →
  exec_reply E st command = Ok out ∧
  history st' = history st ++ [Exec command (Ok out)].
Proof. unfold execCommand. intros [= Hr <-]. by rewrite Hr. Qed.

Lemma uploadFile_Ok content path st u st' :
  uploadFile E content path st = (Ok u, st') →
  history st' = history st ++ [Upload path content (Ok tt)].
Proof. unfold uploadFile. intros [= Hr <-]. simpl. rewrite Hr. by destruct u. Qed.

Lemma logs_push_Ok text st u st' :
  logs_push text st = (Ok u, st') → history st' = history st.
Proof. unfold logs_push. intros Hrun. by simplify_eq. Qed.

Lemma sleep_Ok ms st u st' :
  sleep ms st = (Ok u, st') → history st' = history st ++ [Sleep ms].
Proof. unfold sleep. intros Hrun. by simplify_eq. Qed.

Lemma client_end_Ok st u st' :
  client_end st = (Ok u, st') → history st' = history st ++ [ClientEnd].
Proof. unfold client_end. intros Hrun. by simplify_eq. Qed.

Lemma read_logs_Ok st l st' :
  read_logs st = (Ok l, st') → l = log_array st ∧ st' = st.
Proof. unfold read_logs. intros Hrun. by simplify_eq. Qed.

Lemma generateEnvFile_Ok st content st' :
  generateEnvFile E st = (Ok content, st') → st' = st.
Proof. unfold generateEnvFile. intros Hrun. by simplify_eq. Qed.

Lemma ret_Ok {A} (a b : A) st st' : ret a st = (Ok b, st') → b = a ∧ st' = st.
Proof. unfold ret. intros Hrun. by simplify_eq. Qed.

(** *** What a run leaves in the history

    A computation is [traced] when every run of it only appends to the
    history, a run that returns appends operations that succeeded, and a
    run that throws appends operations that succeeded and then the one that
    failed, whose error is the one thrown. *)
Definition traced {A} (m : M A) : Prop :=
  ∀ st, ∃ new,
    history (m st).2 = history st ++ new ∧
    match (m st).1 with
    | Ok _ => Forall succeeded new
    | Throw msg => ∃ before e,
        new = before ++ [e] ∧ Forall succeeded before ∧ failure e = Some msg
    end.

Lemma traced_plain {A} (f : State → A) (g : State → State) :
  (∀ st, history (g st) = history st) → traced (λ st, (Ok (f st), g st)).
Proof.
  intros Hg st. exists []. simpl. by rewrite Hg, app_nil_r.
Qed.

Lemma traced_ret {A} (a : A) : traced (ret a).
Proof. by apply (traced_plain (λ _, a) (λ st, st)). Qed.

Lemma traced_logs_push text : traced (logs_push text).
Proof. by apply (traced_plain (λ _, tt)). Qed.

Lemma traced_new_logs : traced new_logs.
Proof. by apply (traced_plain (λ _, tt)). Qed.

Lemma traced_read_logs : traced read_logs.
Proof. by apply (traced_plain log_array (λ st, st)). Qed.

Lemma traced_generateEnvFile : traced (generateEnvFile E).
Proof. intros st. exists []. simpl. by rewrite app_nil_r. Qed.

Lemma traced_event e : succeeded e → traced (λ st, (Ok tt, record e st)).
Proof. intros He st. exists [e]. simpl. split; [done | by apply Forall_singleton]. Qed.

Lemma traced_client_end : traced client_end.
Proof. by apply traced_event. Qed.

Lemma traced_sleep ms : traced (sleep ms).
Proof. by apply traced_event. Qed.

Lemma traced_execCommand command : traced (execCommand E command).
Proof.
  intros st. eexists. unfold execCommand. simpl. split; [done|].
  destruct (exec_reply E st command) as [out|msg].
  - by apply Forall_singleton.
  - by exists [], (Exec command (Throw msg)).
Qed.

Lemma traced_uploadFile content path : traced (uploadFile E content path).
Proof.
  intros st. eexists. unfold uploadFile. simpl. split; [done|].
  destruct (upload_reply E st path content) as [u|msg].
  - by apply Forall_singleton.
  - by exists [], (Upload path content (Throw msg)).
Qed.

Lemma traced_connectSSH config : traced (connectSSH E config).
Proof.
  intros st. eexists. unfold connectSSH. simpl. split; [done|].
  destruct (connect_reply E st config) as [u|msg].
  - by apply Forall_singleton.
  - by exists [], (Connect config (Throw msg)).
Qed.

Lemma traced_bind {A B} (m : M A) (k : A → M B) :
  traced m → (∀ a, traced (k a)) → traced (bind m k).
Proof.
  intros Hm Hk st. unfold bind.
  destruct (Hm st) as (new1 & Hnew1 & Hres1).
  destruct (m st) as [[a|msg] st1]; simpl in *.
  - destruct (Hk a st1) as (new2 & Hnew2 & Hres2).
    exists (new1 ++ new2). rewrite Hnew2, Hnew1, app_assoc. split; [done|].
    destruct (k a st1) as [[b|msg] st2]; simpl in *.
    + by apply Forall_app.
    + destruct Hres2 as (before & e & -> & Hbefore & He).
      exists (new1 ++ before), e. rewrite app_assoc. split; [done|].
      split; [by apply Forall_app | done].
  - by exists new1.
Qed.

Local Ltac traced_steps :=
  repeat first
    [ apply traced_bind; [|intros ?]
    | apply traced_logs_push | apply traced_execCommand | apply traced_uploadFile
    | apply traced_client_end | apply traced_sleep | apply traced_read_logs
    | apply traced_ret | apply traced_generateEnvFile
    | by apply (traced_plain _ (λ st, st))
    | case_decide ].

Lemma traced_deploy_steps B ports : traced (deploy_steps E B ports).
Proof. unfold deploy_steps. traced_steps. Qed.

(** *** What a run that returns gives back *)

Definition returns {A} (Q : A → Prop) (m : M A) : Prop :=
  ∀ st a st', m st = (Ok a, st') → Q a.

Lemma returns_bind {A B} (Q : B → Prop) (m : M A) (k : A → M B) :
  (∀ a, returns Q (k a)) → returns Q (bind m k).
Proof.
  intros Hk st b st' Hrun. apply bind_Ok in Hrun as (a & st1 & _ & Hrun).
  by eapply Hk.
Qed.

Lemma returns_ret {A} (Q : A → Prop) (a : A) : Q a → returns Q (ret a).
Proof. by intros Ha st a' st' [= <- _]. Qed.

(** The [try] block, when it runs to its end, reports success. *)
Lemma deploy_steps_returns B ports :
  returns (λ r, success r = true ∧
                message r = lit "Deployment completed successfully")
          (deploy_steps E B ports).
Proof.
  unfold deploy_steps.
  repeat (apply returns_bind; intros ?). by apply returns_ret.
Qed.

(** The [catch] block: end the session, log the error, report failure. *)
Lemma deploy_failed_run msg st :
  deploy_failed msg st =
    (Ok {| success := false; message := msg;
           logs := log_array st ++ [lit "Error: " ++ msg];
           services := all_down |},
     {| files := files st; history := history st ++ [ClientEnd];
        log_array := log_array st ++ [lit "Error: " ++ msg] |}).
Proof. reflexivity. Qed.

(** Where [deployToVPS] goes once the session is open. *)
Lemma deployToVPS_run B config ports st :
  deployToVPS E B config ports st =
    let st1 := {| files := files st; history := history st; log_array := [] |} in
    match connect_reply E st1 config with
    | Ok _ =>
        try_catch (deploy_steps E B ports) deploy_failed
                  (record (Connect config (connect_reply E st1 config)) st1)
    | Throw msg =>
        (Throw msg, record (Connect config (connect_reply E st1 config)) st1)
    end.
Proof.
  unfold deployToVPS, bind, new_logs, connectSSH. cbv zeta.
  by destruct (connect_reply _ _ _).
Qed.



(** C10: when no operation of a deployment fails, the call returns
    [success = true] with the message "Deployment completed successfully",
    whatever the four health probes answered. *)
Theorem deploy_success_without_exception B config ports st res st' :
  deployToVPS E B config ports st = (res, st') →
  Forall succeeded (new_events st st') →
  ∃ r, res = Ok r ∧
       success r = true ∧
       message r = lit "Deployment completed successfully".
Proof.
  rewrite deployToVPS_run. cbv zeta.
  set (st1 := {| files := files st; history := history st; log_array := [] |}).
  destruct (connect_reply E st1 config) as [u|msg0] eqn:Hconnect.
  - unfold try_catch.
    destruct (traced_deploy_steps B ports (record (Connect config (Ok u)) st1))
      as (new & Hnew & Hres).
    destruct (deploy_steps E B ports _) as [[r0|msg0] st2] eqn:Hsteps;
      simpl in Hnew, Hres.
    + intros [= <- <-] _. exists r0. split; [done|].
      by eapply deploy_steps_returns.
    + rewrite deploy_failed_run. intros [= <- <-] Hall. exfalso.
      destruct Hres as (before & e0 & -> & Hbefore & He0).
      rewrite (new_events_app st _ ((Connect config (Ok u) :: before) ++ [e0; ClientEnd]))
        in Hall by (simpl; rewrite Hnew; by rewrite <- !app_assoc).
      apply Forall_app in Hall as [_ Hall]. apply Forall_cons in Hall as [Hsucc _].
      unfold succeeded in Hsucc. congruence.
  - intros [= <- <-] Hall. exfalso.
    rewrite (new_events_app st _ [Connect config (Throw msg0)]) in Hall by reflexivity.
    rewrite Forall_singleton in Hall. unfold succeeded in Hall. done.
Qed.

(** *** The health probes of a run *)

(** The status record both routines build from the four outputs. *)
Definition status_of (ports : Ports.t)
    (fetcherHealth ntfyHealth n8nHealth postgresCheck : list N) : Services.t :=
  let fetcherRunning := includes fetcherHealth (lit "ok") in
  let ntfyRunning :=
    includes ntfyHealth (lit "healthy") || negb (includes ntfyHealth (lit "failed")) in
  let n8nRunning := negb (includes n8nHealth (lit "failed")) in
  let postgresRunning := includes postgresCheck (lit "accepting connections") in
  {| Services.postgres := {| running := postgresRunning; healthy := postgresRunning; url := None |};
     Services.n8n := {| running := n8nRunning; healthy := n8nRunning;
                        url := Some (local_url (Ports.n8n ports)) |};
     Services.ntfy := {| running := ntfyRunning; healthy := ntfyRunning;
                         url := Some (local_url (Ports.ntfy ports)) |};
     Services.fetcher := {| running := fetcherRunning; healthy := fetcherRunning;
                            url := Some (local_url (Ports.fetcher ports)) |} |}.

(** The four probes of a run, as found in what it added to the history:
    each was answered, by the output named. *)
Definition probed (ports : Ports.t) (new : list Event)
    (fetcherHealth ntfyHealth n8nHealth postgresCheck : list N) : Prop :=
  Exec (fetcher_health_command ports) (Ok fetcherHealth) ∈ new ∧
  Exec (ntfy_health_command ports) (Ok ntfyHealth) ∈ new ∧
  Exec (n8n_health_command ports) (Ok n8nHealth) ∈ new ∧
  Exec postgres_check_command (Ok postgresCheck) ∈ new.

(** Follows a run that returned, one operation at a time, keeping of each
    state only how its history grew. *)
Local Ltac follow H :=
  lazymatch type of H with
  | bind _ _ _ = (Ok _, _) =>
      let Hm := fresh "Hm" in
      apply bind_Ok in H as (? & ? & Hm & H);
      follow Hm; cbv beta zeta in H; follow H
  | (if decide _ then _ else _) _ = _ => case_decide; follow H
  | execCommand _ _ _ = (Ok _, _) => apply execCommand_Ok in H as [? H]
  | uploadFile _ _ _ _ = (Ok _, _) => apply uploadFile_Ok in H
  | logs_push _ _ = (Ok _, _) => apply logs_push_Ok in H
  | sleep _ _ = (Ok _, _) => apply sleep_Ok in H
  | client_end _ = (Ok _, _) => apply client_end_Ok in H
  | read_logs _ = (Ok _, _) => apply read_logs_Ok in H as [-> ->]
  | generateEnvFile _ _ = (Ok _, _) => apply generateEnvFile_Ok in H as ->
  | ret _ _ = (Ok _, _) => apply ret_Ok in H as [-> ->]
  | _ => cbv beta in H; injection H as <- <-
  end.

(** The history of the last state, as the first one grown. *)
Local Ltac grown :=
  lazymatch goal with
  | |- history ?s' = _ =>
      let last_history := fresh "last_history" in
      let Hgrown := fresh "Hgrown" in
      set (last_history := history s');
      assert (Hgrown : last_history = history s') by reflexivity;
      clearbody last_history;
      repeat match goal with
             | H : history _ = _ |- _ => rewrite H in Hgrown; clear H
             end;
      rewrite ?app_nil_r, <- ?app_assoc in Hgrown; exact Hgrown
  end.

Local Ltac found :=
  repeat first [apply list_elem_of_here | apply list_elem_of_further].

Lemma deploy_steps_probes B ports st r st' :
  deploy_steps E B ports st = (Ok r, st') →
  ∃ new fetcherHealth ntfyHealth n8nHealth postgresCheck sn,
    history st' = history st ++ new ∧
    probed ports new fetcherHealth ntfyHealth n8nHealth postgresCheck ∧
    exec_reply E sn (ntfy_health_command ports) = Ok ntfyHealth ∧
    services r = status_of ports fetcherHealth ntfyHealth n8nHealth postgresCheck.
Proof.
  intros Hrun. unfold deploy_steps in Hrun. follow Hrun;
    (eexists _, _, _, _, _, _; split; [grown|];
     split; [unfold probed; cbn [app]; repeat split; found|];
     split; [eassumption | reflexivity]).
Qed.

(** Every run of [checkVPSServices]: either the four probes were answered
    and the result is built from their outputs, or the connection or one
    of the probes failed and the call throws that error. *)
Lemma checkVPSServices_probes config ports st res st' :
  checkVPSServices E config ports st = (res, st') →
  ∃ new, history st' = history st ++ new ∧
    match res with
    | Ok s =>
        ∃ fetcherHealth ntfyHealth n8nHealth postgresCheck sn,
          probed ports new fetcherHealth ntfyHealth n8nHealth postgresCheck ∧
          exec_reply E sn (ntfy_health_command ports) = Ok ntfyHealth ∧
          s = status_of ports fetcherHealth ntfyHealth n8nHealth postgresCheck
    | Throw msg =>
        connect_reply E st config = Throw msg ∨
        ∃ command,
          command ∈ [fetcher_health_command ports; ntfy_health_command ports;
                     n8n_health_command ports; postgres_check_command] ∧
          Exec command (Throw msg) ∈ new
    end.
Proof.
  cbv [checkVPSServices bind try_catch connectSSH execCommand client_end ret throw].
  destruct (connect_reply E st config) as [u|msg] eqn:Hconnect.
  2: { intros [= <- <-]. eexists. split; [reflexivity|]. by left. }
  repeat
    lazymatch goal with
    | |- context [match exec_reply E ?s ?c with _ => _ end] =>
        destruct (exec_reply E s c) as [?out|?msg] eqn:?
    end;
    intros [= <- <-]; (eexists; split;
      [unfold record; cbn [history]; rewrite <- ?app_assoc; reflexivity|]);
    first
      [ right; eexists; split; [|cbn [app]; found]; found
      | eexists _, _, _, _, _; split;
        [unfold probed; cbn [app]; repeat split; found | split; [eassumption | reflexivity]] ].
Qed.

(** *** The notification-server heuristic *)

(** What [ntfyRunning] tests, in words. *)
Definition ntfy_rule (body : list N) : Prop :=
  contains body (lit "healthy") ∨ ¬ contains body (lit "failed").

Lemma status_of_ntfy ports fetcherHealth ntfyHealth n8nHealth postgresCheck :
  let s := status_of ports fetcherHealth ntfyHealth n8nHealth postgresCheck in
  (healthy (Services.ntfy s) = true ↔ ntfy_rule ntfyHealth) ∧
  running (Services.ntfy s) = healthy (Services.ntfy s).
Proof.
  simpl. split; [|done]. unfold ntfy_rule.
  rewrite orb_true_iff, negb_true_iff, includes_contains, includes_not_contains. done.
Qed.

(** A successful deployment is a run of the [try] block to its end. *)
Lemma deployToVPS_success B config ports st r st' :
  deployToVPS E B config ports st = (Ok r, st') →
  success r = true →
  ∃ st1 new, history st1 = history st ++ new ∧ deploy_steps E B ports st1 = (Ok r, st').
Proof.
  rewrite deployToVPS_run. cbv zeta.
  destruct (connect_reply E _ config) as [u|msg]; [|done].
  unfold try_catch.
  destruct (deploy_steps E B ports _) as [[r0|msg] st2] eqn:Hsteps.
  - intros [= -> ->] _. eexists _, _. split; [|exact Hsteps]. reflexivity.
  - rewrite deploy_failed_run. by intros [= <- <-].
Qed.

Lemma ntfy_rule_includes body :
  ntfy_rule body ↔
  includes body (lit "healthy") || negb (includes body (lit "failed")) = true.
Proof.
  unfold ntfy_rule.
  by rewrite orb_true_iff, negb_true_iff, includes_contains, includes_not_contains.
Qed.

(** C5, amended: whatever body the health request of the notification
    server returns, both routines report the service healthy (and running)
    exactly when the body contains [healthy] or does not contain [failed].
    The body [failed] maps to not healthy and the empty body to healthy. *)
Theorem ntfy_healthy_rule B config ports body :
  (∀ st, exec_reply E st (ntfy_health_command ports) = Ok body) →
  (∀ st s st',
     checkVPSServices E config ports st = (Ok s, st') →
     (healthy (Services.ntfy s) = true ↔ ntfy_rule body) ∧
     running (Services.ntfy s) = healthy (Services.ntfy s)) ∧
  (∀ st r st',
     deployToVPS E B config ports st = (Ok r, st') → success r = true →
     (healthy (Services.ntfy (services r)) = true ↔ ntfy_rule body) ∧
     running (Services.ntfy (services r)) = healthy (Services.ntfy (services r))) ∧
  (body = lit "failed" → ¬ ntfy_rule body) ∧
  (body = [] → ntfy_rule body).
Proof.
  intros Hbody. split; [|split; [|split]].
  - intros st s st' Hrun.
    apply checkVPSServices_probes in Hrun as (new & _ & Hres).
    destruct Hres as (fo & no & n8o & po & sn & _ & Hreply & ->).
    rewrite Hbody in Hreply. injection Hreply as <-. apply status_of_ntfy.
  - intros st r st' Hrun Hsuccess.
    apply deployToVPS_success in Hrun as (st1 & _ & _ & Hsteps); [|done].
    apply deploy_steps_probes in Hsteps as (new & fo & no & n8o & po & sn & _ & _ & Hreply & ->).
    rewrite Hbody in Hreply. injection Hreply as <-. apply status_of_ntfy.
  - intros ->. rewrite ntfy_rule_includes. by vm_compute.
  - intros ->. rewrite ntfy_rule_includes. by vm_compute.
Qed.

(** *** The prober and the health step of the deployment *)

(** The same command never got two different answers in the two runs. *)
Definition same_outputs (new1 new2 : list Event) : Prop :=
  ∀ command r1 r2, Exec command r1 ∈ new1 → Exec command r2 ∈ new2 → r1 = r2.

(** C7: when a deployment ran its health step and [checkVPSServices], on a
    session that opened, got the same output for every command the two
    runs share, it returns exactly the status record of the deployment. *)
Theorem check_agrees_with_deploy B config ports st r st' st2 res st2' :
  deployToVPS E B config ports st = (Ok r, st') →
  success r = true →
  checkVPSServices E config ports st2 = (res, st2') →
  connect_reply E st2 config = Ok tt →
  same_outputs (new_events st st') (new_events st2 st2') →
  res = Ok (services r).
Proof.
  intros Hdeploy Hsuccess Hcheck Hconnect Hsame.
  apply deployToVPS_success in Hdeploy as (st1 & new0 & Hnew0 & Hsteps); [|done].
  apply deploy_steps_probes in Hsteps
    as (new & fo & no & n8o & po & _ & Hnew & (Hf & Hn & H8 & Hp) & _ & ->).
  rewrite (new_events_app st st' (new0 ++ new)) in Hsame
    by (by rewrite Hnew, Hnew0, app_assoc).
  apply checkVPSServices_probes in Hcheck as (new2 & Hnew2 & Hres).
  rewrite (new_events_app st2 st2' new2) in Hsame by done.
  assert (Hagree : ∀ command out r2,
            Exec command (Ok out) ∈ new → Exec command r2 ∈ new2 → r2 = Ok out).
  { intros command out r2 H1 H2. symmetry. eapply Hsame; [|done].
    apply elem_of_app. by right. }
  destruct res as [s|msg].
  - destruct Hres as (fo' & no' & n8o' & po' & _ & (Hf' & Hn' & H8' & Hp') & _ & ->).
    apply (Hagree _ _ _ Hf) in Hf'. apply (Hagree _ _ _ Hn) in Hn'.
    apply (Hagree _ _ _ H8) in H8'. apply (Hagree _ _ _ Hp) in Hp'.
    by simplify_eq.
  - destruct Hres as [Hthrow|(command & Hcommand & Hthrow)]; [congruence|].
    rewrite !elem_of_cons, elem_of_nil in Hcommand.
    destruct Hcommand as [->|[->|[->|[->|[]]]]];
      [apply (Hagree _ _ _ Hf) in Hthrow | apply (Hagree _ _ _ Hn) in Hthrow
      |apply (Hagree _ _ _ H8) in Hthrow | apply (Hagree _ _ _ Hp) in Hthrow]; done.
Qed.

(** *** The secrets file

    A computation is [guarded] when, from a state in which the secrets file
    exists, no run of it uploads to the path of that file, and every run
    leaves the file as it was. *)
Definition untouched (e : Event) : Prop := ¬ writes_to env_path e.

Definition guarded {A} (m : M A) : Prop :=
  ∀ st,
    files st !! env_path = None ∨
    (files (m st).2 !! env_path = files st !! env_path ∧
     ∃ new, history (m st).2 = history st ++ new ∧ Forall untouched new).

Lemma guarded_plain {A} (f : State → A) (g : State → State) :
  (∀ st, files (g st) = files st) → (∀ st, history (g st) = history st) →
  guarded (λ st, (Ok (f st), g st)).
Proof.
  intros Hfiles Hhistory st. right. simpl. rewrite Hfiles, Hhistory.
  split; [done|]. exists []. by rewrite app_nil_r.
Qed.

Lemma guarded_ret {A} (a : A) : guarded (ret a).
Proof. by apply (guarded_plain (λ _, a) (λ st, st)). Qed.

Lemma guarded_logs_push text : guarded (logs_push text).
Proof. by apply (guarded_plain (λ _, tt)). Qed.

Lemma guarded_new_logs : guarded new_logs.
Proof. by apply (guarded_plain (λ _, tt)). Qed.

Lemma guarded_read_logs : guarded read_logs.
Proof. by apply (guarded_plain log_array (λ st, st)). Qed.

Lemma guarded_record {A} (reply : State → Reply A) (event : State → Event) :
  (∀ st, untouched (event st)) →
  guarded (λ st, (reply st, record (event st) st)).
Proof.
  intros Hevent st. right. simpl. split; [done|].
  exists [event st]. split; [done|]. by apply Forall_singleton.
Qed.

Lemma guarded_client_end : guarded client_end.
Proof. apply (guarded_record (λ _, Ok tt) (λ _, ClientEnd)). by intros _ []. Qed.

Lemma guarded_sleep ms : guarded (sleep ms).
Proof. apply (guarded_record (λ _, Ok tt) (λ _, Sleep ms)). by intros _ []. Qed.

Lemma guarded_execCommand command : guarded (execCommand E command).
Proof.
  apply (guarded_record (λ st, exec_reply E st command)
                        (λ st, Exec command (exec_reply E st command))).
  by intros _ [].
Qed.

Lemma guarded_connectSSH config : guarded (connectSSH E config).
Proof.
  apply (guarded_record (λ st, connect_reply E st config)
                        (λ st, Connect config (connect_reply E st config))).
  by intros _ [].
Qed.

(** An upload to another path, even a failed one, leaves the file alone. *)
Lemma guarded_uploadFile content path :
  path ≠ env_path → guarded (uploadFile E content path).
Proof.
  intros Hpath st. right. unfold uploadFile. simpl. split.
  - destruct (upload_reply E st path content); [by rewrite lookup_insert_ne|].
    destruct (upload_torn E st path content).
    + by rewrite lookup_insert_ne.
    + by rewrite lookup_delete_ne.
  - eexists. split; [done|]. apply Forall_singleton. by intros Hwrites.
Qed.

Lemma guarded_generateEnvFile : guarded (generateEnvFile E).
Proof.
  intros st. right. simpl. split; [done|]. exists []. by rewrite app_nil_r.
Qed.

(** A guarded run continued by a guarded run. *)
Lemma guarded_continue {A B} (m : M A) (next : Reply A → M B) :
  guarded m →
  (∀ st, files st !! env_path = None ∨
         (files (next (m st).1 (m st).2).2 !! env_path = files (m st).2 !! env_path ∧
          ∃ new, history (next (m st).1 (m st).2).2 = history (m st).2 ++ new ∧
                 Forall untouched new) ∨
         files (m st).2 !! env_path = None) →
  guarded (λ st, next (m st).1 (m st).2).
Proof.
  intros Hm Hnext st.
  destruct (Hm st) as [Habsent|(Hfiles1 & new1 & Hnew1 & Hres1)]; [by left|].
  destruct (Hnext st) as [Habsent|[(Hfiles2 & new2 & Hnew2 & Hres2)|Habsent]].
  - by left.
  - right. cbv beta. rewrite Hfiles2, Hfiles1. split; [done|].
    exists (new1 ++ new2). rewrite Hnew2, Hnew1, app_assoc. split; [done|].
    by apply Forall_app.
  - left. by rewrite <- Hfiles1.
Qed.

Lemma guarded_bind {A B} (m : M A) (k : A → M B) :
  guarded m → (∀ a, guarded (k a)) → guarded (bind m k).
Proof.
  intros Hm Hk.
  apply (guarded_continue m
           (λ r, match r with Ok a => k a | Throw msg => throw msg end)) in Hm.
  - intros st. specialize (Hm st). unfold bind. cbv beta in Hm.
    by destruct (m st) as [[a|msg] st1].
  - intros st. destruct (m st) as [[a|msg] st1]; simpl.
    + destruct (Hk a st1) as [Habsent|Hkept]; [by right; right | by right; left].
    + right. left. split; [done|]. exists []. by rewrite app_nil_r.
Qed.

Lemma guarded_try_catch {A} (body : M A) (handler : list N → M A) :
  guarded body → (∀ msg, guarded (handler msg)) → guarded (try_catch body handler).
Proof.
  intros Hbody Hhandler.
  apply (guarded_continue body
           (λ r, match r with Ok a => ret a | Throw msg => handler msg end)) in Hbody.
  - intros st. specialize (Hbody st). unfold try_catch. cbv beta in Hbody.
    by destruct (body st) as [[a|msg] st1].
  - intros st. destruct (body st) as [[a|msg] st1]; simpl.
    + right. left. split; [done|]. exists []. by rewrite app_nil_r.
    + destruct (Hhandler msg st1) as [Habsent|Hkept]; [by right; right | by right; left].
Qed.

(** The guard of [deployToVPS]: what follows the test of the secrets file
    need only be guarded when the test did not answer [missing]. *)
Lemma guarded_test {B'} (k : list N → M B') :
  truthful_test E →
  (∀ out, trim out ≠ lit "missing" → guarded (k out)) →
  guarded (bind (execCommand E test_env_command) k).
Proof.
  intros Htruthful Hk st.
  destruct (files st !! env_path) as [content|] eqn:Hfile; [|by left].
  right. unfold bind, execCommand. cbv zeta.
  destruct (exec_reply E st test_env_command) as [out|msg] eqn:Hreply.
  - assert (Hout : trim out ≠ lit "missing").
    { intros Hmissing. specialize (Htruthful st out Hreply Hmissing). congruence. }
    destruct (Hk out Hout (record (Exec test_env_command (Ok out)) st))
      as [Habsent|(Hfiles & new & Hnew & Hres)].
    + simpl in Habsent. congruence.
    + rewrite Hfiles. simpl. split; [done|].
      exists ([Exec test_env_command (Ok out)] ++ new).
      rewrite Hnew. simpl. rewrite <- app_assoc. split; [done|].
      apply Forall_cons. split; [by intros []|done].
  - simpl. split; [done|]. eexists. split; [done|].
    apply Forall_singleton. by intros [].
Qed.

Local Ltac other_path := apply (bool_decide_unpack _); by vm_compute.

Local Ltac guarded_steps :=
  repeat first
    [ apply guarded_test; [assumption | intros ? ?]
    | apply guarded_bind; [|intros ?]
    | apply guarded_try_catch; [|intros ?]
    | apply guarded_logs_push | apply guarded_new_logs | apply guarded_read_logs
    | apply guarded_execCommand | apply guarded_connectSSH
    | apply guarded_client_end | apply guarded_sleep | apply guarded_ret
    | apply guarded_generateEnvFile
    | apply guarded_uploadFile; other_path
    | by apply (guarded_plain _ (λ st, st))
    | case_decide; [done|] ].

Lemma guarded_deployToVPS B config ports :
  truthful_test E → guarded (deployToVPS E B config ports).
Proof.
  intros Htruthful. unfold deployToVPS, deploy_steps, deploy_failed. guarded_steps.
Qed.

(** C4: provided the remote shell answers the existence test truthfully,
    a deployment uploads to the path of the secrets file only if the file
    did not exist when the deployment began; and when it existed, no
    operation of the deployment writes to it and its content after the
    deployment is its content before. *)
Theorem secrets_file_never_overwritten B config ports st res st' :
  truthful_test E →
  deployToVPS E B config ports st = (res, st') →
  (∀ e, e ∈ new_events st st' → writes_to env_path e →
        files st !! env_path = None) ∧
  (∀ content, files st !! env_path = Some content →
              files st' !! env_path = Some content ∧
              Forall untouched (new_events st st')).
Proof.
  intros Htruthful Hrun.
  destruct (guarded_deployToVPS B config ports Htruthful st)
    as [Habsent|(Hfiles & new & Hnew & Hres)].
  - split; [done|]. intros content Hfile. congruence.
  - rewrite Hrun in Hfiles, Hnew. simpl in Hfiles, Hnew.
    rewrite (new_events_app st st' new) by done. split.
    + intros e Hin Hwrites. rewrite Forall_forall in Hres. by apply Hres in Hin.
    + intros content Hfile. by rewrite Hfiles.
Qed.

End Runs.

(** ** Runs on concrete hosts *)

Section Hosts.

(** A host that accepts the connection and every upload, answers the test
    of the secrets file from its files, fails the commands [broken] picks
    and prints [health] for every other command. *)
Definition host_env (health : list N) (broken : list N → bool) : Env :=
  {| connect_reply := λ _ _, Ok tt;
     exec_reply := λ st command,
       if broken command then Throw (lit "Channel open failure")
       else if bool_decide (command = test_env_command) then
         match files st !! env_path with
         | Some _ => Ok (lit "exists" ++ [10%N])
         | None => Ok (lit "missing" ++ [10%N])
         end
       else Ok health;
     upload_reply := λ _ _ _, Ok tt;
     upload_torn := λ _ _ _, None;
     nanoid := λ st i size,
       lit "token-" ++ toString (Z.of_nat (length (history st))) ++
       lit "-" ++ toString (Z.of_nat i);
     toISOString := λ _, lit "2024-01-01T00:00:00.000Z" |}.

(** A host that prints [body] for every command. *)
Definition answering (body : list N) : Env :=
  {| connect_reply := λ _ _, Ok tt;
     exec_reply := λ _ _, Ok body;
     upload_reply := λ _ _ _, Ok tt;
     upload_torn := λ _ _ _, None;
     nanoid := λ _ _ _, lit "token";
     toISOString := λ _, lit "2024-01-01T00:00:00.000Z" |}.

Definition sample_bundle : Bundle :=
  {| generateDockerCompose := λ ports, lit "services: " ++ toString (Ports.n8n ports);
     generateFetcherDockerfile := lit "FROM mcr.microsoft.com/playwright:v1.40.0-focal";
     generateFetcherPackageJson := lit "{}";
     generateFetcherService := lit "const express = require('express');";
     generateReadme := λ _ ports, lit "# LivingRental Alert " ++ toString (Ports.n8n ports) |}.

Definition sample_config : SSHConfig :=
  {| host := lit "203.0.113.7"; username := lit "root"; privateKey := lit "key" |}.

Definition default_ports : Ports.t := Ports.mk 5432 5678 8080 3001.

Definition fresh : State := {| files := ∅; history := []; log_array := [] |}.

Definition never (command : list N) : bool := false.

Definition compose_up (command : list N) : bool :=
  bool_decide (command = lit "cd /opt/rentalmonitor && docker compose up -d --build 2>&1").

(** The result of a run that returned. *)
Definition returned {A} (default : A) (res : Reply A) : A :=
  match res with Ok a => a | Throw _ => default end.

Definition no_result : DeployResult :=
  {| success := false; message := []; logs := []; services := all_down |}.

Local Ltac found :=
  repeat first [apply list_elem_of_here | apply list_elem_of_further].

Lemma returned_run {A} (run : Reply A * State) a :
  run.1 = Ok a → run = (Ok a, run.2).
Proof. destruct run as [res st]. simpl. by intros ->. Qed.

(** *** A deployment that fails when the stack is started *)

Definition failing_host : Env := host_env (lit "ok") compose_up.

Local Abbreviation failed_run :=
  (deployToVPS failing_host sample_bundle sample_config default_ports fresh).


(** *** A deployment on a host where every probe prints [failed] *)

Definition unhealthy_host : Env := host_env (lit "failed" ++ [10%N]) never.

Local Abbreviation unhealthy_run :=
  (deployToVPS unhealthy_host sample_bundle sample_config default_ports fresh).

(** C10 on [unhealthy_host]: no operation fails, no service is reported
    running or healthy, and the deployment reports success. *)
Lemma deploy_success_without_exception_witness :
  Forall succeeded (new_events fresh unhealthy_run.2) ∧
  ∃ r, unhealthy_run.1 = Ok r ∧
       success r = true ∧
       message r = lit "Deployment completed successfully" ∧
       map (λ s, (running s, healthy s))
           [Services.postgres (services r); Services.n8n (services r);
            Services.ntfy (services r); Services.fetcher (services r)]
       = [(false, false); (false, false); (false, false); (false, false)].
Proof.
  assert (Hall : Forall succeeded (new_events fresh unhealthy_run.2)).
  { vm_compute. repeat constructor. }
  split; [exact Hall|].
  destruct (deploy_success_without_exception unhealthy_host sample_bundle
              sample_config default_ports fresh unhealthy_run.1 unhealthy_run.2)
    as (r & Hreturned & Hsuccess & Hmessage).
  - apply surjective_pairing.
  - exact Hall.
  - exists r. split; [exact Hreturned|]. split; [exact Hsuccess|].
    split; [exact Hmessage|].
    assert (Hr : r = returned no_result unhealthy_run.1) by by rewrite Hreturned.
    rewrite Hr. vm_compute; reflexivity.
Defined.

(** *** Two deployments in a row *)

Definition healthy_host : Env := host_env (lit "ok") never.

Lemma healthy_host_truthful : truthful_test healthy_host.
Proof.
  intros st out. unfold healthy_host, host_env, never. cbn [exec_reply].
  rewrite bool_decide_eq_true_2 by done.
  destruct (files st !! env_path); [|done].
  intros [= <-] Hmissing. vm_compute in Hmissing. discriminate Hmissing.
Qed.

Local Abbreviation first_run :=
  (deployToVPS healthy_host sample_bundle sample_config default_ports fresh).

Local Abbreviation second_run :=
  (deployToVPS healthy_host sample_bundle sample_config default_ports first_run.2).

(** C4 on [healthy_host]: the first deployment creates the secrets file,
    the second one leaves it as the first one made it. *)
Lemma secrets_file_never_overwritten_witness :
  fresh.(files) !! env_path = None ∧
  is_Some (first_run.2.(files) !! env_path) ∧
  second_run.2.(files) !! env_path = first_run.2.(files) !! env_path ∧
  Forall untouched (new_events first_run.2 second_run.2).
Proof.
  split; [reflexivity|].
  assert (Hcreated : is_Some (first_run.2.(files) !! env_path)).
  { vm_compute. eexists. reflexivity. }
  split; [exact Hcreated|]. destruct Hcreated as [content Hcontent].
  destruct (secrets_file_never_overwritten healthy_host sample_bundle
              sample_config default_ports first_run.2 second_run.1 second_run.2
              healthy_host_truthful) as [_ Hkept].
  - apply surjective_pairing.
  - destruct (Hkept content Hcontent) as [Hsame Hnone].
    split; [by rewrite Hsame, Hcontent | exact Hnone].
Defined.

(** *** The notification-server heuristic on concrete bodies *)

(** C5, as stated, fails: a body that has both words is reported healthy
    although it contains [failed]. *)
Lemma ntfy_healthy_iff_not_failed_counterexample :
  ¬ (∀ E config ports body,
       (∀ st, exec_reply E st (ntfy_health_command ports) = Ok body) →
       ∀ st s st',
         checkVPSServices E config ports st = (Ok s, st') →
         (healthy (Services.ntfy s) = true ↔ ¬ contains body (lit "failed"))).
Proof.
  intros Hclaim.
  set (body := lit "unhealthy: last check failed").
  set (run := checkVPSServices (answering body) sample_config default_ports fresh).
  assert (Hreturned : run.1 = Ok (returned all_down run.1)) by (vm_compute; reflexivity).
  apply returned_run in Hreturned.
  apply (Hclaim (answering body) sample_config default_ports body) in Hreturned; [|done].
  destruct Hreturned as [Hhealthy _].
  apply Hhealthy; [vm_compute; reflexivity|].
  apply includes_contains. vm_compute; reflexivity.
Qed.

(** C5 on a host that prints [failed] for the health request. *)
Lemma ntfy_healthy_rule_witness :
  ∃ s, (checkVPSServices (answering (lit "failed")) sample_config default_ports fresh).1 = Ok s ∧
       healthy (Services.ntfy s) = false ∧
       ¬ ntfy_rule (lit "failed").
Proof.
  pose (run := checkVPSServices (answering (lit "failed")) sample_config default_ports fresh).
  destruct (ntfy_healthy_rule (answering (lit "failed")) sample_bundle sample_config
              default_ports (lit "failed")) as (Hcheck & _ & Hfailed & _).
  - intros st. reflexivity.
  - exists (returned all_down run.1).
    assert (Hreturned : run.1 = Ok (returned all_down run.1)) by (vm_compute; reflexivity).
    split; [exact Hreturned|]. split; [vm_compute; reflexivity|].
    by apply Hfailed.
Defined.

(** *** The prober after a deployment *)

Definition steady_host : Env := answering (lit "ok").

Local Abbreviation deploy_run :=
  (deployToVPS steady_host sample_bundle sample_config default_ports fresh).

Local Abbreviation check_run :=
  (checkVPSServices steady_host sample_config default_ports deploy_run.2).

(** Every command of a history was answered by [body]. *)
Definition answered (body : list N) (e : Event) : Prop :=
  match e with
  | Exec _ r => r = Ok body
  | _ => True
  end.

Lemma same_outputs_answered body new1 new2 :
  Forall (answered body) new1 → Forall (answered body) new2 → same_outputs new1 new2.
Proof.
  rewrite !Forall_forall. intros H1 H2 command r1 r2 Hin1 Hin2.
  apply H1 in Hin1. apply H2 in Hin2. simpl in *. congruence.
Qed.

(** C7 on [steady_host]: the prober, run after the deployment, returns
    the status record the deployment returned. *)
Lemma check_agrees_with_deploy_witness :
  ∃ r, deploy_run.1 = Ok r ∧ success r = true ∧ check_run.1 = Ok (services r).
Proof.
  set (r := returned no_result deploy_run.1).
  assert (Hreturned : deploy_run.1 = Ok r) by (vm_compute; reflexivity).
  exists r. split; [exact Hreturned|]. split; [vm_compute; reflexivity|].
  apply (check_agrees_with_deploy steady_host sample_bundle sample_config default_ports
           fresh r deploy_run.2 deploy_run.2 check_run.1 check_run.2).
  - by apply returned_run.
  - vm_compute; reflexivity.
  - apply surjective_pairing.
  - reflexivity.
  - apply (same_outputs_answered (lit "ok")); vm_compute; repeat constructor.
Defined.

End Hosts.

(** * More of the planner: what the parser keeps of a line *)

Section Trimming.

Implicit Types (s t : list N) (c : N).

(** No white space at either end. *)
Definition tight (s : list N) : Prop :=
  (∀ c t, s = c :: t → is_space c = false) ∧
  (∀ c t, s = t ++ [c] → is_space c = false).

Definition blank (s : list N) : Prop := Forall (λ c, is_space c = true) s.

Lemma trimStart_split s :
  ∃ spaces, s = spaces ++ trimStart s ∧ blank spaces ∧
            ∀ c t, trimStart s = c :: t → is_space c = false.
Proof.
  induction s as [|c s (spaces & Hs & Hblank & Hhead)]; simpl.
  - exists []. split; [done|]. split; [by apply Forall_nil|done].
  - destruct (is_space c) eqn:Hc.
    + exists (c :: spaces). split; [by rewrite Hs at 1|].
      split; [by apply Forall_cons|done].
    + exists []. split; [done|]. split; [by apply Forall_nil|].
      by intros c' t [= <- _].
Qed.

Lemma trimEnd_split s :
  ∃ spaces, s = trimEnd s ++ spaces ∧ blank spaces ∧
            ∀ c t, trimEnd s = t ++ [c] → is_space c = false.
Proof.
  unfold trimEnd. destruct (trimStart_split (rev s)) as (spaces & Hs & Hblank & Hhead).
  exists (rev spaces). split; [|split].
  - rewrite <- rev_app_distr, <- Hs. by rewrite rev_involutive.
  - by apply Forall_rev.
  - intros c t Ht. apply (Hhead c (rev t)).
    rewrite <- (rev_involutive (trimStart (rev s))), Ht, rev_app_distr. done.
Qed.

(** [trim] cuts white space off both ends and nothing else. *)
Lemma trim_split s :
  ∃ before after, s = before ++ trim s ++ after ∧ blank before ∧ blank after ∧
                  tight (trim s).
Proof.
  unfold trim.
  destruct (trimStart_split s) as (before & Hs & Hbefore & Hhead).
  destruct (trimEnd_split (trimStart s)) as (after & Ht & Hafter & Hlast).
  exists before, after. split; [by rewrite <- Ht|]. split; [done|]. split; [done|].
  split; [|done].
  intros c t Hc. apply (Hhead c (t ++ after)). by rewrite Ht, Hc.
Qed.

Lemma trimStart_tight s :
  (∀ c t, s = c :: t → is_space c = false) → trimStart s = s.
Proof.
  destruct s as [|c s]; [done|]. intros Hhead. simpl.
  by rewrite (Hhead c s).
Qed.

Lemma trim_tight s : tight s → trim s = s.
Proof.
  intros [Hhead Hlast]. unfold trim, trimEnd. rewrite (trimStart_tight s) by done.
  rewrite trimStart_tight; [apply rev_involutive|].
  intros c t Hrev. apply (Hlast c (rev t)).
  by rewrite <- (rev_involutive s), Hrev.
Qed.

Lemma trimStart_blank s : blank s → trimStart s = [].
Proof.
  induction 1 as [|c s Hc _ IH]; [done|]. simpl. by rewrite Hc.
Qed.

Lemma trim_blank s : trim s = [] ↔ blank s.
Proof.
  split.
  - intros Hs. destruct (trim_split s) as (before & after & Heq & Hb & Ha & _).
    rewrite Hs in Heq. rewrite Heq. by apply Forall_app.
  - intros Hs. unfold trim. by rewrite trimStart_blank.
Qed.

(** The pieces of a string that does not end in white space: none but the
    first can be empty, and the first is empty only before white space. *)
Lemma split_spaces_pieces s :
  (∀ c t, s = t ++ [c] → is_space c = false) →
  ∃ first rest,
    split_spaces s = first :: rest ∧
    Forall (λ piece, piece ≠ []) rest ∧
    (∀ c t, s = c :: t → is_space c = false → first ≠ []).
Proof.
  induction s as [|c s IH]; intros Hlast.
  - exists [], []. split; [done|]. split; [by apply Forall_nil|done].
  - assert (Hlast' : ∀ c' t, s = t ++ [c'] → is_space c' = false).
    { intros c' t ->. by apply (Hlast c' (c :: t)). }
    destruct (IH Hlast') as (first & rest & Hsplit & Hrest & Hfirst).
    cbn [split_spaces]. destruct (is_space c) eqn:Hc.
    + destruct s as [|c' s'].
      * rewrite (Hlast c []) in Hc; done.
      * destruct (is_space c') eqn:Hc'.
        -- exists first, rest. split; [done|]. split; [done|].
           intros c0 t [= <- _] Hc0. congruence.
        -- exists [], (first :: rest). rewrite Hsplit. split; [done|].
           split; [|intros c0 t [= <- _] Hc0; congruence].
           apply Forall_cons. split; [|done]. by apply (Hfirst c' s').
    + rewrite Hsplit. exists (c :: first), rest. split; [done|]. split; [done|]. done.
Qed.

(** The fields of a line: one empty field for a blank line, otherwise no
    empty field at all. *)
Lemma fields_nonempty line :
  fields line = [[]] ∨ Forall (λ piece, piece ≠ []) (fields line).
Proof.
  unfold fields.
  destruct (trim_split line) as (_ & _ & _ & _ & _ & Hhead & Hlast).
  destruct (split_spaces_pieces (trim line) Hlast) as (first & rest & Hsplit & Hrest & Hfirst).
  destruct (trim line) as [|c t] eqn:Htrim; [by left|].
  right. rewrite Hsplit. apply Forall_cons. split; [|done].
  apply (Hfirst c t); [done|]. by apply (Hhead c t).
Qed.

End Trimming.

Section ParsedLines.

Implicit Types (raw line addr digits : list N).

Lemma match_port_Some addr digits :
  match_port addr = Some digits → ends_in_port addr digits.
Proof.
  induction addr as [|c rest IH]; [done|]. simpl.
  destruct ((c =? 58)%N && truthy rest && forallb is_digit rest) eqn:Hhere.
  - intros [= <-]. apply andb_true_iff in Hhere as [Hhere Hdigits].
    apply andb_true_iff in Hhere as [Hcolon Hrest].
    apply N.eqb_eq in Hcolon as ->. exists []. split; [done|].
    split; [by destruct rest|].
    apply Forall_forall. intros d Hd.
    rewrite forallb_forall in Hdigits. by apply Hdigits, list_elem_of_In.
  - intros Hrest. destruct (IH Hrest) as (before & -> & Hne & Hdigits).
    by exists (c :: before).
Qed.

Lemma match_port_None addr :
  match_port addr = None → ∀ digits, ¬ ends_in_port addr digits.
Proof.
  intros Hnone digits (before & -> & Hne & Hdigits).
  by rewrite match_port_suffix in Hnone.
Qed.

(** The entry a line gives when its fourth field ends in a port. *)
Definition entry_of (line digits : list N) : PortEntry :=
  {| port := parseInt digits;
     protocol := default [] (head (fields line));
     process := default [] (last (fields line));
     state := lit "LISTEN" |}.

Lemma or_text_nonempty (piece text : list N) :
  piece ≠ [] → or_text (Some piece) text = piece.
Proof. by destruct piece. Qed.

Lemma fields_first line :
  (4 <= length (fields line))%nat →
  ∃ first, head (fields line) = Some first ∧ first ≠ [] ∧
           or_text (fields line !! 0%nat) (lit "tcp") = first.
Proof.
  intros Hlen. destruct (fields_nonempty line) as [Hblank|Hpieces];
    [rewrite Hblank in Hlen; simpl in Hlen; lia|].
  destruct (fields line) as [|first rest]; [simpl in Hlen; lia|].
  apply Forall_cons in Hpieces as [Hfirst _]. exists first.
  split; [done|]. split; [done|]. by apply or_text_nonempty.
Qed.

Lemma fields_last line :
  (4 <= length (fields line))%nat →
  ∃ final, last (fields line) = Some final ∧ final ≠ [] ∧
           or_text (fields line !! (length (fields line) - 1)%nat) (lit "unknown") = final.
Proof.
  intros Hlen. destruct (fields_nonempty line) as [Hblank|Hpieces];
    [rewrite Hblank in Hlen; simpl in Hlen; lia|].
  destruct (last (fields line)) as [final|] eqn:Hlast.
  - exists final. split; [done|].
    rewrite last_lookup in Hlast.
    replace (Nat.pred (length (fields line))) with (length (fields line) - 1)%nat in Hlast by lia.
    assert (Hfinal : final ≠ []).
    { rewrite Forall_lookup in Hpieces. by eapply Hpieces. }
    split; [done|]. rewrite Hlast. by apply or_text_nonempty.
  - apply last_None in Hlast. rewrite Hlast in Hlen. simpl in Hlen. lia.
Qed.

(** The two outcomes of a line. *)
Lemma line_entries_cases line :
  (∃ addr digits,
     fields line !! 3%nat = Some addr ∧ ends_in_port addr digits ∧
     line_entries line = [entry_of line digits]) ∨
  ((∀ addr digits, fields line !! 3%nat = Some addr → ¬ ends_in_port addr digits) ∧
   line_entries line = []).
Proof.
  unfold line_entries, parse_line. fold (fields line).
  destruct (Nat.leb_spec 4 (length (fields line))) as [Hlen|Hlen].
  2: { right. split; [|done]. intros addr digits Haddr.
       apply lookup_lt_Some in Haddr. lia. }
  destruct (fields_first line Hlen) as (first & Hhead & _ & ->).
  destruct (fields_last line Hlen) as (final & Hlast & _ & ->).
  destruct (lookup_lt_is_Some_2 (fields line) 3) as [addr Haddr]; [lia|].
  assert (Haddr_ne : addr ≠ []).
  { destruct (fields_nonempty line) as [Hblank|Hpieces];
      [rewrite Hblank in Hlen; simpl in Hlen; lia|].
    rewrite Forall_lookup in Hpieces. by apply (Hpieces 3%nat). }
  rewrite Haddr. cbn [or_else].
  assert (Htruthy : truthy addr = true) by by destruct addr.
  rewrite Htruthy, Htruthy.
  destruct (match_port addr) as [digits|] eqn:Hmatch.
  - left. exists addr, digits. split; [done|]. split; [by apply match_port_Some|].
    unfold entry_of. by rewrite Hhead, Hlast.
  - right. split; [|done]. intros addr' digits [= <-]. by apply match_port_None.
Qed.

(** X1: whether a line of the port table gives an entry is decided by its
    fourth field alone: the line gives exactly one entry when that field
    ends in a colon and digits, and none when the field is missing or has
    another shape.  The fifth field is never read, and the protocol and the
    process of the entry are the first and the last field of the line,
    never the defaults ["tcp"] and ["unknown"]. *)
Theorem line_entries_by_fourth_field line :
  (∃ addr digits,
     fields line !! 3%nat = Some addr ∧ ends_in_port addr digits ∧
     line_entries line = [entry_of line digits]) ∨
  ((∀ addr digits, fields line !! 3%nat = Some addr → ¬ ends_in_port addr digits) ∧
   line_entries line = []).
Proof. apply line_entries_cases. Qed.

Lemma digits_value_nonneg digits :
  Forall (λ c, is_digit c = true) digits → 0 <= digits_value digits.
Proof.
  assert (Hacc : ∀ ds acc, 0 <= acc →
            Forall (λ c, is_digit c = true) ds →
            0 <= fold_left (λ acc c, 10 * acc + (Z.of_N c - 48)) ds acc).
  { induction ds as [|c ds IH]; intros acc Hacc Hdigits; [done|].
    apply Forall_cons in Hdigits as [Hc Hdigits]. simpl. apply IH; [|done].
    unfold is_digit in Hc. apply andb_true_iff in Hc as [Hc _].
    apply N.leb_le in Hc. lia. }
  intros Hdigits. by apply Hacc.
Qed.

(** Up to 2^53 the Number value is the integer. *)
Lemma Number_value_exact v : v <= 2 ^ 53 → Number_value v = v.
Proof. intros Hv. unfold Number_value. by rewrite (proj2 (Z.leb_le _ _) Hv). Qed.

(** Above 2^53 it is [Infinity], or positive and away from the integer by
    no more than one part in 2^53 of it. *)
Lemma Number_value_near v :
  2 ^ 53 < v →
  Number_value v = Infinity ∨
  (0 < Number_value v ∧ Z.abs (Number_value v - v) * 2 ^ 53 <= v).
Proof.
  intros Hv. unfold Number_value.
  destruct (Z.leb_spec v (2 ^ 53)) as [|_]; [lia|]. cbv zeta.
  assert (Hpos : 0 < v) by lia.
  pose proof (Z.log2_spec v Hpos) as [Hlow Hhigh].
  assert (Hlog : 53 <= Z.log2 v) by (apply Z.log2_le_pow2; lia).
  set (e := Z.log2 v - 52) in *.
  assert (Hpow : 2 ^ Z.log2 v = 2 ^ 53 * 2 ^ (e - 1)).
  { rewrite <- Z.pow_add_r by lia. f_equal. lia. }
  assert (Htwice : 2 ^ e = 2 * 2 ^ (e - 1)).
  { rewrite <- (Z.pow_succ_r 2 (e - 1)) by lia. f_equal. lia. }
  assert (Hhalf : 0 < 2 ^ (e - 1)) by (apply Z.pow_pos_nonneg; lia).
  pose proof (Z.div_mod v (2 ^ e) ltac:(lia)) as Hdiv.
  pose proof (Z.mod_pos_bound v (2 ^ e) ltac:(lia)) as Hmod.
  set (q := v / 2 ^ e) in *. set (r := v mod 2 ^ e) in *.
  set (half := 2 ^ (e - 1)) in *.
  assert (Hq : 0 < q) by nia.
  destruct (_ || _) eqn:Hup.
  - destruct (Z.ltb_spec ((q + 1) * 2 ^ e) (2 ^ 1024)); [|by left]. right.
    assert (half <= r).
    { apply orb_true_iff in Hup as [Hup|Hup].
      - apply Z.ltb_lt in Hup. lia.
      - apply andb_true_iff in Hup as [Hup _]. apply Z.eqb_eq in Hup. lia. }
    split; [nia|]. rewrite Z.abs_eq by nia. nia.
  - destruct (Z.ltb_spec (q * 2 ^ e) (2 ^ 1024)); [|by left]. right.
    assert (r <= half).
    { apply orb_false_iff in Hup as [Hup _]. apply Z.ltb_ge in Hup. lia. }
    split; [nia|]. rewrite Z.abs_neq by nia. nia.
Qed.

(** Above 2^53 the value is cut into 53 leading bits [q] and the rest [r],
    and rounded on [r]. *)
Lemma Number_value_parts v :
  2 ^ 53 < v →
  ∃ e q r,
    1 <= e ∧ e = Z.log2 v - 52 ∧ v = q * 2 ^ e + r ∧ 0 <= r < 2 ^ e ∧
    2 ^ 52 <= q < 2 ^ 53 ∧
    Number_value v =
      let q' := if (2 ^ (e - 1) <? r) || ((r =? 2 ^ (e - 1)) && Z.odd q) then q + 1 else q in
      if q' * 2 ^ e <? 2 ^ 1024 then q' * 2 ^ e else Infinity.
Proof.
  intros Hv. unfold Number_value.
  destruct (Z.leb_spec v (2 ^ 53)) as [|_]; [lia|]. cbv zeta.
  assert (Hpos : 0 < v) by lia.
  pose proof (Z.log2_spec v Hpos) as [Hlow Hhigh].
  assert (Hlog : 53 <= Z.log2 v) by (apply Z.log2_le_pow2; lia).
  exists (Z.log2 v - 52), (v / 2 ^ (Z.log2 v - 52)), (v mod 2 ^ (Z.log2 v - 52)).
  set (e := Z.log2 v - 52) in *.
  assert (He : 0 < 2 ^ e) by (apply Z.pow_pos_nonneg; lia).
  assert (Hpow : 2 ^ Z.log2 v = 2 ^ 52 * 2 ^ e).
  { rewrite <- Z.pow_add_r by lia. f_equal. lia. }
  assert (Hpow' : 2 ^ Z.succ (Z.log2 v) = 2 ^ 53 * 2 ^ e).
  { rewrite <- Z.pow_add_r by lia. f_equal. lia. }
  pose proof (Z.div_mod v (2 ^ e) ltac:(lia)) as Hdiv.
  pose proof (Z.mod_pos_bound v (2 ^ e) ltac:(lia)) as Hmod.
  split; [lia|]. split; [done|]. split; [lia|]. split; [done|].
  split; [|done]. nia.
Qed.

(** The value is [Infinity] exactly from 2^1024 - 2^970 on: half a last
    place above the largest double. *)
Lemma Number_value_Infinity v :
  Number_value v = Infinity ↔ 2 ^ 1024 - 2 ^ 970 <= v.
Proof.
  destruct (Z.le_gt_cases v (2 ^ 53)) as [Hsmall|Hlarge].
  { unfold Number_value. rewrite (proj2 (Z.leb_le _ _) Hsmall).
    unfold Infinity.
    assert (2 ^ 53 < 2 ^ 1024 - 2 ^ 970) by done. lia. }
  destruct (Number_value_parts v Hlarge) as (e & q & r & He & _ & Hv & Hr & Hq & ->).
  cbv zeta. unfold Infinity.
  assert (Htwice : 2 ^ e = 2 * 2 ^ (e - 1)).
  { rewrite <- (Z.pow_succ_r 2 (e - 1)) by lia. f_equal. lia. }
  assert (Hhalf : 0 < 2 ^ (e - 1)) by (apply Z.pow_pos_nonneg; lia).
  set (half := 2 ^ (e - 1)) in *.
  set (q' := if (half <? r) || ((r =? half) && Z.odd q) then q + 1 else q).
  assert (Hup : (q' = q + 1 ∧ (half < r ∨ r = half ∧ Z.odd q = true)) ∨
                (q' = q ∧ (r < half ∨ r = half ∧ Z.odd q = false))).
  { subst q'. destruct (Z.ltb_spec half r), (Z.eqb_spec r half), (Z.odd q) eqn:Hodd;
      simpl; try lia; first [left; split; [done|]; lia | right; split; [done|]; lia]. }
  clearbody q'.
  assert (Htop : 2 ^ 1024 = 2 ^ 53 * 2 ^ 971) by done.
  assert (Hlast : 2 ^ 971 = 2 * 2 ^ 970) by done.
  assert (Hunit : 0 < 2 ^ 970) by done.
  destruct (Z.lt_trichotomy e 971) as [Hlt|[Heq|Hgt]].
  - assert (Hsmall : 2 ^ e <= 2 ^ 970) by (apply Z.pow_le_mono_r; lia).
    set (place := 2 ^ e) in *. set (unit := 2 ^ 970) in *.
    set (last := 2 ^ 971) in *. set (top := 2 ^ 1024) in *.
    clearbody place unit last top half.
    assert (Hq' : q' <= 2 ^ 53) by lia.
    assert (Hfin : q' * place <= 2 ^ 53 * unit).
    { apply Z.mul_le_mono_nonneg; lia. }
    assert (Hbelow : v < 2 ^ 53 * unit).
    { assert ((q + 1) * place <= 2 ^ 53 * unit) by (apply Z.mul_le_mono_nonneg; lia).
      lia. }
    clear Hup. destruct (Z.ltb_spec (q' * place) top); [split; lia | lia].
  - subst e. change (2 ^ (971 - 1)) with (2 ^ 970) in half.
    subst half.
    set (unit := 2 ^ 970) in *. set (last := 2 ^ 971) in *. set (top := 2 ^ 1024) in *.
    clearbody unit last top.
    destruct (Z.eq_dec q (2 ^ 53 - 1)) as [->|Hless].
    + assert (Hodd : Z.odd (2 ^ 53 - 1) = true) by done.
      destruct Hup as [[-> Hr']|[-> Hr']].
      * destruct (Z.ltb_spec ((2 ^ 53 - 1 + 1) * last) top); [lia|].
        split; [intros _|done]. destruct Hr' as [?|[? _]]; lia.
      * destruct (Z.ltb_spec ((2 ^ 53 - 1) * last) top); [|lia].
        split; [lia|]. intros Hbig. destruct Hr' as [?|[_ ?]]; [lia|congruence].
    + assert (Hq' : q' <= 2 ^ 53 - 1) by lia.
      assert (Hfin : q' * last <= (2 ^ 53 - 1) * last).
      { apply Z.mul_le_mono_nonneg_r; lia. }
      assert (Hbelow : (q + 1) * last <= (2 ^ 53 - 1) * last).
      { apply Z.mul_le_mono_nonneg_r; lia. }
      clear Hup. destruct (Z.ltb_spec (q' * last) top); [split; lia | lia].
  - assert (Hbig : 2 ^ 972 <= 2 ^ e) by (apply Z.pow_le_mono_r; lia).
    assert (Hnext : 2 ^ 972 = 2 * 2 ^ 971) by done.
    set (place := 2 ^ e) in *. set (unit := 2 ^ 970) in *.
    set (last := 2 ^ 971) in *. set (top := 2 ^ 1024) in *.
    set (next := 2 ^ 972) in *.
    clearbody place unit last top next half.
    assert (Hinf : 2 ^ 52 * next <= q * place).
    { apply Z.mul_le_mono_nonneg; lia. }
    assert (Hinf' : q * place <= q' * place).
    { apply Z.mul_le_mono_nonneg_r; lia. }
    clear Hup. destruct (Z.ltb_spec (q' * place) top); [lia|].
    split; [intros _; lia | done].
Qed.

Lemma Number_value_nonneg v : 0 <= v → 0 <= Number_value v.
Proof.
  intros Hv. destruct (Z.le_gt_cases v (2 ^ 53)) as [Hsmall|Hlarge].
  - by rewrite Number_value_exact.
  - destruct (Number_value_near v Hlarge) as [->|[? _]]; [done | lia].
Qed.

Lemma parseInt_nonneg digits :
  Forall (λ c, is_digit c = true) digits → 0 <= parseInt digits.
Proof. intros Hdigits. by apply Number_value_nonneg, digits_value_nonneg. Qed.

(** What [parseInt] reads off a port, off the first integer that is not a
    double, off the two integers about the next one that is, off the
    largest double and off 400 nines. *)
Lemma parseInt_doubles :
  parseInt (lit "5432") = 5432 ∧
  parseInt (lit "9007199254740993") = 9007199254740992 ∧
  parseInt (lit "9007199254740995") = 9007199254740996 ∧
  parseInt (lit "9007199254740997") = 9007199254740996 ∧
  parseInt (lit "179769313486231570814527423731704356798070567525844996598917476803157260780028538760589558632766878171540458953514382464234321326889464182768467546703537516986049910576551282076245490090389328944075868508455133942304583236903222948165808559332123348274797826204144723168738177180919299881250404026184124858368")
    = 2 ^ 1024 - 2 ^ 971 ∧
  parseInt (repeat 57%N 400) = Infinity.
Proof. by vm_compute. Qed.

(** X2: every entry the parser returns comes from a line after the header
    whose fourth field ends in a colon and digits.  Its port is what
    [parseInt] makes of those digits, a Number that is not negative: the
    integer the digits spell when that is at most 2^53, as it is for every
    port a host can have; above that, a double away from the integer by no
    more than one part in 2^53 of it; and [Infinity] when the digits spell
    2^1024 - 2^970 or more.  Its state is ["LISTEN"], and its protocol and
    process are the first and last field of that line, neither of them
    empty. *)
Theorem parsed_entry_origin raw entry :
  entry ∈ parseListeningPorts raw →
  ∃ line addr digits,
    line ∈ drop 1 (split 10 (trim raw)) ∧
    fields line !! 3%nat = Some addr ∧ ends_in_port addr digits ∧
    port entry = parseInt digits ∧ 0 <= port entry ∧
    (digits_value digits <= 2 ^ 53 → port entry = digits_value digits) ∧
    (2 ^ 53 < digits_value digits < 2 ^ 1024 - 2 ^ 970 →
     Z.abs (port entry - digits_value digits) * 2 ^ 53 <= digits_value digits) ∧
    (2 ^ 1024 - 2 ^ 970 <= digits_value digits → port entry = Infinity) ∧
    state entry = lit "LISTEN" ∧
    head (fields line) = Some (protocol entry) ∧ protocol entry ≠ [] ∧
    last (fields line) = Some (process entry) ∧ process entry ≠ [].
Proof.
  unfold parseListeningPorts. rewrite parse_loop. simpl.
  intros Hin. apply list_elem_of_In, in_flat_map in Hin as (line & Hline & Hentry).
  exists line.
  destruct (line_entries_cases line) as [(addr & digits & Haddr & Hport & Hone)|[_ Hnone]];
    [|by rewrite Hnone in Hentry].
  rewrite Hone in Hentry. destruct Hentry as [<-|[]].
  exists addr, digits. split; [by apply list_elem_of_In|]. split; [done|]. split; [done|].
  assert (Hlen : (4 <= length (fields line))%nat).
  { apply lookup_lt_Some in Haddr. lia. }
  destruct (fields_first line Hlen) as (first & Hhead & Hfirst & _).
  destruct (fields_last line Hlen) as (final & Hlast & Hfinal & _).
  split; [done|]. split.
  { simpl. apply parseInt_nonneg. by destruct Hport as (_ & _ & _ & Hdigits). }
  split; [intros Hsmall; simpl; by apply Number_value_exact|].
  split.
  { intros [Hlarge Hfinite]. simpl. unfold parseInt.
    destruct (Number_value_near _ Hlarge) as [Hinfinite|[_ ?]]; [|done].
    apply Number_value_Infinity in Hinfinite. lia. }
  split; [intros Hinfinite; simpl; by apply Number_value_Infinity|].
  split; [done|]. simpl. rewrite Hhead, Hlast. done.
Qed.

(** X2 on the sample table: the entry of port 5432 comes from the line of
    postgres; as the table is that of [ss], its protocol is the first
    column of the line, the socket state. *)
Lemma parsed_entry_origin_witness :
  ∃ entry, entry ∈ parseListeningPorts sample_table ∧
           port entry = 5432 ∧ protocol entry = lit "LISTEN" ∧
           process entry = lit "users:((postgres,pid=2,fd=5))".
Proof.
  pose (entry := {| port := 5432; protocol := lit "LISTEN";
                    process := lit "users:((postgres,pid=2,fd=5))";
                    state := lit "LISTEN" |}).
  assert (Hin : entry ∈ parseListeningPorts sample_table).
  { vm_compute. apply list_elem_of_further, list_elem_of_here. }
  destruct (parsed_entry_origin sample_table entry Hin)
    as (line & addr & digits & _ & _ & _ & _ & Hport & _).
  exists entry. by split.
Defined.

Lemma split_length sep s :
  length (split sep s) = S (length (filter (λ c, c = sep) s)).
Proof.
  induction s as [|c s IH]; [done|]. cbn [split].
  destruct (N.eqb_spec c sep) as [->|Hne].
  - rewrite filter_cons_True by done. simpl. by rewrite IH.
  - rewrite filter_cons_False by done.
    destruct (split sep s) as [|piece pieces]; [done|]. by simpl in *.
Qed.

(** X3: the parser returns at most one entry per line break of the trimmed
    text: an empty output, or one of a single line, gives no entry. *)
Theorem parsed_entries_bounded raw :
  (length (parseListeningPorts raw) <=
   length (filter (λ c, c = 10%N) (trim raw)))%nat.
Proof.
  unfold parseListeningPorts. rewrite parse_loop. simpl.
  pose proof (split_length 10 (trim raw)) as Hlines.
  assert (Hflat : ∀ lines : list (list N),
            (length (flat_map line_entries lines) <= length lines)%nat).
  { induction lines as [|line lines IH]; [done|]. simpl. rewrite length_app.
    destruct (line_entries_cases line) as [(addr & digits & _ & _ & ->)|[_ ->]]; simpl; lia. }
  specialize (Hflat (drop 1 (split 10 (trim raw)))).
  rewrite length_drop in Hflat. lia.
Qed.

End ParsedLines.

(** * More of the planner: the port search *)

Section PortSearch.

Implicit Types (usedPorts : list Z) (preferred p q : Z).

Lemma Array_includes_ext usedPorts usedPorts' :
  (∀ q, q ∈ usedPorts ↔ q ∈ usedPorts') →
  ∀ q, Array_includes usedPorts q = Array_includes usedPorts' q.
Proof.
  intros Hsame q. apply eq_true_iff_eq.
  by rewrite !Array_includes_true.
Qed.

Lemma probe_ext usedPorts usedPorts' fuel :
  (∀ q, q ∈ usedPorts ↔ q ∈ usedPorts') →
  ∀ p, probe usedPorts p fuel = probe usedPorts' p fuel.
Proof.
  intros Hsame. induction fuel as [|fuel IH]; intros p; simpl; [done|].
  by rewrite (Array_includes_ext _ _ Hsame), IH.
Qed.

(** X4: the port found depends on which ports are listening only, not on
    the order of the port table nor on ports listed twice. *)
Theorem findSafePort_by_set preferred usedPorts usedPorts' :
  (∀ q, q ∈ usedPorts ↔ q ∈ usedPorts') →
  findSafePort preferred usedPorts = findSafePort preferred usedPorts'.
Proof.
  intros Hsame. unfold findSafePort.
  by rewrite (Array_includes_ext _ _ Hsame), (probe_ext _ _ _ Hsame).
Qed.

(** X4 on a port table and the same table reversed, with a port twice. *)
Lemma findSafePort_by_set_witness :
  findSafePort 8080 [8081; 8080; 22] = findSafePort 8080 [22; 8080; 8081; 8080].
Proof.
  apply findSafePort_by_set. intros q.
  rewrite !elem_of_cons, !elem_of_nil. tauto.
Defined.

Lemma findSafePort_bounds preferred usedPorts :
  preferred <= findSafePort preferred usedPorts <= preferred + 1000.
Proof.
  destruct (findSafePort_cases preferred usedPorts) as [(H & _)|(H & _)]; lia.
Qed.

(** X5: the port found is never below the preferred port nor above the
    preferred port plus 1000, and it can only grow when more ports are
    listening. *)
Theorem findSafePort_monotone preferred usedPorts usedPorts' :
  (∀ q, q ∈ usedPorts → q ∈ usedPorts') →
  preferred <= findSafePort preferred usedPorts ∧
  findSafePort preferred usedPorts <= findSafePort preferred usedPorts' ∧
  findSafePort preferred usedPorts' <= preferred + 1000.
Proof.
  intros Hmore.
  pose proof (findSafePort_bounds preferred usedPorts) as Hb.
  pose proof (findSafePort_bounds preferred usedPorts') as Hb'.
  split; [lia|]. split; [|lia].
  destruct (findSafePort_cases preferred usedPorts') as [(Hrange' & Hfree' & _)|(Hfall' & _)]; [|lia].
  destruct (findSafePort_cases preferred usedPorts) as [(Hrange & _ & Hbusy)|(_ & Hall)].
  - destruct (Z_lt_le_dec (findSafePort preferred usedPorts')
                          (findSafePort preferred usedPorts)) as [Hlt|Hle]; [|done].
    exfalso. apply Hfree', Hmore, Hbusy. lia.
  - exfalso. apply Hfree', Hmore, Hall. lia.
Qed.

(** X5 when port 5433 starts listening besides 5432. *)
Lemma findSafePort_monotone_witness :
  5432 <= findSafePort 5432 [5432] ∧
  findSafePort 5432 [5432] <= findSafePort 5432 [5433; 5432] ∧
  findSafePort 5432 [5433; 5432] <= 6432.
Proof.
  apply (findSafePort_monotone 5432 [5432] [5433; 5432]).
  intros q Hq. by apply list_elem_of_further.
Defined.

Lemma findSafePort_preferred preferred usedPorts :
  findSafePort preferred usedPorts = preferred ↔ preferred ∉ usedPorts.
Proof.
  split.
  - intros Hsame Hin.
    destruct (findSafePort_cases preferred usedPorts) as [(_ & Hfree & _)|(Hfall & _)].
    + apply Hfree. by rewrite Hsame.
    + lia.
  - intros Hfree. unfold findSafePort.
    apply Array_includes_false in Hfree. by rewrite Hfree.
Qed.

(** X6: the plan is the default port table (5432, 5678, 8080, 3001)
    exactly when none of these four ports is listening; the other
    listening ports do not matter, and a scan that found no port at all
    gives the default table. *)
Theorem plan_default_table facts :
  portsToUse (safePlan facts) = Ports.mk 5432 5678 8080 3001 ↔
  ∀ p, p ∈ preferred_ports → p ∉ map port (ports facts).
Proof.
  unfold safePlan, preferred_ports; simpl. split.
  - intros [= H1 H2 H3 H4] p Hp.
    apply findSafePort_preferred in H1, H2, H3, H4.
    rewrite !elem_of_cons, elem_of_nil in Hp.
    destruct Hp as [->|[->|[->|[->|[]]]]]; done.
  - intros Hfree.
    rewrite !(proj2 (findSafePort_preferred _ _)); [done|..];
      apply Hfree; rewrite !elem_of_cons; tauto.
Qed.

End PortSearch.

(** * More of the planner: the proxy *)

Section ProxyDetection.

Local Ltac count_caddy :=
  unfold generateCaddyConfig;
  repeat (rewrite occurrences_hole;
          [ | done
            | first [apply toString_nonempty | done]
            | first [by apply toString_foreign
                    | apply (bool_decide_unpack _); by vm_compute] ]);
  by vm_compute.

Lemma caddy_reverse_proxy ports :
  occurrences (lit "reverse_proxy") (generateCaddyConfig ports) = 5%nat.
Proof. count_caddy. Qed.

Lemma caddy_proxy_pass ports :
  occurrences (lit "proxy_pass") (generateCaddyConfig ports) = 0%nat.
Proof. count_caddy. Qed.

(** A directive of a [handle_path] block: at the start of a line, indented. *)
Definition active_reverse_proxy : list N := [10%N] ++ lit "        reverse_proxy ".

(** A directive of the commented-out subdomain alternative. *)
Definition commented_reverse_proxy : list N := lit "#     reverse_proxy ".

Lemma caddy_active ports :
  occurrences active_reverse_proxy (generateCaddyConfig ports) = 3%nat.
Proof. count_caddy. Qed.

Lemma caddy_commented ports :
  occurrences commented_reverse_proxy (generateCaddyConfig ports) = 2%nat.
Proof. count_caddy. Qed.

(** The [handle_path] block of a service, with its port. *)
Definition handled (name : string) (p : Z) : list N :=
  (lit "handle_path /" ++ lit name ++ lit "/* {" ++ [10%N] ++
   lit "        reverse_proxy 127.0.0.1:") ++ toString p ++ ([10%N] ++ lit "    }").

Local Ltac find_handled :=
  unfold generateCaddyConfig, handled;
  repeat first
    [ solve [ apply contains_hole;
              [ apply (bool_decide_unpack _); by vm_compute
              | first [ apply (bool_decide_unpack _); by vm_compute
                      | apply prefix_app_r, (bool_decide_unpack _); by vm_compute ] ] ]
    | apply contains_skip ].

Lemma caddy_blocks ports :
  contains (generateCaddyConfig ports) (handled "n8n" (Ports.n8n ports)) ∧
  contains (generateCaddyConfig ports) (handled "ntfy" (Ports.ntfy ports)) ∧
  contains (generateCaddyConfig ports) (handled "fetcher" (Ports.fetcher ports)).
Proof. split; [|split]; find_handled. Qed.

(** X7: for every port assignment the Caddy snippet never contains
    [proxy_pass] and contains [reverse_proxy] exactly five times: three
    times as the directive of a [handle_path] block, with one block for
    each of n8n, ntfy and fetcher that carries the port of the service,
    and twice in the commented-out subdomain alternative. *)
Theorem caddy_snippet_reverse_proxy ports :
  let snippet := generateCaddyConfig ports in
  includes snippet (lit "proxy_pass") = false ∧
  occurrences (lit "reverse_proxy") snippet = 5%nat ∧
  occurrences active_reverse_proxy snippet = 3%nat ∧
  occurrences commented_reverse_proxy snippet = 2%nat ∧
  contains snippet (handled "n8n" (Ports.n8n ports)) ∧
  contains snippet (handled "ntfy" (Ports.ntfy ports)) ∧
  contains snippet (handled "fetcher" (Ports.fetcher ports)).
Proof.
  cbv zeta. split; [by rewrite includes_occurrences, caddy_proxy_pass|].
  split; [apply caddy_reverse_proxy|]. split; [apply caddy_active|].
  split; [apply caddy_commented|]. apply caddy_blocks.
Qed.

(** The choice of [proxyType] and [proxyConfigPath] in [runPreflightScan],
    from the output of the three detection commands. *)
Definition detectProxy (nginxCheck caddyCheck traefikCheck : list N)
  : ProxyType * option (list N) :=
  if truthy (trim nginxCheck) then (nginx, Some (lit "/etc/nginx/sites-available/"))
  else if truthy (trim caddyCheck) then (caddy, Some (lit "/etc/caddy/Caddyfile"))
  else if truthy (trim traefikCheck) then (traefik, None)
  else (none, None).

Lemma truthy_trim s : truthy (trim s) = false ↔ blank s.
Proof.
  rewrite <- trim_blank. by destruct (trim s).
Qed.

Lemma detectProxy_cases nginxCheck caddyCheck traefikCheck :
  let detected := (detectProxy nginxCheck caddyCheck traefikCheck).1 in
  (¬ blank nginxCheck ∧ detected = nginx) ∨
  (blank nginxCheck ∧ ¬ blank caddyCheck ∧ detected = caddy) ∨
  (blank nginxCheck ∧ blank caddyCheck ∧ ¬ blank traefikCheck ∧ detected = traefik) ∨
  (blank nginxCheck ∧ blank caddyCheck ∧ blank traefikCheck ∧ detected = none).
Proof.
  cbv zeta. unfold detectProxy.
  rewrite <- (truthy_trim nginxCheck), <- (truthy_trim caddyCheck),
          <- (truthy_trim traefikCheck).
  destruct (truthy (trim nginxCheck)), (truthy (trim caddyCheck)),
           (truthy (trim traefikCheck)); simpl; intuition congruence.
Qed.

Lemma safePlan_proxy facts :
  (proxyConfigSnippet (safePlan facts) = None ↔
   proxyType facts = traefik ∨ proxyType facts = none) ∧
  (reuseExistingProxy (safePlan facts) = false ↔ proxyType facts = none).
Proof.
  unfold safePlan. simpl. destruct (proxyType facts); intuition congruence.
Qed.

(** X8: a detection command counts as a match when it prints anything
    but white space, and the first match in the order nginx, caddy,
    traefik wins.  So no proxy is detected exactly when all three outputs
    are blank; and a plan made for the detected proxy has no configuration
    snippet exactly when neither nginx nor caddy matched, although it
    reuses the existing proxy as soon as any of the three matched. *)
Theorem detectProxy_first_match nginxCheck caddyCheck traefikCheck :
  let detected := (detectProxy nginxCheck caddyCheck traefikCheck).1 in
  (detected = nginx ↔ ¬ blank nginxCheck) ∧
  (detected = caddy ↔ blank nginxCheck ∧ ¬ blank caddyCheck) ∧
  (detected = traefik ↔ blank nginxCheck ∧ blank caddyCheck ∧ ¬ blank traefikCheck) ∧
  (detected = none ↔ blank nginxCheck ∧ blank caddyCheck ∧ blank traefikCheck) ∧
  (∀ facts, proxyType facts = detected →
     (proxyConfigSnippet (safePlan facts) = None ↔ blank nginxCheck ∧ blank caddyCheck) ∧
     (reuseExistingProxy (safePlan facts) = false ↔
      blank nginxCheck ∧ blank caddyCheck ∧ blank traefikCheck)).
Proof.
  cbv zeta.
  pose proof (detectProxy_cases nginxCheck caddyCheck traefikCheck) as Hcases.
  cbv zeta in Hcases.
  split; [|split; [|split; [|split]]]; try (intuition congruence).
  intros facts Hfacts. destruct (safePlan_proxy facts) as [Hsnippet Hreuse].
  rewrite Hsnippet, Hreuse, Hfacts. intuition congruence.
Qed.

End ProxyDetection.

(** * More of the planner: the warnings *)

Section Warnings.

Definition port_80_warning : list N :=
  lit "Port 80 is in use - will bind to localhost only".

Definition port_443_warning : list N :=
  lit "Port 443 is in use - will bind to localhost only".

Definition n8n_warning : list N :=
  lit "n8n already exists - will use different container name".

Definition postgres_warning : list N :=
  lit "Postgres already exists - consider reusing".

Local Ltac decided := apply (bool_decide_unpack _); by vm_compute.

(** X9: the plan warns of port 80, of port 443, of an existing n8n and
    of an existing database exactly when the scan found each, once and in
    this order, and of nothing else; and whether the plan is ready does
    not depend on any of them but only on docker. *)
Theorem plan_warnings facts :
  let plan := safePlan facts in
  let usedPorts := map port (ports facts) in
  (port_80_warning ∈ warnings plan ↔ 80 ∈ usedPorts) ∧
  (port_443_warning ∈ warnings plan ↔ 443 ∈ usedPorts) ∧
  (n8n_warning ∈ warnings plan ↔ existing_n8n facts = true) ∧
  (postgres_warning ∈ warnings plan ↔ existing_postgres facts = true) ∧
  warnings plan `sublist_of`
    [port_80_warning; port_443_warning; n8n_warning; postgres_warning] ∧
  readyToDeploy plan = dockerInstalled facts.
Proof.
  cbv zeta. unfold safePlan. cbn [warnings readyToDeploy].
  rewrite <- (Array_includes_true (map port (ports facts)) 80),
          <- (Array_includes_true (map port (ports facts)) 443).
  destruct (Array_includes (map port (ports facts)) 80),
           (Array_includes (map port (ports facts)) 443),
           (existing_n8n facts), (existing_postgres facts); cbn [push_if app];
    (split; [split; [intros Hin; first [done | exfalso; revert Hin; decided]
                    | intros Hin; first [decided | done] ]|]);
    (split; [split; [intros Hin; first [done | exfalso; revert Hin; decided]
                    | intros Hin; first [decided | done] ]|]);
    (split; [split; [intros Hin; first [done | exfalso; revert Hin; decided]
                    | intros Hin; first [decided | done] ]|]);
    (split; [split; [intros Hin; first [done | exfalso; revert Hin; decided]
                    | intros Hin; first [decided | done] ]|]);
    (split; [|done]);
    unfold port_80_warning, port_443_warning, n8n_warning, postgres_warning;
    solve [repeat first [apply sublist_nil | apply sublist_skip | apply sublist_cons]].
Qed.

End Warnings.

(** * More of the scan: the inventory of the container runtime *)

(** A row of [docker ps], as [runPreflightScan] keeps it. *)
Module Container.
Record t := mk {
  name : list N;
  image : list N;
  status : list N;
  ports : list N
}.
End Container.

(** The callback of [.map] on the lines of [docker ps]: the first four
    pieces between bars, a missing piece read as the empty string. *)
Definition container_of_line (line : list N) : Container.t :=
  let parts := split 124 line in
  {| Container.name := or_text (parts !! 0%nat) [];
     Container.image := or_text (parts !! 1%nat) [];
     Container.status := or_text (parts !! 2%nat) [];
     Container.ports := or_text (parts !! 3%nat) [] |}.

(** [containersRaw.trim().split("\n").filter(Boolean).map(...)]. *)
Definition parseContainers (containersRaw : list N) : list Container.t :=
  map container_of_line (List.filter truthy (split 10 (trim containersRaw))).

(** [raw.trim().split("\n").filter(Boolean)], for networks and volumes. *)
Definition parseNames (raw : list N) : list (list N) :=
  List.filter truthy (split 10 (trim raw)).

(** [const [free, total] = info.trim().split("|")], each read with
    [|| "unknown"]. *)
Definition parseResource (info : list N) : list N * list N :=
  let parts := split 124 (trim info) in
  (or_text (parts !! 0%nat) (lit "unknown"), or_text (parts !! 1%nat) (lit "unknown")).

(** What a command that prints one line per item prints. *)
Definition unlines (lines : list (list N)) : list N :=
  flat_map (λ line, line ++ [10%N]) lines.

Section Inventory.

Implicit Types (s t line : list N) (sep : N).

Lemma split_no_sep sep s : sep ∉ s → split sep s = [s].
Proof.
  induction s as [|c s IH]; [done|]. intros Hsep.
  apply not_elem_of_cons in Hsep as [Hne Hsep]. cbn [split].
  destruct (N.eqb_spec c sep) as [->|_]; [done|]. by rewrite IH.
Qed.

Lemma split_app_sep sep s t :
  sep ∉ s → split sep (s ++ sep :: t) = s :: split sep t.
Proof.
  induction s as [|c s IH]; intros Hsep.
  - simpl. by rewrite N.eqb_refl.
  - apply not_elem_of_cons in Hsep as [Hne Hsep].
    change ((c :: s) ++ sep :: t) with (c :: (s ++ sep :: t)). cbn [split].
    destruct (N.eqb_spec c sep) as [->|_]; [done|]. by rewrite IH.
Qed.

(** The pieces of a split never hold the separator. *)
Lemma split_pieces_free sep s : Forall (λ piece, sep ∉ piece) (split sep s).
Proof.
  induction s as [|c s IH]; cbn [split].
  - apply Forall_singleton, not_elem_of_nil.
  - destruct (N.eqb_spec c sep) as [->|Hne].
    + apply Forall_cons. split; [apply not_elem_of_nil | done].
    + destruct (split sep s) as [|piece pieces].
      { apply Forall_singleton, not_elem_of_cons. split; [congruence | apply not_elem_of_nil]. }
      apply Forall_cons in IH as [Hpiece Hpieces]. apply Forall_cons.
      split; [|done]. apply not_elem_of_cons. split; [congruence | done].
Qed.

(** Lines put one after the other, a separator between two of them. *)
Definition joined sep (first : list N) (others : list (list N)) : list N :=
  first ++ flat_map (cons sep) others.

Lemma split_joined sep others : ∀ first,
  Forall (λ line, sep ∉ line) (first :: others) →
  split sep (joined sep first others) = first :: others.
Proof.
  unfold joined. induction others as [|line others IH]; intros first Hfree.
  - simpl. rewrite app_nil_r. apply split_no_sep. by apply Forall_cons in Hfree as [? _].
  - apply Forall_cons in Hfree as [Hfirst Hfree]. simpl.
    rewrite split_app_sep by done. by rewrite IH.
Qed.

Lemma unlines_joined first others :
  unlines (first :: others) = joined 10 first others ++ [10%N].
Proof.
  unfold unlines, joined. revert first.
  induction others as [|line others IH]; intros first.
  - simpl. by rewrite !app_nil_r.
  - specialize (IH line). cbn [flat_map] in IH |- *.
    rewrite IH. by rewrite <- !app_assoc.
Qed.

Lemma trimStart_app_blank spaces s : blank spaces → trimStart (spaces ++ s) = trimStart s.
Proof.
  induction 1 as [|c spaces Hc _ IH]; [done|]. simpl. by rewrite Hc.
Qed.

(** White space after a tight text is all that [trim] removes. *)
Lemma trim_app_blank s spaces : tight s → blank spaces → trim (s ++ spaces) = s.
Proof.
  intros [Hhead Hlast] Hblank. unfold trim, trimEnd.
  assert (Hstart : trimStart (s ++ spaces) = s ++ spaces ∨ s = []).
  { destruct s as [|c t]; [by right|]. left. simpl. by rewrite (Hhead c t). }
  destruct Hstart as [->| ->].
  - rewrite rev_app_distr, trimStart_app_blank by by apply Forall_rev.
    rewrite trimStart_tight; [apply rev_involutive|].
    intros c t Hrev. apply (Hlast c (rev t)).
    by rewrite <- (rev_involutive s), Hrev.
  - simpl. by rewrite (trimStart_blank spaces).
Qed.

Lemma tight_last s : tight s ↔
  (∀ c t, s = c :: t → is_space c = false) ∧ (∀ c, last s = Some c → is_space c = false).
Proof.
  unfold tight. split; intros [Hhead Hlast]; (split; [done|]).
  - intros c Hc. apply last_Some in Hc as [t ->]. by eapply Hlast.
  - intros c t ->. apply Hlast. by rewrite last_snoc.
Qed.

Lemma last_joined sep others : ∀ first,
  default first (last others) ≠ [] →
  last (joined sep first others) = last (default first (last others)).
Proof.
  unfold joined. induction others as [|line others IH]; intros first Hfinal.
  - simpl. by rewrite app_nil_r.
  - simpl. rewrite last_app, last_cons.
    assert (Hsame : default first (last (line :: others)) = default line (last others)).
    { rewrite last_cons. by destruct (last others). }
    rewrite Hsame in Hfinal |- *. rewrite IH by done.
    destruct (last (default line (last others))) eqn:Hlast; [done|].
    by apply last_None in Hlast.
Qed.

Lemma last_app_cons {A} (before : list A) (x : A) (after : list A) :
  last (before ++ x :: after) = Some (default x (last after)).
Proof. rewrite last_app, last_cons. by destruct (last after). Qed.

(** A line that survives [trim] and [filter(Boolean)] as it is. *)
Definition plain_line (line : list N) : Prop :=
  line ≠ [] ∧ tight line ∧ (10%N ∉ line).

Lemma tight_joined first others :
  Forall plain_line (first :: others) → tight (joined 10 first others).
Proof.
  intros Hplain. apply tight_last. split.
  - apply Forall_cons in Hplain as [(Hne & [Hhead _] & _) _].
    intros c t Heq. unfold joined in Heq.
    destruct first as [|c' first']; [done|]. injection Heq as <- _. by eapply Hhead.
  - assert (Hfinal : plain_line (default first (last others))).
    { destruct (last others) as [final|] eqn:Hlast; simpl.
      - rewrite Forall_forall in Hplain. apply Hplain.
        apply list_elem_of_further. apply last_Some in Hlast as [t ->].
        apply elem_of_app. right. apply list_elem_of_here.
      - by apply Forall_cons in Hplain as [? _]. }
    destruct Hfinal as (Hne & Htight & _). apply tight_last in Htight as [_ Hlast].
    intros c Hc. rewrite last_joined in Hc by done. by apply Hlast.
Qed.

(** Lines printed one per row come back as they were. *)
Lemma lines_round_trip lines :
  Forall plain_line lines →
  List.filter truthy (split 10 (trim (unlines lines))) = lines.
Proof.
  intros Hplain. destruct lines as [|first others]; [done|].
  rewrite unlines_joined.
  rewrite trim_app_blank;
    [|by apply tight_joined | by apply Forall_singleton].
  rewrite split_joined.
  2: { eapply Forall_impl; [exact Hplain|]. by intros line (_ & _ & ?). }
  assert (Hkeep : ∀ ls : list (list N),
            Forall (λ l, l ≠ []) ls → List.filter truthy ls = ls).
  { induction ls as [|l ls IH]; [done|]. intros Hls.
    apply Forall_cons in Hls as [Hl Hls]. simpl.
    destruct l; [done|]. simpl. by rewrite IH. }
  apply Hkeep. eapply Forall_impl; [exact Hplain|]. by intros line (? & _).
Qed.

Lemma blank_no_lines raw : blank raw → List.filter truthy (split 10 (trim raw)) = [].
Proof. intros Hblank. apply trim_blank in Hblank. by rewrite Hblank. Qed.

(** The row [docker ps] prints for a container, with the format of the
    source: [{{.Names}}|{{.Image}}|{{.Status}}|{{.Ports}}]. *)
Definition row (c : Container.t) : list N :=
  Container.name c ++ 124%N :: Container.image c ++ 124%N ::
  Container.status c ++ 124%N :: Container.ports c.

(** A container whose row is read back as it is: no bar and no line break
    in a field, no white space before the name nor after the ports. *)
Definition printable (c : Container.t) : Prop :=
  Forall (λ field, (124%N ∉ field) ∧ (10%N ∉ field))
         [Container.name c; Container.image c; Container.status c; Container.ports c] ∧
  (∀ ch t, Container.name c = ch :: t → is_space ch = false) ∧
  (∀ ch t, Container.ports c = t ++ [ch] → is_space ch = false).

Lemma container_of_row c :
  Forall (λ field, 124%N ∉ field)
         [Container.name c; Container.image c; Container.status c; Container.ports c] →
  container_of_line (row c) = c.
Proof.
  destruct c as [n i s p]. simpl. intros Hfree.
  apply Forall_cons in Hfree as [Hn Hfree]. apply Forall_cons in Hfree as [Hi Hfree].
  apply Forall_cons in Hfree as [Hs Hfree]. apply Forall_cons in Hfree as [Hp _].
  unfold container_of_line, row. simpl.
  rewrite !split_app_sep, split_no_sep by done. simpl.
  by destruct n, i, s, p.
Qed.

Lemma plain_row c : printable c → plain_line (row c).
Proof.
  destruct c as [n i s p]. unfold printable, row. simpl.
  intros (Hfree & Hhead & Hlast).
  apply Forall_cons in Hfree as [[_ Hn] Hfree]. apply Forall_cons in Hfree as [[_ Hi] Hfree].
  apply Forall_cons in Hfree as [[_ Hs] Hfree]. apply Forall_cons in Hfree as [[_ Hp] _].
  split; [by destruct n|]. split.
  - apply tight_last. split.
    + intros c t Heq. destruct n as [|c' n']; [by injection Heq as <- _|].
      injection Heq as <- _. by eapply Hhead.
    + assert (Hrow : last (n ++ 124%N :: i ++ 124%N :: s ++ 124%N :: p)
                     = Some (default 124%N (last p))).
      { by rewrite !last_app_cons. }
      intros c. rewrite Hrow. intros [= <-].
      destruct (last p) as [c'|] eqn:Hp'; [|done].
      apply last_Some in Hp' as [t ->]. by eapply Hlast.
  - rewrite !elem_of_app, !elem_of_cons, !elem_of_app, !elem_of_cons, !elem_of_app, !elem_of_cons.
    intros [?|[?|[?|[?|[?|[?|?]]]]]]; done.
Qed.

(** X10: reading the container table is the inverse of printing it: when
    no field holds a bar or a line break, no name begins and no port list
    ends with white space, the rows [docker ps] prints for a list of
    containers are parsed back to that list; a field may be empty.  A blank
    output gives no container. *)
Theorem parseContainers_round_trip :
  (∀ containers, Forall printable containers →
                 parseContainers (unlines (map row containers)) = containers) ∧
  (∀ raw, blank raw → parseContainers raw = []).
Proof.
  split.
  - intros containers Hprintable. unfold parseContainers.
    rewrite lines_round_trip.
    + rewrite map_map. rewrite <- (map_id containers) at 2.
      apply map_ext_in. intros c Hc. apply container_of_row.
      rewrite Forall_forall in Hprintable.
      destruct (Hprintable c) as (Hfree & _); [by apply list_elem_of_In|].
      eapply Forall_impl; [exact Hfree|]. by intros field [? _].
    + apply Forall_fmap. eapply Forall_impl; [exact Hprintable|].
      intros c Hc. by apply plain_row.
  - intros raw Hblank. unfold parseContainers. by rewrite blank_no_lines.
Qed.

(** X10 on two containers, the second without published ports. *)
Lemma parseContainers_round_trip_witness :
  parseContainers
    (lit "rentalmonitor_n8n|n8nio/n8n:latest|Up 2 hours|127.0.0.1:5678->5678/tcp
web|nginx:1.25|Exited (0) 3 days ago|
")
  = [ Container.mk (lit "rentalmonitor_n8n") (lit "n8nio/n8n:latest") (lit "Up 2 hours")
                   (lit "127.0.0.1:5678->5678/tcp");
      Container.mk (lit "web") (lit "nginx:1.25") (lit "Exited (0) 3 days ago") [] ].
Proof.
  destruct parseContainers_round_trip as [Hround _].
  apply (Hround [ Container.mk (lit "rentalmonitor_n8n") (lit "n8nio/n8n:latest")
                               (lit "Up 2 hours") (lit "127.0.0.1:5678->5678/tcp");
                  Container.mk (lit "web") (lit "nginx:1.25")
                               (lit "Exited (0) 3 days ago") [] ]).
  repeat apply Forall_cons_2; try apply Forall_nil_2;
    (split; [|split]);
    [ apply (bool_decide_unpack _); by vm_compute
    | intros ch t Heq; vm_compute in Heq; injection Heq as <- _; reflexivity
    | intros ch t Heq
    | apply (bool_decide_unpack _); by vm_compute
    | intros ch t Heq; vm_compute in Heq; injection Heq as <- _; reflexivity
    | intros ch t Heq ].
  - assert (Hlast : last (t ++ [ch]) = Some 112%N) by (rewrite <- Heq; by vm_compute).
    rewrite last_snoc in Hlast. by injection Hlast as ->.
  - by destruct t.
Defined.

(** X11: the names of networks and volumes the scan keeps are never empty
    and hold no line break; and names printed one per line, none of them
    empty, with white space at an end or with a line break, are read back
    as they were. *)
Theorem parseNames_round_trip :
  (∀ raw, Forall (λ name, name ≠ [] ∧ (10%N ∉ name)) (parseNames raw)) ∧
  (∀ names, Forall plain_line names → parseNames (unlines names) = names).
Proof.
  split.
  - intros raw. unfold parseNames. apply Forall_forall. intros name Hname.
    apply list_elem_of_In, filter_In in Hname as [Hin Htruthy].
    split; [by destruct name|].
    pose proof (split_pieces_free 10 (trim raw)) as Hfree.
    rewrite Forall_forall in Hfree. by apply Hfree, list_elem_of_In.
  - intros names Hplain. by apply lines_round_trip.
Qed.

(** X11 on the networks of a fresh docker host. *)
Lemma parseNames_round_trip_witness :
  parseNames (lit "bridge
host
none
") = [lit "bridge"; lit "host"; lit "none"].
Proof.
  destruct parseNames_round_trip as [_ Hround].
  apply (Hround [lit "bridge"; lit "host"; lit "none"]).
  repeat apply Forall_cons_2; try apply Forall_nil_2;
    (split; [done|]; split; [|apply (bool_decide_unpack _); by vm_compute]);
    (apply tight_last; split;
     [ intros c t Heq; vm_compute in Heq; injection Heq as <- _; reflexivity
     | intros c Heq; vm_compute in Heq; injection Heq as <-; reflexivity ]).
Defined.

(** X12: the free and total figures of disk and memory are never empty
    strings: a missing or empty figure reads ["unknown"], so a blank output
    gives ["unknown"] twice; and a line [free|total], the two figures not
    empty and without a bar, is read back as the pair. *)
Theorem parseResource_figures :
  (∀ info, (parseResource info).1 ≠ [] ∧ (parseResource info).2 ≠ []) ∧
  (∀ info, blank info → parseResource info = (lit "unknown", lit "unknown")) ∧
  (∀ free total,
     free ≠ [] → total ≠ [] → 124%N ∉ free → 124%N ∉ total →
     tight (free ++ 124%N :: total) →
     parseResource (free ++ 124%N :: total ++ [10%N]) = (free, total)).
Proof.
  assert (Hor : ∀ piece : option (list N), or_text piece (lit "unknown") ≠ []).
  { intros [[|c piece]|]; done. }
  split; [|split].
  - intros info. unfold parseResource. simpl. split; apply Hor.
  - intros info Hblank. unfold parseResource. apply trim_blank in Hblank.
    by rewrite Hblank.
  - intros free total Hfree Htotal Hbar Hbar' Htight. unfold parseResource.
    replace (free ++ 124%N :: total ++ [10%N]) with ((free ++ 124%N :: total) ++ [10%N])
      by by rewrite <- app_assoc.
    rewrite trim_app_blank by (done || by apply Forall_singleton).
    rewrite split_app_sep, split_no_sep by done. simpl.
    by destruct free, total.
Qed.

(** X12 on a line of [df]. *)
Lemma parseResource_figures_witness :
  parseResource (lit "12G|40G" ++ [10%N]) = (lit "12G", lit "40G").
Proof.
  destruct parseResource_figures as (_ & _ & Hround).
  apply (Hround (lit "12G") (lit "40G")); try done;
    try (apply (bool_decide_unpack _); by vm_compute).
  apply tight_last. split.
  - intros c t Heq. vm_compute in Heq. injection Heq as <- _. reflexivity.
  - intros c Heq. vm_compute in Heq. injection Heq as <-. reflexivity.
Defined.

End Inventory.

(** * More of the executor: the session, the files, the probes *)

Section Session.

Context (E : Env).

Local Opaque lit.

(** An operation issued on an open session. *)
Definition operation (e : Event) : Prop :=
  match e with
  | Exec _ _ | Upload _ _ _ | Sleep _ => True
  | Connect _ _ | ClientEnd => False
  end.

(** A computation that only issues operations. *)
Definition working {A} (m : M A) : Prop :=
  ∀ st, ∃ new, history (m st).2 = history st ++ new ∧ Forall operation new.

(** A computation that issues operations and, when it returns, has ended
    the session as the last thing it did. *)
Definition closing {A} (m : M A) : Prop :=
  ∀ st, ∃ new, history (m st).2 = history st ++ new ∧
    match (m st).1 with
    | Ok _ => ∃ before, new = before ++ [ClientEnd] ∧ Forall operation before
    | Throw _ => Forall operation new
    end.

Lemma working_plain {A} (f : State → A) (g : State → State) :
  (∀ st, history (g st) = history st) → working (λ st, (Ok (f st), g st)).
Proof.
  intros Hg st. exists []. simpl. rewrite Hg, app_nil_r. by split; [|apply Forall_nil].
Qed.

Lemma working_logs_push text : working (logs_push text).
Proof. by apply (working_plain (λ _, tt)). Qed.

Lemma working_generateEnvFile : working (generateEnvFile E).
Proof. intros st. exists []. simpl. rewrite app_nil_r. by split; [|apply Forall_nil]. Qed.

Lemma working_sleep ms : working (sleep ms).
Proof. intros st. exists [Sleep ms]. split; [done|]. by apply Forall_singleton. Qed.

Lemma working_execCommand command : working (execCommand E command).
Proof. intros st. eexists. split; [done|]. by apply Forall_singleton. Qed.

Lemma working_uploadFile content path : working (uploadFile E content path).
Proof. intros st. eexists. split; [done|]. by apply Forall_singleton. Qed.

Lemma working_bind {A B} (m : M A) (k : A → M B) :
  working m → (∀ a, working (k a)) → working (bind m k).
Proof.
  intros Hm Hk st. unfold bind.
  destruct (Hm st) as (new1 & Hnew1 & Hops1).
  destruct (m st) as [[a|msg] st1]; simpl in *; [|by exists new1].
  destruct (Hk a st1) as (new2 & Hnew2 & Hops2).
  exists (new1 ++ new2). rewrite Hnew2, Hnew1, app_assoc. split; [done|].
  by apply Forall_app.
Qed.

Lemma closing_bind {A B} (m : M A) (k : A → M B) :
  working m → (∀ a, closing (k a)) → closing (bind m k).
Proof.
  intros Hm Hk st. unfold bind.
  destruct (Hm st) as (new1 & Hnew1 & Hops1).
  destruct (m st) as [[a|msg] st1]; simpl in *; [|by exists new1].
  destruct (Hk a st1) as (new2 & Hnew2 & Hres2).
  exists (new1 ++ new2). rewrite Hnew2, Hnew1, app_assoc. split; [done|].
  destruct (k a st1) as [[b|msg] st2]; simpl in *.
  - destruct Hres2 as (before & -> & Hbefore). exists (new1 ++ before).
    rewrite app_assoc. split; [done|]. by apply Forall_app.
  - by apply Forall_app.
Qed.

(** Ending the session and then only computing. *)
Lemma closing_client_end {A} (k : unit → M A) :
  (∀ u st, ∃ a, k u st = (Ok a, st)) → closing (bind client_end k).
Proof.
  intros Hk st. unfold bind, client_end.
  destruct (Hk tt (record ClientEnd st)) as [a ->]. simpl.
  exists [ClientEnd]. split; [done|]. exists []. split; [done|]. apply Forall_nil_2.
Qed.

Local Ltac working_steps :=
  repeat first
    [ apply working_bind; [|intros ?]
    | apply working_logs_push | apply working_execCommand | apply working_uploadFile
    | apply working_sleep | apply working_generateEnvFile
    | by apply (working_plain _ (λ st, st))
    | case_decide ].

Local Ltac closing_steps :=
  repeat first
    [ apply closing_client_end; intros ? ?; by eexists
    | apply closing_bind; [working_steps|intros ?] ].

Lemma closing_deploy_steps B ports : closing (deploy_steps E B ports).
Proof. unfold deploy_steps. closing_steps. Qed.

(** How a session that was opened ends. *)
Definition released (config : SSHConfig) (new : list Event) : Prop :=
  ∃ before, new = Connect config (Ok tt) :: before ++ [ClientEnd] ∧
            Forall operation before.

(** How a call ends whose connection was refused. *)
Definition refused {A} (config : SSHConfig) (new : list Event) (res : Reply A) : Prop :=
  ∃ msg, new = [Connect config (Throw msg)] ∧ res = Throw msg.

Lemma try_catch_released {A} (body : M A) (handler : list N → M A) config st0 st res st' :
  closing body →
  (∀ msg s, ∃ res', handler msg s = (res', record ClientEnd s) ∨
                    ∃ s', handler msg s = (res', s') ∧ history s' = history s ++ [ClientEnd]) →
  try_catch body handler st = (res, st') →
  history st = history st0 ++ [Connect config (Ok tt)] →
  released config (new_events st0 st').
Proof.
  intros Hbody Hhandler Hrun Hst. revert Hrun. unfold try_catch.
  destruct (Hbody st) as (new & Hnew & Hres).
  destruct (body st) as [[a|msg] st1]; simpl in *.
  - intros [= <- <-]. destruct Hres as (before & -> & Hbefore).
    exists before. split; [|done]. apply new_events_app.
    rewrite Hnew, Hst. by rewrite <- !app_assoc.
  - intros Hrun. exists new. split; [|done]. apply new_events_app.
    destruct (Hhandler msg st1) as [res' [Hh|(s' & Hh & Hs')]];
      rewrite Hh in Hrun; injection Hrun as <- <-.
    + simpl. rewrite Hnew, Hst. by rewrite <- !app_assoc.
    + rewrite Hs', Hnew, Hst. by rewrite <- !app_assoc.
Qed.

(** X13: a session that was opened is always ended, and exactly once:
    whatever the host does, the operations of a call of [deployToVPS] or of
    [checkVPSServices] are the connection, then commands, uploads and the
    wait, then the end of the session as the last operation; nothing is
    issued after it.  When the connection is refused the call throws that
    error and issues nothing else. *)
Theorem session_released B config ports st :
  (∀ res st', deployToVPS E B config ports st = (res, st') →
              released config (new_events st st') ∨
              refused config (new_events st st') res) ∧
  (∀ res st', checkVPSServices E config ports st = (res, st') →
              released config (new_events st st') ∨
              refused config (new_events st st') res).
Proof.
  split.
  - intros res st'. rewrite deployToVPS_run. cbv zeta.
    set (st1 := {| files := files st; history := history st; log_array := [] |}).
    destruct (connect_reply E st1 config) as [[]|msg] eqn:Hconnect.
    + intros Hrun. left.
      eapply (try_catch_released _ _ config st); [apply closing_deploy_steps| |exact Hrun|reflexivity].
      intros msg0 s. eexists. right. eexists. rewrite deploy_failed_run. by split.
    + intros [= <- <-]. right. exists msg. split; [|done]. by apply new_events_app.
  - intros res st'. unfold checkVPSServices, bind at 1, connectSSH. cbv zeta.
    destruct (connect_reply E st config) as [[]|msg] eqn:Hconnect.
    + intros Hrun. left.
      eapply (try_catch_released _ _ config st); [| |exact Hrun|reflexivity].
      * closing_steps.
      * intros msg0 s. eexists. by left.
    + intros [= <- <-]. right. exists msg. split; [|done]. by apply new_events_app.
Qed.

End Session.

Section Files.

Context (E : Env).

Local Opaque lit.

(** What a step that returned did to the files. *)
Lemma execCommand_files command st out st' :
  execCommand E command st = (Ok out, st') →
  exec_reply E st command = Ok out ∧ files st' = files st.
Proof. unfold execCommand. intros [= Hr <-]. by rewrite Hr. Qed.

Lemma uploadFile_files content path st u st' :
  uploadFile E content path st = (Ok u, st') →
  files st' = <[path := content]> (files st).
Proof. unfold uploadFile. intros [= Hr <-]. simpl. by rewrite Hr. Qed.

Lemma logs_push_files text st u st' :
  logs_push text st = (Ok u, st') → files st' = files st.
Proof. unfold logs_push. intros Hrun. by simplify_eq. Qed.

Lemma sleep_files ms st u st' : sleep ms st = (Ok u, st') → files st' = files st.
Proof. unfold sleep. intros Hrun. by simplify_eq. Qed.

Lemma client_end_files st u st' : client_end st = (Ok u, st') → files st' = files st.
Proof. unfold client_end. intros Hrun. by simplify_eq. Qed.

Lemma generateEnvFile_same st content st' :
  generateEnvFile E st = (Ok content, st') →
  st' = st ∧ (generateEnvFile E st).1 = Ok content.
Proof. intros Hrun. rewrite Hrun. split; [|done]. revert Hrun. unfold generateEnvFile. by intros [= _ <-]. Qed.

(** Follows a run that returned, keeping of each state only its files. *)
Local Ltac follow_files H :=
  lazymatch type of H with
  | bind _ _ _ = (Ok _, _) =>
      let Hm := fresh "Hm" in
      apply bind_Ok in H as (? & ? & Hm & H);
      follow_files Hm; cbv beta zeta in H; follow_files H
  | (if decide _ then _ else _) _ = _ => case_decide; follow_files H
  | execCommand _ _ _ = (Ok _, _) => apply execCommand_files in H as [? H]
  | uploadFile _ _ _ _ = (Ok _, _) => apply uploadFile_files in H
  | logs_push _ _ = (Ok _, _) => apply logs_push_files in H
  | sleep _ _ = (Ok _, _) => apply sleep_files in H
  | client_end _ = (Ok _, _) => apply client_end_files in H
  | read_logs _ = (Ok _, _) => apply read_logs_Ok in H as [-> ->]
  | generateEnvFile _ _ = (Ok _, _) => apply generateEnvFile_same in H as [-> H]
  | ret _ _ = (Ok _, _) => apply ret_Ok in H as [-> ->]
  | _ => cbv beta in H; injection H as <- <-
  end.

(** The files of every state, as the files of the first state changed. *)
Local Ltac settled :=
  repeat match goal with
         | H : files ?s = _ |- _ => rewrite H in *; clear H
         end.

Local Ltac other_path := apply (bool_decide_unpack _); by vm_compute.

Local Ltac looked_up :=
  repeat first
    [ apply lookup_insert_eq
    | rewrite lookup_insert_ne by other_path ].

(** A successful deployment is a run of the [try] block to its end, on the
    files the call found. *)
Lemma deployToVPS_steps B config ports st r st' :
  deployToVPS E B config ports st = (Ok r, st') →
  success r = true →
  ∃ st1, files st1 = files st ∧ deploy_steps E B ports st1 = (Ok r, st').
Proof.
  rewrite deployToVPS_run. cbv zeta.
  destruct (connect_reply E _ config) as [u|msg]; [|done].
  unfold try_catch.
  destruct (deploy_steps E B ports _) as [[r0|msg] st2] eqn:Hsteps.
  - intros [= -> ->] _. eexists. split; [|exact Hsteps]. reflexivity.
  - rewrite deploy_failed_run. by intros [= <- <-].
Qed.

(** X14: after a deployment that reports success the remote directory holds
    the bundle rendered for the ports that were passed: the compose
    manifest, the example environment file, the three files of the fetcher
    service and the reference document, whatever was at these paths
    before. *)
Theorem deployed_bundle B config ports st r st' :
  deployToVPS E B config ports st = (Ok r, st') →
  success r = true →
  files st' !! lit "/opt/rentalmonitor/docker-compose.yml"
    = Some (generateDockerCompose B ports) ∧
  files st' !! lit "/opt/rentalmonitor/.env.example" = Some generateEnvExample ∧
  files st' !! lit "/opt/rentalmonitor/fetcher/Dockerfile"
    = Some (generateFetcherDockerfile B) ∧
  files st' !! lit "/opt/rentalmonitor/fetcher/package.json"
    = Some (generateFetcherPackageJson B) ∧
  files st' !! lit "/opt/rentalmonitor/fetcher/index.js"
    = Some (generateFetcherService B) ∧
  ∃ st1, files st' !! lit "/opt/rentalmonitor/README.md"
         = Some (generateReadme B st1 ports).
Proof.
  intros Hrun Hsuccess.
  apply deployToVPS_steps in Hrun as (st1 & _ & Hsteps); [|done].
  unfold deploy_steps in Hsteps. follow_files Hsteps; settled;
    (repeat split; [looked_up..|eexists; looked_up]).
Qed.

(** The remote shell answers the test for the secrets file exactly: it
    prints [missing], and nothing else but white space, when and only when
    the file is absent. *)
Definition exact_test : Prop :=
  ∀ st out,
    exec_reply E st test_env_command = Ok out →
    (trim out = lit "missing" ↔ files st !! env_path = None).

(** X15: when the shell answers the test for the secrets file exactly,
    a deployment that reports success leaves a secrets file: the one it
    found, unchanged, or else one that [generateEnvFile] made during the
    call. *)
Theorem secrets_file_present B config ports st r st' :
  exact_test →
  deployToVPS E B config ports st = (Ok r, st') →
  success r = true →
  match files st !! env_path with
  | Some content => files st' !! env_path = Some content
  | None => ∃ s content, (generateEnvFile E s).1 = Ok content ∧
                         files st' !! env_path = Some content
  end.
Proof.
  intros Hexact Hrun Hsuccess.
  apply deployToVPS_steps in Hrun as (st1 & Hfiles & Hsteps); [|done].
  rewrite <- Hfiles. clear Hfiles.
  unfold deploy_steps in Hsteps. follow_files Hsteps;
    match goal with
    | Htest : exec_reply E ?s test_env_command = Ok ?out |- _ =>
        pose proof (Hexact s out Htest) as [Hmissing Habsent]
    end; settled.
  - rewrite !lookup_insert_ne in Hmissing by other_path.
    rewrite Hmissing by done.
    eexists _, _. split; [eassumption|]. looked_up.
  - rewrite !lookup_insert_ne in Habsent by other_path.
    destruct (files st1 !! env_path) as [content|] eqn:Hfile; [|by destruct Habsent].
    rewrite !lookup_insert_ne by other_path. done.
Qed.

End Files.

(** * More of the executor: what the probes decide *)

Section Heuristics.

Context (E : Env).

Local Opaque lit.

(** What the status record says, output by output. *)
Definition judged (ports : Ports.t) (s : Services.t)
    (fetcherHealth n8nHealth postgresCheck : list N) : Prop :=
  (healthy (Services.fetcher s) = true ↔ contains fetcherHealth (lit "ok")) ∧
  (healthy (Services.n8n s) = true ↔ ¬ contains n8nHealth (lit "failed")) ∧
  (healthy (Services.postgres s) = true ↔
   contains postgresCheck (lit "accepting connections")) ∧
  Forall (λ service, running service = healthy service)
         [Services.postgres s; Services.n8n s; Services.ntfy s; Services.fetcher s] ∧
  map url [Services.postgres s; Services.n8n s; Services.ntfy s; Services.fetcher s]
  = [None; Some (local_url (Ports.n8n ports)); Some (local_url (Ports.ntfy ports));
     Some (local_url (Ports.fetcher ports))].

Lemma status_of_judged ports fetcherHealth ntfyHealth n8nHealth postgresCheck :
  judged ports (status_of ports fetcherHealth ntfyHealth n8nHealth postgresCheck)
         fetcherHealth n8nHealth postgresCheck.
Proof.
  unfold judged, status_of. cbn [Services.fetcher Services.n8n Services.postgres
                                 Services.ntfy healthy running url map].
  rewrite negb_true_iff, !includes_contains, includes_not_contains.
  repeat split; try done. by repeat constructor.
Qed.

(** X16: in both routines the fetcher counts as healthy exactly when the
    body of its health request contains [ok] anywhere, n8n exactly when
    the output of its probe does not contain [failed], and the database
    exactly when [pg_isready] printed [accepting connections]; the probes
    are those the session shows; no service is ever reported running but
    unhealthy or healthy but not running; and the database has no URL
    while the other three have the loopback URL of their port. *)
Theorem probes_decide_status B config ports st :
  (∀ s st',
     checkVPSServices E config ports st = (Ok s, st') →
     ∃ fetcherHealth ntfyHealth n8nHealth postgresCheck,
       probed ports (new_events st st') fetcherHealth ntfyHealth n8nHealth postgresCheck ∧
       judged ports s fetcherHealth n8nHealth postgresCheck) ∧
  (∀ r st',
     deployToVPS E B config ports st = (Ok r, st') → success r = true →
     ∃ fetcherHealth ntfyHealth n8nHealth postgresCheck,
       probed ports (new_events st st') fetcherHealth ntfyHealth n8nHealth postgresCheck ∧
       judged ports (services r) fetcherHealth n8nHealth postgresCheck).
Proof.
  split.
  - intros s st' Hrun.
    apply checkVPSServices_probes in Hrun as (new & Hnew & Hres).
    destruct Hres as (fo & no & n8o & po & sn & Hprobed & _ & ->).
    exists fo, no, n8o, po. rewrite (new_events_app _ _ _ Hnew).
    split; [exact Hprobed | apply status_of_judged].
  - intros r st' Hrun Hsuccess.
    apply deployToVPS_success in Hrun as (st1 & new1 & Hnew1 & Hsteps); [|done].
    apply deploy_steps_probes in Hsteps
      as (new & fo & no & n8o & po & sn & Hnew & Hprobed & _ & ->).
    exists fo, no, n8o, po.
    rewrite Hnew1, <- app_assoc in Hnew. rewrite (new_events_app _ _ _ Hnew).
    split; [|apply status_of_judged].
    destruct Hprobed as (Hf & Hn & Hn8 & Hp).
    repeat split; apply elem_of_app; by right.
Qed.

End Heuristics.

(** * More of the executor: on concrete hosts *)

Section DeployedHosts.

Local Abbreviation first_run :=
  (deployToVPS healthy_host sample_bundle sample_config default_ports fresh).

Local Abbreviation second_run :=
  (deployToVPS healthy_host sample_bundle sample_config default_ports first_run.2).

Lemma healthy_host_exact : exact_test healthy_host.
Proof.
  intros st out. unfold healthy_host, host_env, never. cbn [exec_reply].
  rewrite bool_decide_eq_true_2 by done.
  destruct (files st !! env_path); intros [= <-]; by vm_compute.
Qed.

(** X14 on [healthy_host]: the first deployment leaves the six files of
    the bundle. *)
Lemma deployed_bundle_witness :
  files first_run.2 !! lit "/opt/rentalmonitor/docker-compose.yml"
    = Some (lit "services: 5678") ∧
  files first_run.2 !! lit "/opt/rentalmonitor/fetcher/package.json" = Some (lit "{}").
Proof.
  set (r := returned no_result first_run.1).
  assert (Hreturned : first_run.1 = Ok r) by (vm_compute; reflexivity).
  destruct (deployed_bundle healthy_host sample_bundle sample_config default_ports
              fresh r first_run.2) as (Hcompose & _ & _ & Hpackage & _).
  - by apply returned_run.
  - vm_compute; reflexivity.
  - split; [exact Hcompose | exact Hpackage].
Defined.

(** X15 on [healthy_host]: the first deployment finds no secrets file and
    leaves one; the second finds that one and leaves it. *)
Lemma secrets_file_present_witness :
  is_Some (files first_run.2 !! env_path) ∧
  files second_run.2 !! env_path = files first_run.2 !! env_path.
Proof.
  set (r := returned no_result first_run.1).
  assert (Hreturned : first_run.1 = Ok r) by (vm_compute; reflexivity).
  pose proof (secrets_file_present healthy_host sample_bundle sample_config
                default_ports fresh r first_run.2 healthy_host_exact
                (returned_run _ _ Hreturned)) as Hfirst.
  change (files fresh !! env_path) with (@None (list N)) in Hfirst.
  destruct Hfirst as (s & content & _ & Hcontent); [vm_compute; reflexivity|].
  split; [by exists content|].
  set (r2 := returned no_result second_run.1).
  assert (Hreturned2 : second_run.1 = Ok r2) by (vm_compute; reflexivity).
  pose proof (secrets_file_present healthy_host sample_bundle sample_config
                default_ports first_run.2 r2 second_run.2 healthy_host_exact
                (returned_run _ _ Hreturned2)) as Hsecond.
  rewrite Hcontent in Hsecond. rewrite Hcontent. apply Hsecond.
  vm_compute; reflexivity.
Defined.

Local Abbreviation probe_run :=
  (checkVPSServices (answering (lit "broken")) sample_config default_ports fresh).

(** X16 on a host that prints [broken] for every probe: the fetcher and
    n8n count as healthy, the database does not. *)
Lemma probes_decide_status_witness :
  ∃ s, probe_run.1 = Ok s ∧
       healthy (Services.fetcher s) = true ∧
       healthy (Services.n8n s) = true ∧
       healthy (Services.postgres s) = false.
Proof.
  set (s := returned all_down probe_run.1).
  assert (Hreturned : probe_run.1 = Ok s) by (vm_compute; reflexivity).
  exists s. split; [exact Hreturned|].
  destruct (probes_decide_status (answering (lit "broken")) sample_bundle
              sample_config default_ports fresh) as [Hcheck _].
  destruct (Hcheck s probe_run.2 (returned_run _ _ Hreturned))
    as (fo & no & n8o & po & Hprobed & Hfetcher & Hn8n & Hpostgres & _).
  destruct Hprobed as (Hf & _ & Hn8 & Hp).
  assert (Hanswered : Forall (answered (lit "broken")) (new_events fresh probe_run.2)).
  { vm_compute. repeat constructor. }
  rewrite Forall_forall in Hanswered.
  apply Hanswered in Hf, Hn8, Hp. simpl in Hf, Hn8, Hp.
  injection Hf as ->. injection Hn8 as ->. injection Hp as ->.
  split; [apply Hfetcher, includes_contains; vm_compute; reflexivity|].
  split; [apply Hn8n, includes_not_contains; vm_compute; reflexivity|].
  apply not_true_is_false. rewrite Hpostgres, <- includes_not_contains.
  vm_compute; reflexivity.
Defined.

End DeployedHosts.

(** * More of the executor: what the logs hold *)

Section Logging.

Context (E : Env).

Local Opaque lit.

(** The fixed messages of [deployToVPS]. *)
Definition notices : list (list N) :=
  [lit "Connected to VPS";
   lit "Creating directory structure...";
   lit "Uploading docker-compose.yml...";
   lit "Uploading .env.example...";
   lit "Creating .env with generated secrets...";
   lit ".env already exists, keeping existing configuration";
   lit "Uploading fetcher service...";
   lit "Creating README...";
   lit "Starting Docker Compose stack...";
   lit "Waiting for services to start...";
   lit "Checking service health..."].

(** A command of [new] printed [text]. *)
Definition printed (new : list Event) (text : list N) : Prop :=
  ∃ command, Exec command (Ok text) ∈ new.

(** What a log entry can be, given the operations of the call: a fixed
    message, what a command printed, or the report of the error of an
    operation that failed. *)
Definition told (new : list Event) (text : list N) : Prop :=
  text ∈ notices ∨ printed new text ∨
  ∃ e msg, e ∈ new ∧ failure e = Some msg ∧ text = lit "Error: " ++ msg.

Lemma printed_grows new e text : printed new text → printed (new ++ [e]) text.
Proof. intros [command Hin]. exists command. apply elem_of_app. by left. Qed.

Lemma told_grows new e text : told new text → told (new ++ [e]) text.
Proof.
  intros [?|[?|(e' & msg & Hin & ? & ?)]]; [by left | right; left; by apply printed_grows|].
  right. right. exists e', msg. split; [apply elem_of_app; by left | done].
Qed.

(** The state of a call that began at history [base]: every log entry is
    [told], and the texts of [outputs] were printed by its commands. *)
Definition logged (base : list Event) (outputs : list (list N)) (st : State) : Prop :=
  ∃ new, history st = base ++ new ∧
         Forall (told new) (log_array st) ∧ Forall (printed new) outputs.

(** The same when an operation has failed with [msg]. *)
Definition thrown (base : list Event) (msg : list N) (st : State) : Prop :=
  ∃ new, history st = base ++ new ∧
         Forall (told new) (log_array st) ∧ ∃ e, e ∈ new ∧ failure e = Some msg.

(** The result that is returned holds only such entries. *)
Definition reported (base : list Event) (r : DeployResult) (st : State) : Prop :=
  ∃ new, history st = base ++ new ∧ Forall (told new) (logs r).

(** From a state that satisfies [P], [m] returns into [Q] or throws into
    [R]. *)
Definition triple {A} (P : State → Prop) (m : M A)
    (Q : A → State → Prop) (R : list N → State → Prop) : Prop :=
  ∀ st, P st →
    match m st with
    | (Ok a, st') => Q a st'
    | (Throw msg, st') => R msg st'
    end.

Lemma triple_bind {A B} P (m : M A) (k : A → M B) Q Q' R :
  triple P m Q R → (∀ a, triple (Q a) (k a) Q' R) → triple P (bind m k) Q' R.
Proof.
  intros Hm Hk st HP. unfold bind. specialize (Hm st HP).
  destruct (m st) as [[a|msg] st1]; [by apply Hk | done].
Qed.

Lemma triple_try_catch {A} P (body : M A) handler Q R R' :
  triple P body Q R → (∀ msg, triple (R msg) (handler msg) Q R') →
  triple P (try_catch body handler) Q R'.
Proof.
  intros Hbody Hhandler st HP. unfold try_catch. specialize (Hbody st HP).
  destruct (body st) as [[a|msg] st1]; [done | by apply Hhandler].
Qed.

Lemma logged_record base outputs e st :
  logged base outputs st → logged base outputs (record e st).
Proof.
  intros (new & Hnew & Hlogs & Houtputs). exists (new ++ [e]). simpl.
  rewrite Hnew, app_assoc. split; [done|]. split.
  - eapply Forall_impl; [exact Hlogs | intros text; apply told_grows].
  - eapply Forall_impl; [exact Houtputs | intros text; apply printed_grows].
Qed.

Lemma thrown_record base e msg st :
  logged base [] st → failure e = Some msg → thrown base msg (record e st).
Proof.
  intros (new & Hnew & Hlogs & _) Hfailure. exists (new ++ [e]). simpl.
  rewrite Hnew, app_assoc. split; [done|]. split.
  - eapply Forall_impl; [exact Hlogs | intros text; apply told_grows].
  - exists e. split; [|done]. apply elem_of_app. right. by apply list_elem_of_here.
Qed.

Lemma logged_forget base outputs st : logged base outputs st → logged base [] st.
Proof. intros (new & ? & ? & _). exists new. by repeat split. Qed.

Lemma triple_execCommand base outputs command :
  triple (logged base outputs) (execCommand E command)
         (λ out, logged base (out :: outputs)) (thrown base).
Proof.
  intros st Hst. unfold execCommand. cbv zeta.
  destruct (exec_reply E st command) as [out|msg].
  - destruct (logged_record base outputs (Exec command (Ok out)) st Hst)
      as (new & Hnew & Hlogs & Houtputs).
    exists new. split; [done|]. split; [done|]. apply Forall_cons_2; [|done].
    destruct Hst as (new0 & Hnew0 & _). simpl in Hnew. rewrite Hnew0, <- app_assoc in Hnew.
    apply app_inv_head in Hnew as <-. exists command.
    apply elem_of_app. right. by apply list_elem_of_here.
  - apply thrown_record; [by eapply logged_forget | done].
Qed.

Lemma triple_uploadFile base outputs content path :
  triple (logged base outputs) (uploadFile E content path)
         (λ _, logged base outputs) (thrown base).
Proof.
  intros st Hst. unfold uploadFile. cbv zeta.
  destruct (upload_reply E st path content) as [u|msg].
  - by apply (logged_record base outputs (Upload path content (Ok u)) st).
  - by apply (thrown_record base (Upload path content (Throw msg)) msg st);
      [eapply logged_forget|].
Qed.

Lemma triple_event base outputs e R :
  triple (logged base outputs) (λ st, (Ok tt, record e st)) (λ _, logged base outputs) R.
Proof. intros st Hst. by apply logged_record. Qed.

Lemma triple_plain {A} base outputs (f : State → A) R :
  triple (logged base outputs) (λ st, (Ok (f st), st)) (λ _, logged base outputs) R.
Proof. by intros st Hst. Qed.

Lemma triple_logs_push base outputs text R :
  text ∈ notices ∨ text ∈ outputs →
  triple (logged base outputs) (logs_push text) (λ _, logged base outputs) R.
Proof.
  intros Htext st (new & Hnew & Hlogs & Houtputs). exists new. simpl.
  split; [done|]. split; [|done]. apply Forall_app. split; [done|].
  apply Forall_singleton. destruct Htext as [?|Hin]; [by left|].
  right. left. rewrite Forall_forall in Houtputs. by apply Houtputs.
Qed.

Lemma triple_result base outputs (result : list (list N) → DeployResult) R :
  (∀ entries, logs (result entries) = entries) →
  triple (logged base outputs) (bind read_logs (λ entries, ret (result entries)))
         (reported base) R.
Proof.
  intros Hresult st (new & Hnew & Hlogs & _). exists new. by rewrite Hresult.
Qed.

Local Ltac listed :=
  solve [repeat first [apply list_elem_of_here | apply list_elem_of_further]].

Local Ltac noticed := first [left; unfold notices; listed | right; listed].

Local Ltac logged_steps :=
  repeat first
    [ by apply triple_result
    | eapply triple_bind; [|intros ?]
    | apply triple_execCommand | apply triple_uploadFile
    | apply triple_logs_push; noticed
    | apply (triple_event _ _ ClientEnd) | apply triple_event
    | apply triple_plain
    | case_decide ].

Lemma triple_deploy_steps B ports base :
  triple (logged base []) (deploy_steps E B ports) (reported base) (thrown base).
Proof. unfold deploy_steps. logged_steps. Qed.

Lemma triple_deploy_failed base msg R :
  triple (thrown base msg) (deploy_failed msg) (reported base) R.
Proof.
  intros st (new & Hnew & Hlogs & e & Hin & Hfailure). rewrite deploy_failed_run.
  exists (new ++ [ClientEnd]). simpl. rewrite Hnew, app_assoc. split; [done|].
  apply Forall_app. split.
  - eapply Forall_impl; [exact Hlogs | intros text; apply told_grows].
  - apply Forall_singleton. right. right. exists e, msg.
    split; [apply elem_of_app; by left | done].
Qed.

(** X17: every entry of the logs a deployment returns, successful or
    not, is one of the eleven fixed messages, something a command of this
    call printed, or [Error: ] with the message of an operation of this
    call that failed.  So the logs hold nothing of the generated secrets
    file, nor of any file sent, unless the host prints it. *)
Theorem logs_only_told B config ports st r st' :
  deployToVPS E B config ports st = (Ok r, st') →
  Forall (told (new_events st st')) (logs r) ∧ logs r = log_array st'.
Proof.
  intros Hrun.
  assert (Htriple : triple (λ s, s = st) (deployToVPS E B config ports)
                           (reported (history st)) (λ _ _, True)).
  { unfold deployToVPS. eapply triple_bind; [|intros ?; eapply triple_bind; [|intros ?]].
    - instantiate (1 := λ _, logged (history st) []).
      intros s ->. exists []. simpl. by rewrite app_nil_r.
    - instantiate (1 := λ _, logged (history st) []).
      intros s Hs. unfold connectSSH. cbv zeta.
      destruct (connect_reply E s config) as [u|msg]; [|done].
      by apply logged_record.
    - eapply triple_try_catch; [apply triple_deploy_steps|].
      intros msg. apply triple_deploy_failed. }
  specialize (Htriple st eq_refl). rewrite Hrun in Htriple.
  destruct Htriple as (new & Hnew & Hlogs).
  rewrite (new_events_app _ _ _ Hnew). split; [done|].
  clear Hlogs Hnew. revert Hrun. rewrite deployToVPS_run. cbv zeta.
  destruct (connect_reply E _ config) as [u|msg]; [|done].
  unfold try_catch.
  destruct (deploy_steps E B ports _) as [[r0|msg] st1] eqn:Hsteps.
  - intros [= -> ->]. revert Hsteps. unfold deploy_steps.
    generalize (record (Connect config (Ok u))
                  {| files := files st; history := history st; log_array := [] |}).
    intros s Hsteps.
    repeat (let Hm := fresh "Hm" in
            apply bind_Ok in Hsteps as (? & ? & Hm & Hsteps); cbv beta zeta in Hsteps;
            lazymatch type of Hm with
            | read_logs _ = _ => apply read_logs_Ok in Hm as [-> ->]
            | _ => clear Hm
            end).
    by apply ret_Ok in Hsteps as [-> ->].
  - rewrite deploy_failed_run. by intros [= <- <-].
Qed.

End Logging.

Section LoggedHosts.

Local Abbreviation failed_run :=
  (deployToVPS failing_host sample_bundle sample_config default_ports fresh).

(** X17 on [failing_host]: the logs end with the report of the error. *)
Lemma logs_only_told_witness :
  ∃ r, failed_run.1 = Ok r ∧
       last (logs r) = Some (lit "Error: Channel open failure") ∧
       Forall (told (new_events fresh failed_run.2)) (logs r).
Proof.
  set (r := returned no_result failed_run.1).
  assert (Hreturned : failed_run.1 = Ok r) by (vm_compute; reflexivity).
  exists r. split; [exact Hreturned|]. split; [vm_compute; reflexivity|].
  apply (logs_only_told failing_host sample_bundle sample_config default_ports
           fresh r failed_run.2).
  by apply returned_run.
Defined.

End LoggedHosts.

(** * The compose manifest *)

(** [generateDockerCompose] of deploy.ts.  The template escapes the
    variables that docker compose is to expand ([\${...}]); they are
    ordinary text of the result.  Only the three port mappings are filled
    in. *)
Module Manifest.

Definition generateDockerCompose (ports : Ports.t) : jstring :=
  (lit "version: '3.8'

services:
  postgres:
    image: postgres:15-alpine
    container_name: rentalmonitor_postgres
    restart: unless-stopped
    environment:
      POSTGRES_USER: rentalmonitor
      POSTGRES_PASSWORD: ${POSTGRES_PASSWORD}
      POSTGRES_DB: rentalmonitor
    volumes:
      - rentalmonitor_postgres_data:/var/lib/postgresql/data
    networks:
      - rentalmonitor_net
    healthcheck:
      test: [" ++ dquote ++ lit "CMD-SHELL" ++ dquote ++ lit ", " ++ dquote ++ lit "pg_isready -U rentalmonitor" ++ dquote ++ lit "]
      interval: 10s
      timeout: 5s
      retries: 5

  n8n:
    image: n8nio/n8n:latest
    container_name: rentalmonitor_n8n
    restart: unless-stopped
    ports:
      - " ++ dquote ++ lit "127.0.0.1:") ++
  toString (Ports.n8n ports) ++
  (lit ":5678" ++ dquote ++ lit "
    environment:
      - N8N_BASIC_AUTH_ACTIVE=true
      - N8N_BASIC_AUTH_USER=${N8N_USER}
      - N8N_BASIC_AUTH_PASSWORD=${N8N_PASSWORD}
      - N8N_ENCRYPTION_KEY=${N8N_ENCRYPTION_KEY}
      - DB_TYPE=postgresdb
      - DB_POSTGRESDB_HOST=postgres
      - DB_POSTGRESDB_PORT=5432
      - DB_POSTGRESDB_DATABASE=rentalmonitor
      - DB_POSTGRESDB_USER=rentalmonitor
      - DB_POSTGRESDB_PASSWORD=${POSTGRES_PASSWORD}
      - GENERIC_TIMEZONE=Europe/Amsterdam
      - N8N_HOST=${N8N_HOST}
      - N8N_PROTOCOL=https
      - WEBHOOK_URL=${WEBHOOK_URL}
    volumes:
      - rentalmonitor_n8n_data:/home/node/.n8n
    networks:
      - rentalmonitor_net
    depends_on:
      postgres:
        condition: service_healthy
    healthcheck:
      test: [" ++ dquote ++ lit "CMD" ++ dquote ++ lit ", " ++ dquote ++ lit "wget" ++ dquote ++ lit ", " ++ dquote ++ lit "--spider" ++ dquote ++ lit ", " ++ dquote ++ lit "-q" ++ dquote ++ lit ", " ++ dquote ++ lit "http://localhost:5678/healthz" ++ dquote ++ lit "]
      interval: 30s
      timeout: 10s
      retries: 3

  ntfy:
    image: binwiederhier/ntfy:latest
    container_name: rentalmonitor_ntfy
    restart: unless-stopped
    ports:
      - " ++ dquote ++ lit "127.0.0.1:") ++
  toString (Ports.ntfy ports) ++
  (lit ":80" ++ dquote ++ lit "
    command:
      - serve
    volumes:
      - rentalmonitor_ntfy_cache:/var/cache/ntfy
      - rentalmonitor_ntfy_data:/var/lib/ntfy
    networks:
      - rentalmonitor_net
    healthcheck:
      test: [" ++ dquote ++ lit "CMD" ++ dquote ++ lit ", " ++ dquote ++ lit "wget" ++ dquote ++ lit ", " ++ dquote ++ lit "--spider" ++ dquote ++ lit ", " ++ dquote ++ lit "-q" ++ dquote ++ lit ", " ++ dquote ++ lit "http://localhost:80/v1/health" ++ dquote ++ lit "]
      interval: 30s
      timeout: 10s
      retries: 3

  fetcher:
    build:
      context: ./fetcher
      dockerfile: Dockerfile
    container_name: rentalmonitor_fetcher
    restart: unless-stopped
    ports:
      - " ++ dquote ++ lit "127.0.0.1:") ++
  toString (Ports.fetcher ports) ++
  (lit ":3001" ++ dquote ++ lit "
    environment:
      - X_FETCHER_SECRET=${FETCHER_SECRET}
      - PORT=3001
    networks:
      - rentalmonitor_net
    healthcheck:
      test: [" ++ dquote ++ lit "CMD" ++ dquote ++ lit ", " ++ dquote ++ lit "wget" ++ dquote ++ lit ", " ++ dquote ++ lit "--spider" ++ dquote ++ lit ", " ++ dquote ++ lit "-q" ++ dquote ++ lit ", " ++ dquote ++ lit "http://localhost:3001/health" ++ dquote ++ lit "]
      interval: 30s
      timeout: 10s
      retries: 3

volumes:
  rentalmonitor_postgres_data:
  rentalmonitor_n8n_data:
  rentalmonitor_ntfy_cache:
  rentalmonitor_ntfy_data:

networks:
  rentalmonitor_net:
    name: rentalmonitor_net
    driver: bridge
").

End Manifest.

Section ComposeManifest.

(** A service block from its container name to the key after [ports:]:
    the one published port, bound to the loopback address. *)
Definition published (name : string) (p : Z) (inner next : string) : list N :=
  (lit "container_name: rentalmonitor_" ++ lit name ++ [10%N] ++
   lit "    restart: unless-stopped" ++ [10%N] ++
   lit "    ports:" ++ [10%N] ++
   lit "      - " ++ dquote ++ lit "127.0.0.1:") ++
  toString p ++
  (lit ":" ++ lit inner ++ dquote ++ [10%N] ++ lit "    " ++ lit next ++ lit ":" ++ [10%N]).

Local Ltac count_compose :=
  unfold Manifest.generateDockerCompose;
  repeat (rewrite occurrences_hole;
          [ | done
            | first [apply toString_nonempty | done]
            | first [by apply toString_foreign
                    | apply (bool_decide_unpack _); by vm_compute] ]);
  by vm_compute.

Lemma compose_ports_keys ports :
  occurrences (lit "ports:") (Manifest.generateDockerCompose ports) = 3%nat.
Proof. count_compose. Qed.

Local Ltac find_published :=
  unfold Manifest.generateDockerCompose, published;
  repeat first
    [ solve [ apply contains_hole;
              [ apply (bool_decide_unpack _); by vm_compute
              | first [ apply (bool_decide_unpack _); by vm_compute
                      | apply prefix_app_r, (bool_decide_unpack _); by vm_compute ] ] ]
    | apply contains_skip ].

Lemma compose_published ports :
  contains (Manifest.generateDockerCompose ports) (published "n8n" (Ports.n8n ports) "5678" "environment") ∧
  contains (Manifest.generateDockerCompose ports) (published "ntfy" (Ports.ntfy ports) "80" "command") ∧
  contains (Manifest.generateDockerCompose ports)
           (published "fetcher" (Ports.fetcher ports) "3001" "environment").
Proof. split; [|split]; find_published. Qed.

(** X18: for every port assignment the compose manifest has exactly three
    [ports:] keys: those of the containers of n8n, ntfy and the fetcher.
    Each holds one mapping, which binds the assigned port on 127.0.0.1 to
    the port the service listens on (5678, 80, 3001), and the next key of
    the service follows it.  So the database is not published on the host
    at all, and nothing is published on another address. *)
Theorem compose_publishes_on_loopback ports :
  let manifest := Manifest.generateDockerCompose ports in
  occurrences (lit "ports:") manifest = 3%nat ∧
  contains manifest (published "n8n" (Ports.n8n ports) "5678" "environment") ∧
  contains manifest (published "ntfy" (Ports.ntfy ports) "80" "command") ∧
  contains manifest (published "fetcher" (Ports.fetcher ports) "3001" "environment").
Proof.
  cbv zeta. split; [apply compose_ports_keys | apply compose_published].
Qed.

(** X19: the port chosen for the database is used by nothing that takes
    the assignment: the compose manifest, both proxy snippets, the three
    probe commands that name a port and the whole of [checkVPSServices]
    are the same for two assignments that differ only in it. *)
Theorem postgres_port_unused E config p q n8n ntfy fetcher :
  let ports1 := Ports.mk p n8n ntfy fetcher in
  let ports2 := Ports.mk q n8n ntfy fetcher in
  Manifest.generateDockerCompose ports1 = Manifest.generateDockerCompose ports2 ∧
  generateNginxConfig ports1 = generateNginxConfig ports2 ∧
  generateCaddyConfig ports1 = generateCaddyConfig ports2 ∧
  fetcher_health_command ports1 = fetcher_health_command ports2 ∧
  ntfy_health_command ports1 = ntfy_health_command ports2 ∧
  n8n_health_command ports1 = n8n_health_command ports2 ∧
  ∀ st, checkVPSServices E config ports1 st = checkVPSServices E config ports2 st.
Proof. cbv zeta. repeat split. Qed.

(** A line of an environment file that assigns [value] to [name]. *)
Definition assignment (name : string) (value : list N) : list N :=
  ([10%N] ++ lit name ++ lit "=") ++ value ++ [10%N].

(** A variable the manifest leaves to docker compose. *)
Definition expanded (name : string) : list N := lit "${" ++ lit name ++ lit "}".

Lemma contains_keep s post needle : contains s needle → contains (s ++ post) needle.
Proof.
  intros (before & rest & ->). exists before, (rest ++ post). by rewrite <- !app_assoc.
Qed.

Local Ltac find_assignment :=
  unfold assignment;
  repeat first
    [ solve [ apply contains_hole;
              [ apply (bool_decide_unpack _); by vm_compute
              | first [ apply (bool_decide_unpack _); by vm_compute
                      | apply prefix_app_r, (bool_decide_unpack _); by vm_compute ] ] ]
    | solve [ apply includes_contains; by vm_compute ]
    | solve [ apply contains_keep, includes_contains; by vm_compute ]
    | apply contains_skip ].

(** A code unit a rendered number can hold: a digit or the minus sign. *)
Definition numeric (c : N) : bool := is_digit c || (c =? 45)%N.

(** Some beginning of [needle] ends [s] and goes on with a numeric code
    unit: an occurrence could run from [s] into a number put after it. *)
Definition runs_on (needle s : list N) : bool :=
  existsb (λ k, match needle !! k with
                | Some c => numeric c && starts_with (rev (take k needle)) (rev s)
                | None => false
                end)
          (seq 0 (length needle)).

Lemma starts_with_long needle : ∀ u t,
  (length needle <= length u)%nat → starts_with needle (u ++ t) = starts_with needle u.
Proof.
  induction needle as [|a needle IH]; intros u t Hlen; [done|].
  destruct u as [|b u]; simpl in *; [lia|]. rewrite IH by lia. done.
Qed.

Lemma starts_with_short needle : ∀ u c t,
  (length u < length needle)%nat → starts_with needle (u ++ c :: t) = true →
  take (length u) needle = u ∧ needle !! length u = Some c.
Proof.
  induction needle as [|a needle IH]; intros u c t Hlen Hstart; simpl in *; [lia|].
  destruct u as [|b u]; simpl in *.
  - apply andb_true_iff in Hstart as [Hc _]. apply N.eqb_eq in Hc. by subst.
  - apply andb_true_iff in Hstart as [Hb Hstart]. apply N.eqb_eq in Hb. subst b.
    destruct (IH u c t) as [Htake Hlookup]; [lia|done|]. by rewrite Htake.
Qed.

Lemma runs_on_false needle s k c :
  runs_on needle s = false → needle !! k = Some c → numeric c = true →
  ¬ take k needle `suffix_of` s.
Proof.
  unfold runs_on. intros Hruns Hlookup Hnumeric [before Hs].
  apply not_true_iff_false in Hruns. apply Hruns, existsb_exists.
  exists k. split.
  - apply in_seq. apply lookup_lt_Some in Hlookup. lia.
  - rewrite Hlookup, Hnumeric. simpl. apply starts_with_prefix.
    exists (rev before). by rewrite Hs, rev_app_distr.
Qed.

Lemma runs_on_tail needle b s : runs_on needle (b :: s) = false → runs_on needle s = false.
Proof.
  unfold runs_on. intros Hruns. apply not_true_iff_false. intros Hs.
  apply not_true_iff_false in Hruns. apply Hruns.
  apply existsb_exists in Hs as (k & Hk & Hs). apply existsb_exists. exists k.
  split; [done|]. destruct (needle !! k) as [c|]; [|done].
  apply andb_true_iff in Hs as [Hc Hs]. rewrite Hc. simpl.
  apply starts_with_prefix in Hs as [rest Hs]. apply starts_with_prefix.
  exists (rest ++ [b]). simpl. by rewrite Hs, <- app_assoc.
Qed.

(** A number put between two texts adds no occurrence of [needle] and takes
    none away, as long as no occurrence can run from the first text into
    the number.  Unlike [occurrences_hole] this counts needles that hold
    digits themselves. *)
Lemma occurrences_gap needle s d post :
  needle ≠ [] → d ≠ [] → Forall (λ c, numeric c = true) d →
  runs_on needle s = false →
  occurrences needle (s ++ d ++ post) = (occurrences needle s + occurrences needle post)%nat.
Proof.
  intros Hne Hd Hnumeric. induction s as [|b s IH]; intros Hruns.
  - destruct needle as [|a needle]; [done|]. clear Hne.
    assert (Ha : numeric a = false).
    { apply not_true_iff_false. intros Ha.
      by apply (runs_on_false (a :: needle) [] 0%nat a Hruns); [| |exists []]. }
    simpl. clear Hd.
    induction Hnumeric as [|c d Hc _ IHd]; [simpl; lia|].
    cbn [app occurrences starts_with].
    assert (Hac : (a =? c)%N = false).
    { apply N.eqb_neq. intros ->. congruence. }
    rewrite Hac. simpl in *. lia.
  - specialize (IH (runs_on_tail _ _ _ Hruns)).
    change ((b :: s) ++ d ++ post) with (b :: (s ++ d ++ post)).
    cbn [occurrences]. rewrite IH.
    change (b :: (s ++ d ++ post)) with ((b :: s) ++ d ++ post).
    assert (Hsame : starts_with needle ((b :: s) ++ d ++ post) = starts_with needle (b :: s)).
    { destruct (Nat.le_gt_cases (length needle) (length (b :: s))) as [Hlong|Hshort].
      - by apply starts_with_long.
      - destruct d as [|c d]; [done|]. apply Forall_cons in Hnumeric as [Hc _].
        destruct (starts_with needle ((b :: s) ++ (c :: d) ++ post)) eqn:Hstart.
        + apply starts_with_short in Hstart as [Htake Hlookup]; [|done].
          exfalso. apply (runs_on_false needle (b :: s) _ c Hruns Hlookup Hc).
          rewrite Htake. by exists [].
        + symmetry. apply not_true_iff_false. intros Hin.
          apply starts_with_prefix in Hin as [rest Hin].
          apply (f_equal length) in Hin. rewrite length_app in Hin. lia. }
    rewrite Hsame. lia.
Qed.

Lemma toString_numeric n : Forall (λ c, numeric c = true) (toString n).
Proof.
  eapply Forall_impl; [apply toString_chars|]. intros c [Hc| ->]; [|done].
  unfold numeric. by rewrite Hc.
Qed.

Local Ltac count_names :=
  unfold Manifest.generateDockerCompose, expanded;
  repeat (rewrite (occurrences_gap _ _ (toString _));
          [ | by vm_compute | apply toString_nonempty | apply toString_numeric
            | by vm_compute ]);
  by vm_compute.

(** The variables the manifest leaves to docker compose. *)
Definition variables : list string :=
  ["POSTGRES_PASSWORD"; "N8N_USER"; "N8N_PASSWORD"; "N8N_ENCRYPTION_KEY";
   "N8N_HOST"; "WEBHOOK_URL"; "FETCHER_SECRET"]%string.

Lemma compose_expansions ports :
  occurrences (lit "${") (Manifest.generateDockerCompose ports) = 8%nat.
Proof. count_compose. Qed.

Lemma compose_expands ports :
  map (λ name, occurrences (expanded name) (Manifest.generateDockerCompose ports)) variables
  = [2; 1; 1; 1; 1; 1; 1]%nat.
Proof.
  unfold variables. cbn [map]. repeat f_equal; count_names.
Qed.

(** X20: the secrets file that [generateEnvFile] makes assigns every
    variable the compose manifest leaves to docker compose.  The manifest
    has eight expansions, that is eight places where [${] occurs, and they
    are all accounted for: [${POSTGRES_PASSWORD}] occurs there twice and
    the expansion of each of N8N_USER, N8N_PASSWORD, N8N_ENCRYPTION_KEY,
    N8N_HOST, WEBHOOK_URL and FETCHER_SECRET once, which makes eight.  The
    file has a line that assigns each of the seven: the four secrets to the
    four tokens it drew, in the order drawn, and the other three to fixed
    texts, among them the webhook address, which names port 5678 whatever
    port was assigned. *)
Theorem env_file_assigns_expansions E st ports :
  let manifest := Manifest.generateDockerCompose ports in
  occurrences (lit "${") manifest = 8%nat ∧
  map (λ name, occurrences (expanded name) manifest) variables
  = [2; 1; 1; 1; 1; 1; 1]%nat ∧
  ∃ content,
    generateEnvFile E st = (Ok content, st) ∧
    contains content (assignment "POSTGRES_PASSWORD" (nanoid E st 0%nat 32)) ∧
    contains content (assignment "N8N_USER" (lit "admin")) ∧
    contains content (assignment "N8N_PASSWORD" (nanoid E st 1%nat 24)) ∧
    contains content (assignment "N8N_ENCRYPTION_KEY" (nanoid E st 2%nat 32)) ∧
    contains content (assignment "N8N_HOST" (lit "localhost")) ∧
    contains content (assignment "WEBHOOK_URL" (lit "http://localhost:5678")) ∧
    contains content (assignment "FETCHER_SECRET" (nanoid E st 3%nat 32)).
Proof.
  cbv zeta. split; [apply compose_expansions|]. split; [apply compose_expands|].
  eexists. split; [reflexivity|]. repeat split; find_assignment.
Qed.

End ComposeManifest.

(** * The HTTP routes ([routes.ts]) *)

(** ** The server *)

(** [process.env]: a variable is absent or holds a string. *)
Record ProcessEnv := {
  ADMIN_API_KEY : option jstring;
  VPS_PERSONAL_IP : option jstring;
  VPS_PERSONAL_USER : option jstring;
  VPS_SSH_PRIVATE_KEY : option jstring
}.

(** The truth value of a variable: [undefined] and the empty string are
    falsy. *)
Definition given (variable : option jstring) : bool :=
  match variable with
  | Some text => truthy text
  | None => false
  end.

(** The fields of a [PreflightResult] the routes read. *)
Module PreflightResult.
Record t := mk {
  timestamp : jstring;
  reverseProxy_type : ProxyType;
  safePlan : SafePlan
}.
End PreflightResult.

Module DeploymentStatus.
Record t := mk {
  status : jstring;
  message : jstring;
  lastScan : option jstring;
  lastDeploy : option jstring;
  services : option Services.t
}.
End DeploymentStatus.

(** The module-level variables of routes.ts. *)
Record Server := {
  lastGitHubSync : Z;
  lastPreflightResult : option PreflightResult.t;
  deploymentStatus : DeploymentStatus.t
}.

(** The state of a server that has just started. *)
Definition started : Server :=
  {| lastGitHubSync := 0;
     lastPreflightResult := None;
     deploymentStatus :=
       DeploymentStatus.mk (lit "idle") (lit "Ready to scan VPS") None None None |}.

(** What a handler passes to [res.json]. *)
Inductive Body :=
| ErrorBody (error : jstring)
| RetryBody (error : jstring) (retryAfter : Z)
| ResultBody (result : DeployResult)
| ServicesBody (services : Services.t)
| ScanBody (result : PreflightResult.t)
| ProxyBody (proxyType : ProxyType) (configSnippet : option jstring)
| StatusBody (status : DeploymentStatus.t) (scan : option PreflightResult.t)
             (secretsConfigured : bool)
| SyncBody (result : jstring).

(** [res.status(statusCode).json(json)]; [res.json] alone answers 200. *)
Record Response := {
  statusCode : Z;
  json : Body
}.

(** What a middleware does: it answers, or calls [next()]. *)
Inductive Verdict :=
| Respond (response : Response)
| Next.

(** ** The middlewares *)

Definition requireAdminAuth (adminKey providedKey : option jstring) : Verdict :=
  if negb (given adminKey) then
    Respond {| statusCode := 500;
               json := ErrorBody (lit "ADMIN_API_KEY not configured on server") |}
  else if negb (given providedKey) || negb (bool_decide (providedKey = adminKey)) then
    Respond {| statusCode := 401;
               json := ErrorBody (lit "Unauthorized - invalid or missing admin key") |}
  else Next.

(** The middleware mounted on [/api]; [path] is the path below the mount
    point and [providedKey] the header [x-admin-key]. *)
Definition api_gate (penv : ProcessEnv) (path : jstring) (providedKey : option jstring)
  : Verdict :=
  if bool_decide (path = lit "/health") then Next
  else requireAdminAuth (ADMIN_API_KEY penv) providedKey.

Definition SYNC_COOLDOWN_MS : Z := 10 * 60 * 1000.

(** [Math.ceil(x / 1000)] for an integer [x].  The clock counts whole
    milliseconds, far below 2^53, so the quotient of the source is the
    exact one up to a rounding that cannot cross an integer. *)
Definition ceil_thousandth (x : Z) : Z := - ((- x) / 1000).

Definition rateLimitGitHubSync (lastGitHubSync now : Z) : Verdict :=
  let timeSinceLastSync := now - lastGitHubSync in
  if (0 <? lastGitHubSync) && (timeSinceLastSync <? SYNC_COOLDOWN_MS) then
    let waitSeconds := ceil_thousandth (SYNC_COOLDOWN_MS - timeSinceLastSync) in
    Respond {| statusCode := 429;
               json := RetryBody (lit "Rate limited. Please wait " ++ toString waitSeconds ++
                                  lit " seconds before syncing again.")
                                 waitSeconds |}
  else Next.

(** ** The secrets *)

(** [Array.prototype.join]. *)
Definition Array_join (sep : jstring) (items : list jstring) : jstring :=
  match items with
  | [] => []
  | first :: others => first ++ flat_map (λ item, sep ++ item) others
  end.

Definition getSSHConfig (penv : ProcessEnv) : Reply SSHConfig :=
  let host := VPS_PERSONAL_IP penv in
  let username := VPS_PERSONAL_USER penv in
  let privateKey := VPS_SSH_PRIVATE_KEY penv in
  if negb (given host) || negb (given username) || negb (given privateKey) then
    let missing :=
      push_if (negb (given privateKey)) (lit "VPS_SSH_PRIVATE_KEY")
      (push_if (negb (given username)) (lit "VPS_PERSONAL_USER")
      (push_if (negb (given host)) (lit "VPS_PERSONAL_IP") [])) in
    Throw (lit "Missing required secrets: " ++ Array_join (lit ", ") missing)
  else
    Ok {| host := default [] host;
          username := default [] username;
          privateKey := default [] privateKey |}.

(** [secretsConfigured] of [/api/status]. *)
Definition secretsConfigured (penv : ProcessEnv) : bool :=
  given (VPS_PERSONAL_IP penv) && given (VPS_PERSONAL_USER penv) &&
  given (VPS_SSH_PRIVATE_KEY penv).

(** ** The handlers

    A handler is followed from the request to its answer: it returns the
    answer, the module-level variables as it leaves them, and the remote
    state.  The status it shows while it waits for the remote call
    ([scanning], [deploying]) is assigned as in the source and replaced
    before the handler ends, on every path. *)

Definition answer (code : Z) (body : Body) : Response :=
  {| statusCode := code; json := body |}.

Definition failed_status (message : jstring) : DeploymentStatus.t :=
  DeploymentStatus.mk (lit "error") message None None None.

Definition set_status (srv : Server) (status : DeploymentStatus.t) : Server :=
  {| lastGitHubSync := lastGitHubSync srv;
     lastPreflightResult := lastPreflightResult srv;
     deploymentStatus := status |}.

Section Handlers.

Context (E : Env) (B : Bundle) (penv : ProcessEnv).

(** [runPreflightScan], of which the routes use the result only. *)
Context (runPreflightScan : SSHConfig → M PreflightResult.t).

(** [syncToGitHub] of the GitHub module: it resolves or rejects. *)
Context (syncToGitHub : Reply jstring).

(** [GET /api/status]. *)
Definition get_status (srv : Server) : Response :=
  answer 200 (StatusBody (deploymentStatus srv) (lastPreflightResult srv)
                         (secretsConfigured penv)).

(** [POST /api/preflight]. *)
Definition post_preflight (srv : Server) (st : State) : Response * Server * State :=
  match getSSHConfig penv with
  | Throw message => (answer 500 (ErrorBody message), set_status srv (failed_status message), st)
  | Ok config =>
      let srv1 :=
        set_status srv (DeploymentStatus.mk (lit "scanning") (lit "Running preflight scan...")
                                            None None None) in
      match runPreflightScan config st with
      | (Ok result, st') =>
          (answer 200 (ScanBody result),
           {| lastGitHubSync := lastGitHubSync srv1;
              lastPreflightResult := Some result;
              deploymentStatus :=
                DeploymentStatus.mk (lit "idle") (lit "Preflight scan completed")
                                    (Some (PreflightResult.timestamp result)) None None |},
           st')
      | (Throw message, st') =>
          (answer 500 (ErrorBody message), set_status srv1 (failed_status message), st')
      end
  end.

(** [POST /api/deploy]. *)
Definition post_deploy (srv : Server) (st : State) : Response * Server * State :=
  match lastPreflightResult srv with
  | None => (answer 400 (ErrorBody (lit "Run preflight scan first")), srv, st)
  | Some scan =>
      if negb (readyToDeploy (PreflightResult.safePlan scan)) then
        (answer 400 (ErrorBody (lit "VPS is not ready for deployment. Docker may not be installed.")),
         srv, st)
      else
        match getSSHConfig penv with
        | Throw message =>
            (answer 500 (ErrorBody message), set_status srv (failed_status message), st)
        | Ok config =>
            let srv1 :=
              set_status srv (DeploymentStatus.mk (lit "deploying")
                                (lit "Deploying services to VPS...") None None None) in
            match deployToVPS E B config (portsToUse (PreflightResult.safePlan scan)) st with
            | (Ok result, st') =>
                (answer 200 (ResultBody result),
                 set_status srv1
                   (DeploymentStatus.mk
                      (if success result then lit "success" else lit "error")
                      (message result) None (Some (toISOString E st'))
                      (Some (services result))),
                 st')
            | (Throw message, st') =>
                (answer 500 (ErrorBody message), set_status srv1 (failed_status message), st')
            end
        end
  end.

(** [GET /api/health-check]. *)
Definition get_health_check (srv : Server) (st : State) : Response * Server * State :=
  match lastPreflightResult srv with
  | None => (answer 400 (ErrorBody (lit "Run preflight scan first")), srv, st)
  | Some scan =>
      match getSSHConfig penv with
      | Throw message => (answer 500 (ErrorBody message), srv, st)
      | Ok config =>
          match checkVPSServices E config (portsToUse (PreflightResult.safePlan scan)) st with
          | (Ok services, st') =>
              let current := deploymentStatus srv in
              (answer 200 (ServicesBody services),
               set_status srv
                 (DeploymentStatus.mk
                    (DeploymentStatus.status current) (DeploymentStatus.message current)
                    (DeploymentStatus.lastScan current) (DeploymentStatus.lastDeploy current)
                    (Some services)),
               st')
          | (Throw message, st') => (answer 500 (ErrorBody message), srv, st')
          end
      end
  end.

(** [GET /api/proxy-config]. *)
Definition get_proxy_config (srv : Server) : Response :=
  match lastPreflightResult srv with
  | None => answer 400 (ErrorBody (lit "Run preflight scan first"))
  | Some scan =>
      answer 200 (ProxyBody (PreflightResult.reverseProxy_type scan)
                            (proxyConfigSnippet (PreflightResult.safePlan scan)))
  end.

(** [POST /api/github/sync], behind [rateLimitGitHubSync]: [now] is the
    clock when the request arrives and [finished] the clock when
    [syncToGitHub] has resolved. *)
Definition post_github_sync (now finished : Z) (srv : Server) : Response * Server :=
  match rateLimitGitHubSync (lastGitHubSync srv) now with
  | Respond response => (response, srv)
  | Next =>
      match syncToGitHub with
      | Ok result =>
          (answer 200 (SyncBody result),
           {| lastGitHubSync := finished;
              lastPreflightResult := lastPreflightResult srv;
              deploymentStatus := deploymentStatus srv |})
      | Throw message => (answer 500 (ErrorBody message), srv)
      end
  end.

End Handlers.

(** ** Who passes the middlewares *)

Section Middlewares.

Lemma given_Some variable :
  given variable = true ↔ ∃ key, key ≠ [] ∧ variable = Some key.
Proof.
  destruct variable as [[|c key]|]; simpl.
  - split; [done | by intros (key & Hkey & [= <-])].
  - split; [intros _; by exists (c :: key) | done].
  - split; [done | by intros (key & _ & ?)].
Qed.

(** X21: a request below [/api] reaches its handler exactly when its path
    is [/health], or an admin key is configured, is not empty and is the
    key the request carries.  Every other request is answered 401, or 500
    when no key (or an empty one) is configured, whatever it carries. *)
Theorem api_gate_admits penv path providedKey :
  (api_gate penv path providedKey = Next ↔
   path = lit "/health" ∨
   ∃ key, key ≠ [] ∧ ADMIN_API_KEY penv = Some key ∧ providedKey = Some key) ∧
  (∀ response,
     api_gate penv path providedKey = Respond response →
     statusCode response = if given (ADMIN_API_KEY penv) then 401 else 500).
Proof.
  unfold api_gate, requireAdminAuth.
  pose proof (given_Some (ADMIN_API_KEY penv)) as Hadmin.
  pose proof (given_Some providedKey) as Hprovided.
  case_bool_decide as Hpath; [split; [by intuition | done]|].
  destruct (given (ADMIN_API_KEY penv)); simpl.
  - destruct Hadmin as [Hadmin _]. destruct Hadmin as (key & Hkey & Hadmin); [done|].
    rewrite Hadmin. case_bool_decide as Hsame.
    + subst providedKey. destruct Hprovided as [_ Hprovided].
      rewrite Hprovided by by exists key. simpl.
      split; [|done]. split; [|done]. intros _. right. by exists key.
    + rewrite orb_true_r. split; [|by intros response [= <-]].
      split; [done|]. intros [?|(key' & _ & [= <-] & ->)]; done.
  - split; [|by intros response [= <-]].
    split; [done|]. intros [?|(key & Hkey & Hsome & _)]; [done|].
    destruct Hadmin as [_ Hadmin]. by discriminate Hadmin; [exists key].
Qed.

Lemma ceil_thousandth_bounds x :
  1000 * (ceil_thousandth x - 1) < x ≤ 1000 * ceil_thousandth x.
Proof.
  unfold ceil_thousandth.
  pose proof (Z.div_mod (- x) 1000 ltac:(done)) as Hdiv.
  pose proof (Z.mod_pos_bound (- x) 1000 ltac:(done)) as Hmod. lia.
Qed.

Lemma rate_limit_passes lastSync now :
  rateLimitGitHubSync lastSync now = Next ↔
  lastSync ≤ 0 ∨ lastSync + SYNC_COOLDOWN_MS ≤ now.
Proof.
  unfold rateLimitGitHubSync, SYNC_COOLDOWN_MS. cbv zeta.
  destruct (0 <? lastSync) eqn:Hlast; simpl.
  - apply Z.ltb_lt in Hlast.
    destruct (now - lastSync <? 10 * 60 * 1000) eqn:Hsince.
    + apply Z.ltb_lt in Hsince. split; [done | lia].
    + apply Z.ltb_ge in Hsince. split; [right; lia | done].
  - apply Z.ltb_ge in Hlast. split; [by left | done].
Qed.

Lemma rate_limit_refuses lastSync now response :
  rateLimitGitHubSync lastSync now = Respond response →
  statusCode response = 429 ∧
  json response =
    RetryBody (lit "Rate limited. Please wait " ++
               toString (ceil_thousandth (SYNC_COOLDOWN_MS - (now - lastSync))) ++
               lit " seconds before syncing again.")
              (ceil_thousandth (SYNC_COOLDOWN_MS - (now - lastSync))).
Proof.
  unfold rateLimitGitHubSync. cbv zeta. destruct (_ && _); [|done]. by intros [= <-].
Qed.

(** X22: the rate limiter with a clock that does not run backwards.
    Before the first successful sync nothing is limited.  After one, a
    request is refused exactly while fewer than 600000 ms have passed; the
    answer is 429 and tells to wait between 1 and 600 seconds, and that
    many seconds later the request passes, while a second earlier it would
    not. *)
Theorem rate_limit_window lastSync now :
  lastSync ≤ now →
  match rateLimitGitHubSync lastSync now with
  | Next => lastSync ≤ 0 ∨ lastSync + SYNC_COOLDOWN_MS ≤ now
  | Respond response =>
      0 < lastSync ∧ now < lastSync + SYNC_COOLDOWN_MS ∧
      statusCode response = 429 ∧
      ∃ text waitSeconds,
        json response = RetryBody text waitSeconds ∧
        1 ≤ waitSeconds ≤ 600 ∧
        rateLimitGitHubSync lastSync (now + 1000 * waitSeconds) = Next ∧
        rateLimitGitHubSync lastSync (now + 1000 * (waitSeconds - 1)) ≠ Next
  end.
Proof.
  intros Hclock.
  pose proof (rate_limit_passes lastSync now) as Hpasses.
  destruct (rateLimitGitHubSync lastSync now) as [response|] eqn:Hlimit;
    [|by apply Hpasses].
  assert (Hwithin : 0 < lastSync ∧ now < lastSync + SYNC_COOLDOWN_MS).
  { destruct (decide (lastSync ≤ 0 ∨ lastSync + SYNC_COOLDOWN_MS ≤ now)) as [Hfree|?];
      [by apply Hpasses in Hfree | lia]. }
  apply rate_limit_refuses in Hlimit as [Hcode Hbody].
  pose proof (ceil_thousandth_bounds (SYNC_COOLDOWN_MS - (now - lastSync))) as Hceil.
  set (waitSeconds := ceil_thousandth _) in *.
  split; [lia|]. split; [lia|]. split; [done|].
  eexists _, waitSeconds. split; [exact Hbody|].
  unfold SYNC_COOLDOWN_MS in *. split; [lia|].
  rewrite !rate_limit_passes. unfold SYNC_COOLDOWN_MS. lia.
Qed.

(** X22 half a second after a sync: the answer tells to wait 600 seconds. *)
Lemma rate_limit_window_witness :
  ∃ text, rateLimitGitHubSync 1700000000000 1700000000500
          = Respond {| statusCode := 429; json := RetryBody text 600 |}.
Proof.
  pose proof (rate_limit_window 1700000000000 1700000000500 ltac:(lia)) as Hwindow.
  destruct (rateLimitGitHubSync 1700000000000 1700000000500) as [[code body]|] eqn:Hlimit.
  - destruct Hwindow as (_ & _ & Hcode & text & waitSeconds & Hbody & _).
    simpl in Hcode, Hbody. subst code body. exists text.
    vm_compute in Hlimit. by injection Hlimit as <- <-.
  - vm_compute in Hlimit. discriminate Hlimit.
Defined.

(** X23: the sync route starts the cooldown only when [syncToGitHub]
    resolved: then the time it finished is recorded; a failed or a refused
    sync leaves the server as it was.  After a sync that finished at a
    positive time, every request within the next 600000 ms is refused with
    429 before [syncToGitHub] is asked, and the first one after that is
    given to it. *)
Theorem sync_starts_cooldown syncToGitHub now finished srv :
  let run := post_github_sync syncToGitHub now finished srv in
  (statusCode run.1 = 200 → lastGitHubSync run.2 = finished) ∧
  (statusCode run.1 ≠ 200 → run.2 = srv) ∧
  lastPreflightResult run.2 = lastPreflightResult srv ∧
  deploymentStatus run.2 = deploymentStatus srv ∧
  (statusCode run.1 = 200 → 0 < finished →
   ∀ again now' finished',
     finished ≤ now' →
     let rerun := post_github_sync again now' finished' run.2 in
     if now' <? finished + SYNC_COOLDOWN_MS
     then statusCode rerun.1 = 429 ∧ rerun.2 = run.2
     else statusCode rerun.1 = (match again with Ok _ => 200 | Throw _ => 500 end)).
Proof.
  intros run.
  assert (Hrun : run = post_github_sync syncToGitHub now finished srv) by reflexivity.
  clearbody run. unfold post_github_sync in Hrun.
  destruct (rateLimitGitHubSync (lastGitHubSync srv) now) as [response|] eqn:Hlimit.
  { apply rate_limit_refuses in Hlimit as [Hcode _].
    subst run. simpl. rewrite Hcode. repeat split; done. }
  destruct syncToGitHub as [result|msg]; subst run; simpl; [|repeat split; done].
  repeat split; try done.
  intros _ Hfinished again now' finished' Hclock.
  unfold post_github_sync. simpl.
  pose proof (rate_limit_passes finished now') as Hpasses.
  destruct (rateLimitGitHubSync finished now') as [response|] eqn:Hlimit'.
  - apply rate_limit_refuses in Hlimit' as [Hcode _].
    destruct (now' <? finished + SYNC_COOLDOWN_MS) eqn:Hwithin; [done|].
    apply Z.ltb_ge in Hwithin.
    destruct Hpasses as [_ Hpasses]. discriminate Hpasses. by right.
  - destruct Hpasses as [Hpasses _].
    destruct Hpasses as [?|Hpassed]; [done|lia|].
    apply Z.ltb_ge in Hpassed. rewrite Hpassed. by destruct again.
Qed.

End Middlewares.

(** ** The secrets *)

Section Secrets.

Lemma given_default variable :
  given variable = true → variable = Some (default [] variable) ∧ default [] variable ≠ [].
Proof. by destruct variable as [[|c text]|]. Qed.

Lemma getSSHConfig_Ok penv config :
  getSSHConfig penv = Ok config ↔
  VPS_PERSONAL_IP penv = Some (host config) ∧ host config ≠ [] ∧
  VPS_PERSONAL_USER penv = Some (username config) ∧ username config ≠ [] ∧
  VPS_SSH_PRIVATE_KEY penv = Some (privateKey config) ∧ privateKey config ≠ [].
Proof.
  unfold getSSHConfig. cbv zeta.
  pose proof (given_default (VPS_PERSONAL_IP penv)) as Hhost.
  pose proof (given_default (VPS_PERSONAL_USER penv)) as Huser.
  pose proof (given_default (VPS_SSH_PRIVATE_KEY penv)) as Hkey.
  destruct config as [h u k]. simpl.
  destruct (given (VPS_PERSONAL_IP penv)) eqn:Gh; simpl.
  2: { split; [done|]. intros (Hsome & Hne & _). rewrite Hsome in Gh.
       by destruct h. }
  destruct (given (VPS_PERSONAL_USER penv)) eqn:Gu; simpl.
  2: { split; [done|]. intros (_ & _ & Hsome & Hne & _). rewrite Hsome in Gu.
       by destruct u. }
  destruct (given (VPS_SSH_PRIVATE_KEY penv)) eqn:Gk; simpl.
  2: { split; [done|]. intros (_ & _ & _ & _ & Hsome & Hne). rewrite Hsome in Gk.
       by destruct k. }
  destruct Hhost as [Hh ?]; [done|]. destruct Huser as [Hu ?]; [done|].
  destruct Hkey as [Hk ?]; [done|].
  split.
  - intros [= <- <- <-]. done.
  - intros (Hh' & _ & Hu' & _ & Hk' & _).
    rewrite Hh', Hu', Hk'. done.
Qed.

Lemma getSSHConfig_Throw penv msg :
  getSSHConfig penv = Throw msg → secretsConfigured penv = false.
Proof.
  unfold getSSHConfig, secretsConfigured. cbv zeta.
  by destruct (given (VPS_PERSONAL_IP penv)), (given (VPS_PERSONAL_USER penv)),
              (given (VPS_SSH_PRIVATE_KEY penv)).
Qed.

(** X24: [getSSHConfig] returns exactly when the three variables are set
    and not empty, and then returns their values; this is when
    [/api/status] shows [secretsConfigured].  Otherwise it throws, and the
    message names a variable exactly when that variable is missing. *)
Theorem getSSHConfig_missing penv :
  match getSSHConfig penv with
  | Ok config =>
      secretsConfigured penv = true ∧
      VPS_PERSONAL_IP penv = Some (host config) ∧ host config ≠ [] ∧
      VPS_PERSONAL_USER penv = Some (username config) ∧ username config ≠ [] ∧
      VPS_SSH_PRIVATE_KEY penv = Some (privateKey config) ∧ privateKey config ≠ []
  | Throw message =>
      secretsConfigured penv = false ∧
      starts_with (lit "Missing required secrets: ") message = true ∧
      (contains message (lit "VPS_PERSONAL_IP") ↔ given (VPS_PERSONAL_IP penv) = false) ∧
      (contains message (lit "VPS_PERSONAL_USER") ↔ given (VPS_PERSONAL_USER penv) = false) ∧
      (contains message (lit "VPS_SSH_PRIVATE_KEY") ↔
       given (VPS_SSH_PRIVATE_KEY penv) = false)
  end.
Proof.
  destruct (getSSHConfig penv) as [config|message] eqn:Hconfig.
  - pose proof Hconfig as Hvalues. apply getSSHConfig_Ok in Hvalues.
    split; [|exact Hvalues].
    revert Hconfig. unfold getSSHConfig, secretsConfigured. cbv zeta.
    by destruct (given (VPS_PERSONAL_IP penv)), (given (VPS_PERSONAL_USER penv)),
                (given (VPS_SSH_PRIVATE_KEY penv)).
  - revert Hconfig. unfold getSSHConfig, secretsConfigured. cbv zeta.
    destruct (given (VPS_PERSONAL_IP penv)), (given (VPS_PERSONAL_USER penv)),
             (given (VPS_SSH_PRIVATE_KEY penv)); simpl; [done|..];
      intros [= <-]; (split; [done|]); (split; [by vm_compute|]);
      rewrite <- !includes_contains; by vm_compute.
Qed.

End Secrets.

(** ** What the handlers do to the server *)

Section Requests.

Context (E : Env) (B : Bundle) (penv : ProcessEnv).
Context (runPreflightScan : SSHConfig → M PreflightResult.t).

Local Opaque lit.

(** [deployToVPS] throws only when the connection is refused, and has
    done nothing else then. *)
Lemma deployToVPS_Throw config ports st msg st' :
  deployToVPS E B config ports st = (Throw msg, st') →
  new_events st st' = [Connect config (Throw msg)].
Proof.
  rewrite deployToVPS_run. cbv zeta.
  destruct (connect_reply E _ config) as [u|msg'] eqn:Hconnect.
  - unfold try_catch. destruct (deploy_steps E B ports _) as [[r|msg'] st1]; [done|].
    by rewrite deploy_failed_run.
  - intros [= <- <-]. by apply new_events_app.
Qed.

Lemma new_events_same st : new_events st st = [].
Proof. apply new_events_app. by rewrite app_nil_r. Qed.

(** The plan of the last scan lets the deployment start. *)
Definition cleared (srv : Server) : Prop :=
  ∃ scan, lastPreflightResult srv = Some scan ∧
          readyToDeploy (PreflightResult.safePlan scan) = true.

(** X25: the deployment route answers 400 exactly when there is no scan
    or the plan of the last scan is not ready, and then it changes neither
    the server nor the remote host.  When the plan was made by [safePlan],
    that is exactly when docker was not found: no warning of the plan
    stops a deployment. *)
Theorem deploy_route_guard srv st response srv' st' :
  post_deploy E B penv srv st = (response, srv', st') →
  (statusCode response = 400 ↔ ¬ cleared srv) ∧
  (statusCode response = 400 → srv' = srv ∧ st' = st) ∧
  (∀ timestamp proxy facts,
     lastPreflightResult srv = Some (PreflightResult.mk timestamp proxy (safePlan facts)) →
     (statusCode response = 400 ↔ dockerInstalled facts = false)).
Proof.
  unfold post_deploy, cleared. intros Hrun.
  destruct (lastPreflightResult srv) as [scan|] eqn:Hscan.
  2: { injection Hrun as <- <- <-. simpl.
       split; [split; [by intros _ (scan & ? & _) | done]|]. split; done. }
  destruct (readyToDeploy (PreflightResult.safePlan scan)) eqn:Hready; simpl in Hrun.
  2: { injection Hrun as <- <- <-. simpl.
       split; [split; [intros _ (scan' & [= <-] & ?); congruence | done]|].
       split; [done|]. intros timestamp proxy facts [= ->].
       simpl in Hready. done. }
  assert (Hcode : statusCode response ≠ 400).
  { destruct (getSSHConfig penv) as [config|msg]; [|by injection Hrun as <- <- <-].
    destruct (deployToVPS E B config _ st) as [[result|msg] st1];
      by injection Hrun as <- <- <-. }
  split; [split; [done|]; intros Hnot; destruct Hnot; by exists scan|].
  split; [done|]. intros timestamp proxy facts [= ->]. simpl in Hready.
  split; [done | congruence].
Qed.

(** X26: what the deployment route answers once the plan lets it start.
    It answers 200 whenever [deployToVPS] returned, also when the result
    reports a failure; the status is then [success] or [error] as the
    result says, with the services of the result.  It answers 500 only
    when a secret is missing, and then nothing was done on the host, or
    when the connection was refused, and then nothing else was done; the
    status is [error].  On every path the scan and the sync time stay and
    the status is not left at [deploying]. *)
Theorem deploy_route_outcome srv st response srv' st' :
  post_deploy E B penv srv st = (response, srv', st') →
  cleared srv →
  let status := deploymentStatus srv' in
  lastPreflightResult srv' = lastPreflightResult srv ∧
  lastGitHubSync srv' = lastGitHubSync srv ∧
  ((∃ result,
      response = answer 200 (ResultBody result) ∧
      DeploymentStatus.status status = (if success result then lit "success" else lit "error") ∧
      DeploymentStatus.message status = message result ∧
      DeploymentStatus.services status = Some (services result)) ∨
   (∃ msg,
      response = answer 500 (ErrorBody msg) ∧
      status = failed_status msg ∧
      (secretsConfigured penv = false ∧ st' = st ∨
       ∃ config, getSSHConfig penv = Ok config ∧
                 new_events st st' = [Connect config (Throw msg)]))).
Proof.
  unfold post_deploy. intros Hrun (scan & Hscan & Hready). rewrite Hscan, Hready in Hrun.
  simpl in Hrun. cbv zeta.
  destruct (getSSHConfig penv) as [config|msg] eqn:Hsecrets.
  - destruct (deployToVPS E B config _ st) as [[result|msg] st1] eqn:Hdeploy;
      injection Hrun as <- <- <-; simpl; (split; [done|]); (split; [done|]).
    + left. by exists result.
    + right. exists msg. split; [done|]. split; [done|]. right.
      exists config. split; [done|]. by eapply deployToVPS_Throw.
  - injection Hrun as <- <- <-. simpl. split; [done|]. split; [done|].
    right. exists msg. split; [done|]. split; [done|]. left.
    split; [by eapply getSSHConfig_Throw | done].
Qed.

(** X27: the health-check route never changes the status, the message or
    the times of the deployment status, nor the scan; with an answer other
    than 200 it changes nothing of the server; with 200 it replaces the
    services by those it answers.  It runs whether or not the plan is
    ready: it answers 400 exactly when there is no scan. *)
Theorem health_check_keeps_status srv st response srv' st' :
  get_health_check E penv srv st = (response, srv', st') →
  let before := deploymentStatus srv in
  let after := deploymentStatus srv' in
  DeploymentStatus.status after = DeploymentStatus.status before ∧
  DeploymentStatus.message after = DeploymentStatus.message before ∧
  DeploymentStatus.lastScan after = DeploymentStatus.lastScan before ∧
  DeploymentStatus.lastDeploy after = DeploymentStatus.lastDeploy before ∧
  lastPreflightResult srv' = lastPreflightResult srv ∧
  lastGitHubSync srv' = lastGitHubSync srv ∧
  (statusCode response ≠ 200 → srv' = srv) ∧
  (statusCode response = 200 →
   ∃ services, json response = ServicesBody services ∧
               DeploymentStatus.services after = Some services) ∧
  (statusCode response = 400 ↔ lastPreflightResult srv = None).
Proof.
  unfold get_health_check. intros Hrun. cbv zeta.
  destruct (lastPreflightResult srv) as [scan|] eqn:Hscan.
  2: { injection Hrun as <- <- <-. rewrite Hscan. simpl. repeat split; done. }
  destruct (getSSHConfig penv) as [config|msg].
  2: { injection Hrun as <- <- <-. rewrite Hscan. simpl. repeat split; done. }
  destruct (checkVPSServices E config _ st) as [[s|msg] st1];
    injection Hrun as <- <- <-; simpl; repeat split; try done.
  intros _. by exists s.
Qed.

(** X28: a scan that fails, for a missing secret or on the host, sets the
    status to [error] but keeps the result of the scan before it; so the
    deployment route answers afterwards what it would have answered
    without the failed scan.  A scan that succeeds replaces the result
    and sets the status to [idle], which forgets the services and the time
    of the last deployment. *)
Theorem failed_scan_keeps_plan srv st response srv' st' :
  post_preflight penv runPreflightScan srv st = (response, srv', st') →
  lastGitHubSync srv' = lastGitHubSync srv ∧
  (statusCode response ≠ 200 →
   ∃ msg, response = answer 500 (ErrorBody msg) ∧
          deploymentStatus srv' = failed_status msg ∧
          lastPreflightResult srv' = lastPreflightResult srv ∧
          ∀ st2, (post_deploy E B penv srv' st2).1.1 = (post_deploy E B penv srv st2).1.1 ∧
                 (post_deploy E B penv srv' st2).2 = (post_deploy E B penv srv st2).2) ∧
  (statusCode response = 200 →
   ∃ result, response = answer 200 (ScanBody result) ∧
             lastPreflightResult srv' = Some result ∧
             deploymentStatus srv' =
               DeploymentStatus.mk (lit "idle") (lit "Preflight scan completed")
                                   (Some (PreflightResult.timestamp result)) None None).
Proof.
  unfold post_preflight. intros Hrun.
  assert (Hsame : ∀ srv1,
            lastPreflightResult srv1 = lastPreflightResult srv →
            ∀ st2, (post_deploy E B penv srv1 st2).1.1 = (post_deploy E B penv srv st2).1.1 ∧
                   (post_deploy E B penv srv1 st2).2 = (post_deploy E B penv srv st2).2).
  { intros srv1 Hplan st2. unfold post_deploy. rewrite Hplan.
    destruct (lastPreflightResult srv) as [scan|]; [|done].
    destruct (negb _); [done|].
    destruct (getSSHConfig penv) as [config|msg]; [|done].
    by destruct (deployToVPS E B config _ st2) as [[result|msg] st3]. }
  destruct (getSSHConfig penv) as [config|msg].
  2: { injection Hrun as <- <- <-. simpl. split; [done|]. split; [|done].
       intros _. exists msg. repeat split; try done; by apply Hsame. }
  destruct (runPreflightScan config st) as [[result|msg] st1];
    injection Hrun as <- <- <-; simpl; (split; [done|]); split; try done.
  - intros _. by exists result.
  - intros _. exists msg. repeat split; try done; by apply Hsame.
Qed.

End Requests.

(** ** The routes on concrete servers *)

Section Servers.

Definition sample_penv : ProcessEnv :=
  {| ADMIN_API_KEY := Some (lit "admin");
     VPS_PERSONAL_IP := Some (lit "203.0.113.7");
     VPS_PERSONAL_USER := Some (lit "root");
     VPS_SSH_PRIVATE_KEY := Some (lit "key") |}.

(** The scan of a host with docker, no proxy and one listener, on 5678. *)
Definition sample_scan : PreflightResult.t :=
  PreflightResult.mk (lit "2024-01-01T00:00:00.000Z") none
    (safePlan {| ports := [{| port := 5678; protocol := lit "tcp";
                              process := lit "unknown"; state := lit "LISTEN" |}];
                 dockerInstalled := true;
                 proxyType := none;
                 existing_n8n := false;
                 existing_postgres := false |}).

(** A server that has scanned, and whose last deployment failed. *)
Definition scanned : Server :=
  {| lastGitHubSync := 0;
     lastPreflightResult := Some sample_scan;
     deploymentStatus := failed_status (lit "Channel open failure") |}.

Definition timed_out (config : SSHConfig) : M PreflightResult.t :=
  throw (lit "Timed out while waiting for handshake").

Lemma run_triple {A B C} (run : A * B * C) : run = (run.1.1, run.1.2, run.2).
Proof. by destruct run as [[a b] c]. Qed.

Local Abbreviation unscanned_run :=
  (post_deploy healthy_host sample_bundle sample_penv started fresh).

(** X25 on a server that has not scanned. *)
Lemma deploy_route_guard_witness :
  statusCode unscanned_run.1.1 = 400 ∧ unscanned_run.1.2 = started ∧ unscanned_run.2 = fresh.
Proof.
  destruct (deploy_route_guard healthy_host sample_bundle sample_penv started fresh
              unscanned_run.1.1 unscanned_run.1.2 unscanned_run.2 (run_triple _))
    as (Hcode & Hsame & _).
  assert (Hrefused : statusCode unscanned_run.1.1 = 400).
  { apply Hcode. by intros (scan & Hscan & _). }
  split; [exact Hrefused | by apply Hsame].
Defined.

Local Abbreviation deploy_request :=
  (post_deploy healthy_host sample_bundle sample_penv scanned fresh).

(** X26 on [healthy_host]: the deployment is answered 200 and the status
    becomes [success]. *)
Lemma deploy_route_outcome_witness :
  statusCode deploy_request.1.1 = 200 ∧
  DeploymentStatus.status (deploymentStatus deploy_request.1.2) = lit "success".
Proof.
  destruct (deploy_route_outcome healthy_host sample_bundle sample_penv scanned fresh
              deploy_request.1.1 deploy_request.1.2 deploy_request.2 (run_triple _))
    as (_ & _ & Hanswer).
  - exists sample_scan. split; reflexivity.
  - assert (Hcode : statusCode deploy_request.1.1 = 200) by (vm_compute; reflexivity).
    split; [exact Hcode|].
    destruct Hanswer as [(result & Hresponse & Hstatus & _)|(msg & Hresponse & _)].
    + rewrite Hstatus.
      assert (Hresult : json deploy_request.1.1 = ResultBody result) by by rewrite Hresponse.
      assert (Hsuccess : match json deploy_request.1.1 with
                         | ResultBody r => success r = true
                         | _ => False
                         end) by (vm_compute; reflexivity).
      rewrite Hresult in Hsuccess. by rewrite Hsuccess.
    + rewrite Hresponse in Hcode. discriminate Hcode.
Defined.

Local Abbreviation check_request :=
  (get_health_check steady_host sample_penv scanned fresh).

(** X27 on [steady_host]: the services are found up and the status stays
    [error]. *)
Lemma health_check_keeps_status_witness :
  statusCode check_request.1.1 = 200 ∧
  DeploymentStatus.status (deploymentStatus check_request.1.2) = lit "error" ∧
  is_Some (DeploymentStatus.services (deploymentStatus check_request.1.2)).
Proof.
  destruct (health_check_keeps_status steady_host sample_penv scanned fresh
              check_request.1.1 check_request.1.2 check_request.2 (run_triple _))
    as (Hstatus & _ & _ & _ & _ & _ & _ & Hservices & _).
  assert (Hcode : statusCode check_request.1.1 = 200) by (vm_compute; reflexivity).
  split; [exact Hcode|]. split; [exact Hstatus|].
  destruct (Hservices Hcode) as (s & _ & Hsome). by exists s.
Defined.

Local Abbreviation scan_request :=
  (post_preflight sample_penv timed_out scanned fresh).

(** X28 on a host that does not answer: the scan fails and the plan of
    the scan before it stays. *)
Lemma failed_scan_keeps_plan_witness :
  statusCode scan_request.1.1 = 500 ∧
  lastPreflightResult scan_request.1.2 = Some sample_scan.
Proof.
  destruct (failed_scan_keeps_plan healthy_host sample_bundle sample_penv timed_out
              scanned fresh scan_request.1.1 scan_request.1.2 scan_request.2 (run_triple _))
    as (_ & Hfailed & _).
  assert (Hcode : statusCode scan_request.1.1 = 500) by (vm_compute; reflexivity).
  split; [exact Hcode|].
  destruct Hfailed as (msg & _ & _ & Hplan & _); [by rewrite Hcode|].
  exact Hplan.
Defined.

End Servers.
